(** * project-gc: the reconciliation engine of [main.js]

    A shallow embedding of the hierarchy builders ([getBucketHierarchy],
    [getFolderHierarchy]), the change detector ([isFileModified] and the two
    hash helpers) and the tree materializers ([cloneCloudRepo],
    [pullCloudRepo], [getFileContentFromS3]), with the properties the
    specification states about them; then the upload of a local folder
    ([cloneLocalRepo]), the lookups in the local store ([getLocalRepos],
    [getActiveRepoLocal]), the handler of ['get-folder-hierarchy'] and the
    folder paths the handlers of ['clone-repo'] and ['pull-repo'] keep, with
    further properties of the code.

    Conventions.
    - JavaScript strings are [string]; [null] is [None].
    - An [async] function is a computation in the monad [M]: it threads the
      local file system and a log of the observable calls, and it settles as
      [Resolved v] or [Rejected e]; an error event nobody listens to is
      [Uncaught e].
    - The object store, the hash function and the listing are parameters:
      the store answers [GetObject] as [object_store] says.
    - Node's [path] module is modelled in its POSIX flavour. *)

From Stdlib Require Import String Ascii List Bool Arith Lia NArith.
From Stdlib.Strings Require Byte.
Import ListNotations.
Local Open Scope string_scope.
Local Open Scope list_scope.

(** ** JavaScript strings and arrays *)

Module JS.

Definition slash : ascii := "/"%char.

(** [s.split('/')]: never empty; [''.split('/')] is [['']]. *)
Fixpoint split (s : string) : list string :=
  match s with
  | EmptyString => [EmptyString]
  | String c rest =>
      if Ascii.eqb c slash then EmptyString :: split rest
      else match split rest with
           | [] => [String c EmptyString]
           | x :: xs => String c x :: xs
           end
  end.

(** [parts.join('/')]. *)
Definition join (parts : list string) : string := String.concat "/" parts.

(** [parts.slice(0, n)]. *)
Definition slice0 (n : nat) (parts : list string) : list string := firstn n parts.

(** A string without the separator. *)
Fixpoint slash_free (s : string) : bool :=
  match s with
  | EmptyString => true
  | String c rest => negb (Ascii.eqb c slash) && slash_free rest
  end.

Definition starts_with_slash (s : string) : bool :=
  match s with
  | String c _ => Ascii.eqb c slash
  | EmptyString => false
  end.

Fixpoint ends_with_slash (s : string) : bool :=
  match s with
  | EmptyString => false
  | String c EmptyString => Ascii.eqb c slash
  | String _ rest => ends_with_slash rest
  end.

End JS.

(** ** Node's [path] module (POSIX) *)

Module Path.

Definition is_dot (s : string) : bool := String.eqb s ".".
Definition is_dotdot (s : string) : bool := String.eqb s "..".

(** One segment of [normalizeString]: empty and ["."] segments vanish,
    [".."] removes the previous segment unless there is none (or it is
    itself [".."]), in which case it is kept only above a relative path. *)
Definition norm_step (allowAboveRoot : bool) (acc : list string) (seg : string)
  : list string :=
  if String.eqb seg "" || is_dot seg then acc
  else if is_dotdot seg then
    match rev acc with
    | [] => if allowAboveRoot then [seg] else []
    | last :: before =>
        if is_dotdot last
        then (if allowAboveRoot then acc ++ [seg] else acc)
        else rev before
    end
  else acc ++ [seg].

Definition normalizeSegments (allowAboveRoot : bool) (segs : list string)
  : list string :=
  fold_left (norm_step allowAboveRoot) segs [].

(** [path.normalize]. *)
Definition normalize (p : string) : string :=
  match p with
  | EmptyString => "."
  | _ =>
      let isAbsolute := JS.starts_with_slash p in
      let trailingSeparator := JS.ends_with_slash p in
      let segs := normalizeSegments (negb isAbsolute) (JS.split p) in
      match segs with
      | [] => if isAbsolute then "/"
              else if trailingSeparator then "./" else "."
      | _ =>
          let body := JS.join segs in
          let body := if trailingSeparator then (body ++ "/")%string else body in
          if isAbsolute then ("/" ++ body)%string else body
      end
  end.

(** [path.join(a, b)]: the non-empty arguments joined by the separator,
    then normalized. *)
Definition join (a b : string) : string :=
  match a, b with
  | EmptyString, EmptyString => "."
  | EmptyString, _ => normalize b
  | _, EmptyString => normalize a
  | _, _ => normalize (a ++ "/" ++ b)%string
  end.

Definition nonempty (s : string) : bool := negb (String.eqb s "").

(** [path.basename(p)]: the segment after the last separator, trailing
    separators ignored. *)
Definition basename (p : string) : string :=
  last (filter nonempty (JS.split p)) "".

(** [path.dirname(p)], following the scan of Node's implementation from
    the end of the string down to index 1.  [scan] walks the reversed tail
    of the path; [matchedSlash] is the flag of the same name. *)
Fixpoint dirname_scan (matchedSlash : bool) (rtail : list ascii)
  : option (list ascii) :=
  match rtail with
  | [] => None
  | c :: before =>
      if Ascii.eqb c JS.slash then
        if matchedSlash then dirname_scan true before
        else Some before
      else dirname_scan false before
  end.

Definition dirname (p : string) : string :=
  match p with
  | EmptyString => "."
  | String c0 tail =>
      let hasRoot := Ascii.eqb c0 JS.slash in
      match dirname_scan true (rev (list_ascii_of_string tail)) with
      | None => if hasRoot then "/" else "."
      | Some rbefore =>
          match rbefore with
          | [] => if hasRoot then "//" else String c0 EmptyString
          | _ => String c0 (string_of_list_ascii (rev rbefore))
          end
      end
  end.

(** How the file system reads a path: the names to follow from the root,
    with empty, ["."] and [".."] segments resolved. *)
Definition segments (p : string) : list string :=
  normalizeSegments false (JS.split p).

(** A proper directory entry name. *)
Definition valid_name (s : string) : bool :=
  nonempty s && JS.slash_free s && negb (is_dot s) && negb (is_dotdot s).

End Path.

(** ** Settled promises *)

Inductive errno := ENOENT | ENOTDIR | EISDIR | EEXIST.

(** What the modelled code can throw. *)
Inductive exn :=
| TypeError (msg : string)
    (** a property of [undefined] read, [path.dirname(null)] *)
| S3ServiceException (bucket key : string)
    (** [s3.send] rejected *)
| StreamError (bucket key : string)
    (** the ['error'] event of an object body stream *)
| FsError (code : errno) (path : string).
    (** a failed file system call *)

(** The settlement of an [async] call.  [Uncaught] is an ['error'] event
    emitted on a stream that has no listener for it: it is thrown outside the
    promise chain, no [try]/[catch] sees it and the awaiting call never
    settles. *)
Inductive outcome (A : Type) :=
| Resolved (a : A)
| Rejected (e : exn)
| Uncaught (e : exn).
Arguments Resolved {A} a.
Arguments Rejected {A} e.
Arguments Uncaught {A} e.

(** ** The hierarchy node (section 3 of the specification)

    The JavaScript object literal [{name, path, type, isModified, children}];
    [children] is absent ([None]) on the nodes built for files. *)

Inductive ntype := TFile | TFolder.

Unset Elimination Schemes.
Inductive hnode := HNode {
  name : string;
  path : string;
  type : ntype;
  isModified : bool;
  children : option (list hnode)
}.
Set Elimination Schemes.

Definition ntype_eqb (a b : ntype) : bool :=
  match a, b with
  | TFile, TFile | TFolder, TFolder => true
  | _, _ => false
  end.

Definition set_children (n : hnode) (cs : list hnode) : hnode :=
  {| name := name n; path := path n; type := type n;
     isModified := isModified n; children := Some cs |}.

(** [children.find((child) => child.name === folderName)] *)
Definition find_child (folderName : string) (cs : list hnode) : option hnode :=
  find (fun child => String.eqb (name child) folderName) cs.

(** The node [find] returned is updated in place: in the array it is the first
    entry with that name. *)
Fixpoint replace_child (folderName : string) (c' : hnode) (cs : list hnode)
  : list hnode :=
  match cs with
  | [] => []
  | c :: rest =>
      if String.eqb (name c) folderName then c' :: rest
      else c :: replace_child folderName c' rest
  end.

(** Induction over a hierarchy, children included. *)
Section hnode_induction.
Variable P : hnode -> Prop.
Hypothesis Hleaf : forall n p t m, P (HNode n p t m None).
Hypothesis Hnode : forall n p t m cs,
    Forall P cs -> P (HNode n p t m (Some cs)).

Fixpoint hnode_ind' (h : hnode) : P h :=
  match h with
  | HNode n p t m None => Hleaf n p t m
  | HNode n p t m (Some cs) =>
      Hnode n p t m cs
        ((fix all (l : list hnode) : Forall P l :=
            match l with
            | [] => Forall_nil P
            | c :: l' => Forall_cons c (hnode_ind' c) (all l')
            end) cs)
  end.
End hnode_induction.

(** ** HierarchyBuilder, remote mode: [getBucketHierarchy] *)

Module Bucket.

Definition undefined_children : exn :=
  TypeError "Cannot read properties of undefined".

Definition mkFile (fileName key : string) : hnode :=
  {| name := fileName; path := key; type := TFile;
     isModified := false; children := None |}.

Definition mkFolder (folderName folderPath : string) : hnode :=
  {| name := folderName; path := folderPath; type := TFolder;
     isModified := false; children := Some [] |}.

(** The body of [for (const content of contents)] from [currentFolder] on:
    [folders] are the parts [parts[i] .. parts[length - 2]] still to walk
    and [fileName] is [parts[length - 1]].  Reading [children] of a node
    that has none throws. *)
Fixpoint walk (parts : list string) (key : string) (i : nat)
    (folders : list string) (fileName : string) (currentFolder : hnode)
  : outcome hnode :=
  match children currentFolder with
  | None => Rejected undefined_children
  | Some cs =>
      match folders with
      | [] => Resolved (set_children currentFolder (cs ++ [mkFile fileName key]))
      | folderName :: rest =>
          match find_child folderName cs with
          | Some childFolder =>
              match walk parts key (S i) rest fileName childFolder with
              | Resolved c' =>
                  Resolved (set_children currentFolder
                              (replace_child folderName c' cs))
              | Rejected e => Rejected e
              | Uncaught e => Uncaught e
              end
          | None =>
              let childFolder :=
                mkFolder folderName (JS.join (JS.slice0 (i + 1) parts)) in
              match walk parts key (S i) rest fileName childFolder with
              | Resolved c' => Resolved (set_children currentFolder (cs ++ [c']))
              | Rejected e => Rejected e
              | Uncaught e => Uncaught e
              end
          end
      end
  end.

Definition insertKey (key : string) (hierarchy : hnode) : outcome hnode :=
  let parts := JS.split key in
  walk parts key 0 (removelast parts) (last parts "") hierarchy.

Fixpoint insertAll (contents : list string) (hierarchy : hnode)
  : outcome hnode :=
  match contents with
  | [] => Resolved hierarchy
  | key :: rest =>
      match insertKey key hierarchy with
      | Resolved h' => insertAll rest h'
      | Rejected e => Rejected e
      | Uncaught e => Uncaught e
      end
  end.

Definition root (friendlyName : string) : hnode :=
  {| name := friendlyName; path := ""; type := TFolder;
     isModified := false; children := Some [] |}.

(** [for (const content of contents)] over [undefined]. *)
Definition contents_not_iterable : exn := TypeError "contents is not iterable".

(** [contents] is [res.Contents] of the listing, [undefined] ([None]) in the
    response for a bucket without objects; [friendlyName] is the name the
    local store holds for the bucket. *)
Definition getBucketHierarchy (friendlyName : string)
    (contents : option (list string)) : outcome hnode :=
  match contents with
  | Some keys => insertAll keys (root friendlyName)
  | None => Rejected contents_not_iterable
  end.

End Bucket.

(** ** The local file system

    A tree of directories and regular files.  A directory lists its entries
    in enumeration order; the root of the tree is the directory ["/"]. *)

Definition bytes := list Byte.byte.

Unset Elimination Schemes.
Inductive fsnode :=
| FFile (data : bytes)
| FDir (entries : list (string * fsnode)).
Set Elimination Schemes.

Module FS.

Fixpoint assoc (s : string) (es : list (string * fsnode)) : option fsnode :=
  match es with
  | [] => None
  | (k, v) :: rest => if String.eqb k s then Some v else assoc s rest
  end.

Fixpoint update (s : string) (v' : fsnode) (es : list (string * fsnode))
  : list (string * fsnode) :=
  match es with
  | [] => []
  | (k, v) :: rest =>
      if String.eqb k s then (k, v') :: rest else (k, v) :: update s v' rest
  end.

(** The node a resolved path leads to. *)
Fixpoint find (segs : list string) (n : fsnode) : option fsnode :=
  match segs with
  | [] => Some n
  | s :: rest =>
      match n with
      | FDir es =>
          match assoc s es with
          | Some c => find rest c
          | None => None
          end
      | FFile _ => None
      end
  end.

(** [mkdir -p]: every missing directory on the way is created; a regular
    file on the way, or at the end, is an error. *)
Fixpoint mkdirp (segs : list string) (n : fsnode) : errno + fsnode :=
  match n with
  | FFile _ => inl match segs with [] => EEXIST | _ => ENOTDIR end
  | FDir es =>
      match segs with
      | [] => inr n
      | s :: rest =>
          match assoc s es with
          | Some c =>
              match mkdirp rest c with
              | inr c' => inr (FDir (update s c' es))
              | inl e => inl e
              end
          | None =>
              match mkdirp rest (FDir []) with
              | inr c' => inr (FDir (es ++ [(s, c')]))
              | inl e => inl e
              end
          end
      end
  end.

(** Opening a path for writing (flag ['w']) and storing [data] in it: the
    parent must be a directory and the path must not be one. *)
Fixpoint write (segs : list string) (data : bytes) (n : fsnode)
  : errno + fsnode :=
  match n with
  | FFile _ => inl ENOTDIR
  | FDir es =>
      match segs with
      | [] => inl EISDIR
      | [s] =>
          match assoc s es with
          | Some (FDir _) => inl EISDIR
          | Some (FFile _) => inr (FDir (update s (FFile data) es))
          | None => inr (FDir (es ++ [(s, FFile data)]))
          end
      | s :: rest =>
          match assoc s es with
          | Some c =>
              match write rest data c with
              | inr c' => inr (FDir (update s c' es))
              | inl e => inl e
              end
          | None => inl ENOENT
          end
      end
  end.

(** The code a lookup that finds nothing fails with: [ENOTDIR] when the
    path leads through a regular file, [ENOENT] when an entry is missing. *)
Fixpoint lookup_errno (segs : list string) (n : fsnode) : errno :=
  match segs, n with
  | _ :: _, FFile _ => ENOTDIR
  | s :: rest, FDir es =>
      match assoc s es with
      | Some c => lookup_errno rest c
      | None => ENOENT
      end
  | [], _ => ENOENT
  end.

Definition is_file (n : fsnode) : bool :=
  match n with FFile _ => true | FDir _ => false end.

Definition same_kind (a b : fsnode) : bool := Bool.eqb (is_file a) (is_file b).

(** Directory entries have proper, pairwise different names. *)
Inductive wf : fsnode -> Prop :=
| wf_file data : wf (FFile data)
| wf_dir es :
    NoDup (map fst es) ->
    (forall k, In k (map fst es) -> Path.valid_name k = true) ->
    (forall k v, In (k, v) es -> wf v) ->
    wf (FDir es).

End FS.

(** ** The world an [async] call runs in *)

(** The calls the properties talk about, in the order they are made. *)
Inductive event :=
| EvGetObject (bucket key : string)  (** [s3.send(new GetObjectCommand(..))] *)
| EvCreateHash                       (** [crypto.createHash('sha256')] *)
| EvWriteStream (path : string)      (** [fs.createWriteStream(path)] *)
| EvMkdir (path : string)            (** [fs.promises.mkdir(path, ..)] *)
| EvConsoleError (msg : string).     (** [console.error(msg, err)] *)

Record world := World { fs : fsnode; log : list event }.

Definition M (A : Type) : Type := world -> outcome A * world.

Definition ret {A} (a : A) : M A := fun w => (Resolved a, w).

Definition throw {A} (e : exn) : M A := fun w => (Rejected e, w).

Definition bind {A B} (m : M A) (k : A -> M B) : M B :=
  fun w =>
    match m w with
    | (Resolved a, w') => k a w'
    | (Rejected e, w') => (Rejected e, w')
    | (Uncaught e, w') => (Uncaught e, w')
    end.

Notation "x <- m ;; k" := (bind m (fun x => k))
  (at level 61, m at next level, right associativity).
Notation "m ;; k" := (bind m (fun _ => k))
  (at level 61, right associativity).

(** [try { body } catch (err) { handler }]: only rejections are caught. *)
Definition try_catch {A} (body : M A) (handler : exn -> M A) : M A :=
  fun w =>
    match body w with
    | (Rejected e, w') => handler e w'
    | r => r
    end.

Definition emit (e : event) : M unit :=
  fun w => (Resolved tt, World (fs w) (log w ++ [e])).

Definition console_error (msg : string) : M unit := emit (EvConsoleError msg).

Section forEach.
Variable A : Type.
Variable body : A -> M unit.

(** [for (const x of xs) { await body(x); }] *)
Fixpoint forEach (xs : list A) : M unit :=
  match xs with
  | [] => ret tt
  | x :: rest => body x ;; forEach rest
  end.
End forEach.
Arguments forEach {A} body xs.

(** *** [fs] *)

Definition existsSync (p : string) : M bool :=
  fun w =>
    (Resolved match FS.find (Path.segments p) (fs w) with
              | Some _ => true
              | None => false
              end, w).

(** [await fs.promises.mkdir(p, { recursive: true })] *)
Definition mkdir_recursive (p : string) : M unit :=
  emit (EvMkdir p) ;;
  fun w =>
    match FS.mkdirp (Path.segments p) (fs w) with
    | inr fs' => (Resolved tt, World fs' (log w))
    | inl code => (Rejected (FsError code p), w)
    end.

(** The chunks [fs.createReadStream] delivers: at most [highWaterMark]
    (64 KiB) bytes each. *)
Fixpoint chunked (fuel : nat) (size : nat) (data : bytes) : list bytes :=
  match fuel, data with
  | S fuel', _ :: _ => firstn size data :: chunked fuel' size (skipn size data)
  | _, _ => []
  end.

Definition readChunks (data : bytes) : list bytes :=
  chunked (length data) (N.to_nat 65536) data.

(** *** [path.dirname] applied to a value that may be [null] *)

Definition path_dirname (p : option string) : M string :=
  match p with
  | Some s => ret (Path.dirname s)
  | None => throw (TypeError "The path argument must be of type string. Received null")
  end.

(** *** [crypto] and the object store *)

(** [crypto.createHash('sha256')], [hash.update(chunk)] and
    [hash.digest('hex')]. *)
Class Sha256 := {
  hash : Type;
  createHash : hash;
  update : hash -> bytes -> hash;
  digest_hex : hash -> string
}.

(** What [GetObject] answers: the request is refused, or a body stream that
    delivers [chunks] and then ends ([ends = true]) or fails. *)
Inductive s3_response :=
| S3Fails
| S3Body (chunks : list bytes) (ends : bool).

Definition object_store := string -> string -> s3_response.

(** ** ContentHasher, ChangeDetector and TreeMaterializer *)

Section Engine.

Context {sha : Sha256}.
Variable s3 : object_store.

(** [await s3.send(new GetObjectCommand({ Bucket, Key }))] *)
Definition s3_send_GetObject (bucketName key : string)
  : M (list bytes * bool) :=
  emit (EvGetObject bucketName key) ;;
  match s3 bucketName key with
  | S3Fails => throw (S3ServiceException bucketName key)
  | S3Body chunks ends => ret (chunks, ends)
  end.

(** The digest of a stream: [update] per chunk, then [digest('hex')]. *)
Definition stream_digest (chunks : list bytes) : string :=
  digest_hex (fold_left update chunks createHash).

(** [new Promise(..)] over an object body: resolves with the digest on
    ['end'], rejects on ['error']. *)
Definition hashBody (bucketName key : string) (body : list bytes * bool)
  : M string :=
  emit EvCreateHash ;;
  if snd body then ret (stream_digest (fst body))
  else throw (StreamError bucketName key).

(** The promise is returned from inside the [try] without being awaited
    there, so the [catch] sees a failure of [s3.send] only. *)
Definition calculateCloudFileHash (bucketName filePath : string)
  : M (option string) :=
  promise <- try_catch
               (data <- s3_send_GetObject bucketName filePath ;;
                ret (Some (hashBody bucketName filePath data)))
               (fun err =>
                  console_error "Error calculating file hash:" ;;
                  ret None) ;;
  match promise with
  | Some p => digest <- p ;; ret (Some digest)
  | None => ret None
  end.

Definition calculateLocalFileHash (filePath : string) : M string :=
  emit EvCreateHash ;;
  fun w =>
    match FS.find (Path.segments filePath) (fs w) with
    | Some (FFile data) => (Resolved (stream_digest (readChunks data)), w)
    | Some (FDir _) => (Rejected (FsError EISDIR filePath), w)
    | None =>
        (Rejected (FsError (FS.lookup_errno (Path.segments filePath) (fs w))
                           filePath), w)
    end.

(** [remoteHash !== localHash], the left side a string or [null]. *)
Definition strict_neq (remoteHash : option string) (localHash : string) : bool :=
  match remoteHash with
  | Some h => negb (String.eqb h localHash)
  | None => true
  end.

Definition isFileModified (bucketName filePath localFilePath : string)
  : M bool :=
  present <- existsSync localFilePath ;;
  if negb present then ret true
  else
    remoteHash <- calculateCloudFileHash bucketName filePath ;;
    localHash <- calculateLocalFileHash localFilePath ;;
    ret (strict_neq remoteHash localHash).

(** [stream.pipe(fs.createWriteStream(localFilePath))], awaited until the
    body stream ends or fails.  A failure to open the file is an ['error']
    event on the write stream, which has no listener. *)
Definition pipeToFile (bucketName key : string) (body : list bytes * bool)
    (localFilePath : string) : M unit :=
  emit (EvWriteStream localFilePath) ;;
  fun w =>
    match FS.write (Path.segments localFilePath) (concat (fst body)) (fs w) with
    | inr fs' =>
        (if snd body then Resolved tt
         else Rejected (StreamError bucketName key),
         World fs' (log w))
    | inl code => (Uncaught (FsError code localFilePath), w)
    end.

Definition getFileContentFromS3 (filePath localFilePath bucketName : string)
  : M (option string) :=
  try_catch
    (data <- s3_send_GetObject bucketName filePath ;;
     pipeToFile bucketName filePath data localFilePath ;;
     ret (Some localFilePath))
    (fun err =>
       console_error "Error getting file content from S3:" ;;
       ret None).

Definition not_iterable : exn := TypeError "hierarchy.children is not iterable".

Fixpoint cloneCloudRepo (hierarchy : hnode) (folderPath bucketName : string)
  : M unit :=
  let destinationPath := Path.join folderPath (name hierarchy) in
  match type hierarchy with
  | TFile =>
      present <- existsSync destinationPath ;;
      if negb present then
        localFilePath <-
          getFileContentFromS3 (path hierarchy) destinationPath bucketName ;;
        parentDir <- path_dirname localFilePath ;;
        mkdir_recursive parentDir
      else ret tt
  | TFolder =>
      present <- existsSync destinationPath ;;
      (if negb present then mkdir_recursive destinationPath else ret tt) ;;
      match children hierarchy with
      | Some cs =>
          forEach (fun child => cloneCloudRepo child destinationPath bucketName) cs
      | None => throw not_iterable
      end
  end.

Fixpoint pullCloudRepo (hierarchy : hnode) (folderPath bucketName : string)
  : M unit :=
  let destinationPath := Path.join folderPath (name hierarchy) in
  match type hierarchy with
  | TFile =>
      let localFilePath := destinationPath in
      modified <- isFileModified bucketName (path hierarchy) localFilePath ;;
      if (modified : bool) then
        parentDir <- path_dirname (Some localFilePath) ;;
        mkdir_recursive parentDir ;;
        getFileContentFromS3 (path hierarchy) localFilePath bucketName ;;
        ret tt
      else ret tt
  | TFolder =>
      present <- existsSync destinationPath ;;
      (if negb present then mkdir_recursive destinationPath else ret tt) ;;
      match children hierarchy with
      | Some cs =>
          forEach (fun child => pullCloudRepo child destinationPath bucketName) cs
      | None => throw not_iterable
      end
  end.

End Engine.

(** ** HierarchyBuilder, local mode: [getFolderHierarchy]

    The walk only reads the file system, so it is a function of it; [fuel]
    bounds the depth of the recursion ([None] when it runs out). *)

Module Folder.

Fixpoint sequence (rs : list (option (outcome hnode)))
  : option (outcome (list hnode)) :=
  match rs with
  | [] => Some (Resolved [])
  | None :: _ => None
  | Some (Rejected e) :: _ => Some (Rejected e)
  | Some (Uncaught e) :: _ => Some (Uncaught e)
  | Some (Resolved h) :: rest =>
      match sequence rest with
      | Some (Resolved hs) => Some (Resolved (h :: hs))
      | other => other
      end
  end.

Fixpoint getFolderHierarchy (fuel : nat) (disk : fsnode) (folderPath : string)
  : option (outcome hnode) :=
  match fuel with
  | O => None
  | S fuel' =>
      match FS.find (Path.segments folderPath) disk with
      | None =>
          Some (Rejected (FsError (FS.lookup_errno (Path.segments folderPath) disk)
                                  folderPath))
      | Some (FFile _) =>
          Some (Resolved {| name := Path.basename folderPath;
                            path := folderPath;
                            type := TFile;
                            isModified := false;
                            children := None |})
      | Some (FDir es) =>
          let children_ := map fst es in
          match sequence
                  (map (fun child =>
                          let childPath := Path.join folderPath child in
                          getFolderHierarchy fuel' disk childPath)
                       children_) with
          | Some (Resolved hs) =>
              Some (Resolved {| name := Path.basename folderPath;
                                path := folderPath;
                                type := TFolder;
                                isModified := false;
                                children := Some hs |})
          | Some (Rejected e) => Some (Rejected e)
          | Some (Uncaught e) => Some (Uncaught e)
          | None => None
          end
      end
  end.

End Folder.

(** ** The handler of ['get-folder-hierarchy']

    It answers the hierarchy of the folder selected last ([folderPath], the
    empty string when none is), or an empty array; a failure of the builder
    is logged and answered by the empty array as well. *)

Inductive reply :=
| Hierarchy (hierarchy : hnode)
| EmptyArray.

Definition get_folder_hierarchy (fuel : nat) (disk : fsnode) (folderPath : string)
  : option (outcome reply * list event) :=
  match folderPath with
  | EmptyString => Some (Resolved EmptyArray, [])
  | _ =>
      match Folder.getFolderHierarchy fuel disk folderPath with
      | None => None
      | Some (Resolved hierarchy) => Some (Resolved (Hierarchy hierarchy), [])
      | Some (Rejected error) =>
          Some (Resolved EmptyArray,
                [EvConsoleError "Error reading folder hierarchy:"])
      | Some (Uncaught error) => Some (Uncaught error, [])
      end
  end.

(** ** Uploading a local folder: [cloneLocalRepo]

    What the function does to the store is the sequence of its [PutObject]
    requests; [body] is the path the read stream of the request was opened
    on, absent for the marker of a folder.  [accepts] tells which requests
    the store grants; a refused one rejects [s3.send].  As in the local
    builder, [fuel] bounds the depth of the recursion. *)

Record put := PutObject {
  put_bucket : string;
  put_key : string;
  put_body : option string
}.

Module Upload.

Section Upload.

Variable accepts : put -> bool.
Variable disk : fsnode.
Variable uniqueName : string.

(** [await s3.send(new PutObjectCommand(request))] *)
Definition s3_send_PutObject (request : put) (sent : list put)
  : outcome unit * list put :=
  (if accepts request then Resolved tt
   else Rejected (S3ServiceException (put_bucket request) (put_key request)),
   sent ++ [request]).

(** [for (const file of files) { .. }], the recursive call given as
    [recur]. *)
Fixpoint forEachFile (recur : string -> list put -> option (outcome unit * list put))
    (folderPath : string) (files : list (string * fsnode)) (sent : list put)
  : option (outcome unit * list put) :=
  match files with
  | [] => Some (Resolved tt, sent)
  | (file_name, node) :: rest =>
      let filePath := Path.join folderPath file_name in
      match node with
      | FDir _ =>
          let folderKey := (file_name ++ "/")%string in
          match s3_send_PutObject (PutObject uniqueName folderKey None) sent with
          | (Resolved _, sent1) =>
              match recur filePath sent1 with
              | Some (Resolved _, sent2) => forEachFile recur folderPath rest sent2
              | other => other
              end
          | failed => Some failed
          end
      | FFile _ =>
          match s3_send_PutObject
                  (PutObject uniqueName file_name (Some filePath)) sent with
          | (Resolved _, sent1) => forEachFile recur folderPath rest sent1
          | failed => Some failed
          end
      end
  end.

Fixpoint cloneLocalRepo (fuel : nat) (folderPath : string) (sent : list put)
  : option (outcome unit * list put) :=
  match fuel with
  | O => None
  | S fuel' =>
      match FS.find (Path.segments folderPath) disk with
      | None =>
          Some (Rejected (FsError (FS.lookup_errno (Path.segments folderPath) disk)
                                  folderPath), sent)
      | Some (FFile _) => Some (Rejected (FsError ENOTDIR folderPath), sent)
      | Some (FDir files) =>
          forEachFile (cloneLocalRepo fuel') folderPath files sent
      end
  end.

End Upload.

End Upload.

(** ** The local store: [getLocalRepos] and [getActiveRepoLocal]

    [config] is [store.store], the parsed JSON object of the store, given
    as [for (const key in config)] enumerates it; [undefined] is [None]. *)

Unset Elimination Schemes.
Inductive json :=
| JNull
| JBool (b : bool)
| JNumber (literal : string)
| JString (s : string)
| JArray (items : list json)
| JObject (members : list (string * json)).
Set Elimination Schemes.

Module Store.

Fixpoint lookup (key : string) (members : list (string * json)) : option json :=
  match members with
  | [] => None
  | (k, v) :: rest => if String.eqb k key then Some v else lookup key rest
  end.

(** [value.friendlyName], [value.organization], [value.folderPath]: the
    member of an object, [undefined] on any other value but [null], which
    has no properties to read. *)
Definition member (value : json) (key : string) : outcome (option json) :=
  match value with
  | JNull => Rejected (TypeError "Cannot read properties of null")
  | JObject members => Resolved (lookup key members)
  | _ => Resolved None
  end.

(** The object [getLocalRepos] builds per repository. *)
Record repo := Repo {
  repo_uniqueName : string;
  repo_friendlyName : option json;
  repo_organization : option json;
  repo_folderPath : option json
}.

(** The body of the loop for one key other than ['activeRepo']. *)
Definition readRepo (key : string) (value : json) : outcome repo :=
  match member value "friendlyName" with
  | Resolved friendlyName =>
      match member value "organization" with
      | Resolved organization =>
          match member value "folderPath" with
          | Resolved folderPath =>
              Resolved (Repo key friendlyName organization folderPath)
          | Rejected e => Rejected e
          | Uncaught e => Uncaught e
          end
      | Rejected e => Rejected e
      | Uncaught e => Uncaught e
      end
  | Rejected e => Rejected e
  | Uncaught e => Uncaught e
  end.

(** [for (const key in config) { .. localRepos.push(obj) .. }], from the
    array [localRepos] built so far. *)
Fixpoint getLocalRepos_from (config : list (string * json)) (localRepos : list repo)
  : outcome (list repo) :=
  match config with
  | [] => Resolved localRepos
  | (key, value) :: rest =>
      if negb (String.eqb key "activeRepo") then
        match readRepo key value with
        | Resolved obj => getLocalRepos_from rest (localRepos ++ [obj])
        | Rejected e => Rejected e
        | Uncaught e => Uncaught e
        end
      else getLocalRepos_from rest localRepos
  end.

Definition getLocalRepos (config : list (string * json)) : outcome (list repo) :=
  getLocalRepos_from config [].

(** [localRepos[i].uniqueName === activeRepo] *)
Definition strict_eq (uniqueName : string) (activeRepo : option json) : bool :=
  match activeRepo with
  | Some (JString s) => String.eqb uniqueName s
  | _ => false
  end.

Definition getActiveRepoLocal (config : list (string * json))
  : outcome (option repo) :=
  let activeRepo := lookup "activeRepo" config in
  match getLocalRepos config with
  | Resolved localRepos =>
      Resolved (find (fun r => strict_eq (repo_uniqueName r) activeRepo) localRepos)
  | Rejected e => Rejected e
  | Uncaught e => Uncaught e
  end.

End Store.

(** ** The folder paths the handlers keep

    ['clone-repo'] stores the folder of a repository as the folder it was
    cloned into, the separator, and its friendly name; ['pull-repo'] pulls
    into the stored folder cut before its last backslash. *)

From Stdlib Require Import ZArith.

Module JSString.

Definition backslash : ascii := ascii_of_nat 92.

(** [s.lastIndexOf(c)]: the index of the last occurrence, [-1] without
    one.  [i] is the index of the head of [s], [found] the last occurrence
    before it. *)
Fixpoint lastIndexOf_from (s : string) (c : ascii) (i found : Z) : Z :=
  match s with
  | EmptyString => found
  | String x rest =>
      lastIndexOf_from rest c (i + 1) (if Ascii.eqb x c then i else found)
  end.

Definition lastIndexOf (s : string) (c : ascii) : Z :=
  lastIndexOf_from s c 0 (-1).

(** An index argument of [slice], as the string reads it: counted from the
    end when negative, and clamped to the string. *)
Definition clamp (len index : Z) : Z :=
  if (index <? 0)%Z then Z.max (len + index) 0 else Z.min index len.

(** [s.slice(beginIndex, endIndex)]. *)
Definition slice (s : string) (beginIndex endIndex : Z) : string :=
  let len := Z.of_nat (String.length s) in
  let from := clamp len beginIndex in
  let to := clamp len endIndex in
  substring (Z.to_nat from) (Z.to_nat (Z.max (to - from) 0)) s.

Fixpoint free_of (c : ascii) (s : string) : bool :=
  match s with
  | EmptyString => true
  | String x rest => negb (Ascii.eqb x c) && free_of c rest
  end.

End JSString.

(** [folderPath: repoData.folderPath + '/' + repoData.friendlyName] *)
Definition clone_repo_folderPath (folderPathWithoutFName friendlyName : string)
  : string :=
  (folderPathWithoutFName ++ "/" ++ friendlyName)%string.

(** [activeRepo.folderPath.slice(0, activeRepo.folderPath.lastIndexOf('\\'))] *)
Definition pull_repo_folderPath (folderPath : string) : string :=
  JSString.slice folderPath 0
    (JSString.lastIndexOf folderPath JSString.backslash).

(** ** Vocabulary of the properties *)

(** *** Shapes: names, kinds and nesting, whatever the order of the children *)

Fixpoint same_shape (a b : hnode) : bool :=
  String.eqb (name a) (name b) && ntype_eqb (type a) (type b) &&
  match children a, children b with
  | None, None => true
  | Some ca, Some cb =>
      Nat.eqb (length ca) (length cb) &&
      forallb (fun x => existsb (fun y => same_shape x y) cb) ca &&
      forallb (fun y => existsb (fun x => same_shape x y) ca) cb
  | _, _ => false
  end.

(** The same, the display name of the root left out of the comparison. *)
Definition same_shape_modulo_root (a b : hnode) : bool :=
  same_shape (HNode "" (path a) (type a) (isModified a) (children a))
             (HNode "" (path b) (type b) (isModified b) (children b)).

(** *** Destinations *)

(** The destination of a key below [folderPath]: the joins [cloneCloudRepo]
    performs on the way from the root node (named [friendlyName]) down the
    segments of the key. *)
Definition destination (folderPath friendlyName : string) (segments : list string)
  : string :=
  fold_left Path.join segments (Path.join folderPath friendlyName).

(** The proper prefixes of a key, as segment lists (the empty one, the root,
    included). *)
Definition proper_prefix (pre segments : list string) : Prop :=
  exists rest, rest <> [] /\ segments = pre ++ rest.

(** The destinations of the file nodes of a hierarchy materialized below
    [folderPath]. *)
Fixpoint file_destinations (hierarchy : hnode) (folderPath : string) : list string :=
  let destinationPath := Path.join folderPath (name hierarchy) in
  match type hierarchy with
  | TFile => [destinationPath]
  | TFolder =>
      match children hierarchy with
      | Some cs => flat_map (fun child => file_destinations child destinationPath) cs
      | None => []
      end
  end.

Definition exists_at (disk : fsnode) (p : string) : bool :=
  match FS.find (Path.segments p) disk with
  | Some _ => true
  | None => false
  end.

Definition is_fetch_or_write (e : event) : bool :=
  match e with
  | EvGetObject _ _ | EvWriteStream _ => true
  | _ => false
  end.

(** *** Unique child names *)

Inductive unique_names : hnode -> Prop :=
| unique_leaf n p t m : unique_names (HNode n p t m None)
| unique_node n p t m cs :
    NoDup (map name cs) ->
    (forall c, In c cs -> unique_names c) ->
    unique_names (HNode n p t m (Some cs)).

(** *** Listings in which no key is a prefix of, or equal to, an earlier one *)

Fixpoint prefixb (a b : list string) : bool :=
  match a, b with
  | [], _ => true
  | x :: a', y :: b' => String.eqb x y && prefixb a' b'
  | _ :: _, [] => false
  end.

(** The segments of [key] are not a prefix of those of a key already seen
    (nor equal to them). *)
Definition fresh_key (seen : list string) (key : string) : bool :=
  forallb (fun earlier => negb (prefixb (JS.split key) (JS.split earlier))) seen.

Fixpoint fresh_from (seen contents : list string) : bool :=
  match contents with
  | [] => true
  | key :: rest => fresh_key seen key && fresh_from (key :: seen) rest
  end.

Definition fresh_listing (contents : list string) : bool := fresh_from [] contents.

(** A listing in strictly increasing order of its keys, compared byte by
    byte: the order in which a general purpose bucket lists them. *)
Fixpoint s3_ordered (contents : list string) : bool :=
  match contents with
  | [] => true
  | key :: rest => forallb (fun later => String.ltb key later) rest && s3_ordered rest
  end.

(** *** Nodes reachable by name

    [leads_to names h n]: from [h], following one child per name (each node
    on the way a folder), one arrives at [n]. *)

Inductive leads_to : list string -> hnode -> hnode -> Prop :=
| leads_here h : leads_to [] h h
| leads_down s rest h cs c n :
    type h = TFolder ->
    children h = Some cs ->
    In c cs ->
    name c = s ->
    leads_to rest c n ->
    leads_to (s :: rest) h n.

(** Folders carry children, files do not. *)
Inductive well_typed : hnode -> Prop :=
| wt_file n p m : well_typed (HNode n p TFile m None)
| wt_folder n p m cs :
    (forall c, In c cs -> well_typed c) ->
    well_typed (HNode n p TFolder m (Some cs)).

(** A property of every node without children. *)
Inductive every_leaf (Q : hnode -> Prop) : hnode -> Prop :=
| el_leaf n p t m :
    Q (HNode n p t m None) -> every_leaf Q (HNode n p t m None)
| el_node n p t m cs :
    (forall c, In c cs -> every_leaf Q c) ->
    every_leaf Q (HNode n p t m (Some cs)).

(** *** What a later state of the disk keeps of an earlier one *)

(** Every entry, with its kind. *)
Definition keeps (earlier later : fsnode) : Prop :=
  forall segs x,
    FS.find segs earlier = Some x ->
    exists x', FS.find segs later = Some x' /\ FS.same_kind x x' = true.

(** Every regular file, with its content. *)
Definition keeps_files (earlier later : fsnode) : Prop :=
  forall segs data,
    FS.find segs earlier = Some (FFile data) ->
    FS.find segs later = Some (FFile data).

(** Same kind, and the same node when it is a regular file. *)
Definition kept (x x' : fsnode) : Prop :=
  FS.same_kind x x' = true /\ forall data, x = FFile data -> x' = FFile data.

Definition same_kind_rel (x x' : fsnode) : Prop := FS.same_kind x x' = true.

(** *** Relations every step of a computation maintains *)

Definition preserves {A} (R : world -> world -> Prop) (m : M A) : Prop :=
  forall w r w', m w = (r, w') -> R w w'.

(** The disk of the later world keeps every entry of the earlier one. *)
Definition grows (w w' : world) : Prop := keeps (fs w) (fs w').

(** Moreover every regular file keeps its content, and what was logged in
    between is neither a fetch nor a file write. *)
Definition quiet (w w' : world) : Prop :=
  keeps (fs w) (fs w') /\ keeps_files (fs w) (fs w') /\
  exists evs, log w' = log w ++ evs /\
              forallb (fun e => negb (is_fetch_or_write e)) evs = true.

(** *** The keys behind the nodes of a hierarchy *)

(** [covered seen at_ h]: below [h], which sits at the names [at_] from the
    root, sibling names differ, and the names that lead to a node are a
    prefix of the segments of a key already [seen]. *)
Inductive covered (seen : list (list string)) : list string -> hnode -> Prop :=
| covered_leaf at_ n p t m : covered seen at_ (HNode n p t m None)
| covered_node at_ n p t m cs :
    NoDup (map name cs) ->
    (forall c, In c cs ->
               exists parts, In parts seen /\ prefixb (at_ ++ [name c]) parts = true) ->
    (forall c, In c cs -> covered seen (at_ ++ [name c]) c) ->
    covered seen at_ (HNode n p t m (Some cs)).

(** *** Absolute paths and free places *)

(** Segments that are proper names. *)
Definition plain (l : list string) : Prop :=
  Forall (fun s => Path.valid_name s = true) l.

(** The text of an absolute path made of proper names. *)
Definition absolute (l : list string) : string :=
  match l with
  | [] => "/"
  | _ => ("/" ++ JS.join l)%string
  end.

(** Paths neither of which continues the other. *)
Definition apart (a b : list string) : Prop :=
  prefixb a b = false /\ prefixb b a = false.

(** A hierarchy the store can serve: every file node names an object whose
    body arrives in full, sibling names are proper and differ. *)
Inductive cloneable (s3 : object_store) (bucketName : string) : hnode -> Prop :=
| cloneable_file n p m chunks :
    s3 bucketName p = S3Body chunks true ->
    cloneable s3 bucketName (HNode n p TFile m None)
| cloneable_folder n p m cs :
    NoDup (map name cs) ->
    (forall c, In c cs -> Path.valid_name (name c) = true) ->
    (forall c, In c cs -> cloneable s3 bucketName c) ->
    cloneable s3 bucketName (HNode n p TFolder m (Some cs)).

(** What a node becomes on the disk. *)
Definition materialized (s3 : object_store) (bucketName : string)
    (n : hnode) (x : fsnode) : Prop :=
  match type n with
  | TFile => exists chunks,
      s3 bucketName (path n) = S3Body chunks true /\ x = FFile (concat chunks)
  | TFolder => exists es, x = FDir es
  end.

(** What the clone of one node into a free place does. *)
Definition clones_into_free_place (s3 : object_store) (bucketName : string)
    (c : hnode) : Prop :=
  forall p w es,
    JS.starts_with_slash p = true ->
    Path.valid_name (name c) = true ->
    FS.find (Path.segments p) (fs w) = Some (FDir es) ->
    FS.find (Path.segments p ++ [name c]) (fs w) = None ->
    exists w',
      cloneCloudRepo s3 c p bucketName w = (Resolved tt, w')
      /\ (forall q, apart q (Path.segments p ++ [name c]) ->
                    FS.find q (fs w') = FS.find q (fs w))
      /\ (forall names n,
             leads_to names c n ->
             exists x,
               FS.find (Path.segments p ++ name c :: names) (fs w') = Some x
               /\ materialized s3 bucketName n x).

(** ** Sample data *)

Module Sample.

(** A stand-in for SHA-256 to run the model with: the digest is the text of
    the bytes fed. *)
Definition concat_hash : Sha256 :=
  {| hash := bytes;
     createHash := [];
     update := fun h chunk => h ++ chunk;
     digest_hex := string_of_list_byte |}.

Definition hello : bytes := [Byte.x68; Byte.x69].

(** A bucket holding [readme.txt] only. *)
Definition one_object : object_store :=
  fun _ key => if String.eqb key "readme.txt" then S3Body [hello] true else S3Fails.

Definition empty_store : object_store := fun _ _ => S3Fails.

(** [/home/user] exists and is empty. *)
Definition fresh_disk : fsnode := FDir [("home", FDir [("user", FDir [])])].

(** [/home/user/repo] holds [readme.txt]. *)
Definition cloned_disk : fsnode :=
  FDir [("home", FDir [("user", FDir [("repo", FDir [("readme.txt", FFile hello)])])])].

(** [/home/user/repo] holds [a.txt] and [b/c.txt], enumerated in either
    order. *)
Definition ab_disk (da dc : bytes) (b_first : bool) : fsnode :=
  let a := ("a.txt", FFile da) in
  let b := ("b", FDir [("c.txt", FFile dc)]) in
  FDir [("home", FDir [("user", FDir [("repo",
          FDir (if b_first then [b; a] else [a; b]))])])].

Definition ab_listing (b_first : bool) : list string :=
  if b_first then ["b/c.txt"; "a.txt"] else ["a.txt"; "b/c.txt"].

Definition readme : hnode := Bucket.mkFile "readme.txt" "readme.txt".

(** The hierarchy of the bucket holding [readme.txt], named [repo]. *)
Definition repo_tree : hnode := HNode "repo" "" TFolder false (Some [readme]).
Definition missing : hnode := Bucket.mkFile "gone.txt" "gone.txt".

(** The hierarchies the builders return on the samples. *)
Definition ab_remote_tree : hnode :=
  Eval vm_compute in
    match Bucket.getBucketHierarchy "repo" (Some (ab_listing false)) with
    | Resolved h => h
    | _ => Bucket.root ""
    end.

Definition ab_local_tree : hnode :=
  Eval vm_compute in
    match Folder.getFolderHierarchy 3 (ab_disk hello hello false) "/home/user/repo" with
    | Some (Resolved h) => h
    | _ => Bucket.root ""
    end.


Definition placeholder_tree : hnode :=
  Eval vm_compute in
    match Bucket.getBucketHierarchy "repo" (Some ["docs/"]) with
    | Resolved h => h
    | _ => Bucket.root ""
    end.

Definition fresh_world : world := World fresh_disk [].
Definition cloned_world : world := World cloned_disk [].

(** [/home/user] holds [notes.txt], beside the place of [repo]. *)
Definition notes_disk : fsnode :=
  FDir [("home", FDir [("user", FDir [("notes.txt", FFile hello)])])].
Definition notes_world : world := World notes_disk [].

(** A bucket holding [a.txt] and [b/c.txt]. *)
Definition ab_store : object_store :=
  fun _ key =>
    if String.eqb key "a.txt" || String.eqb key "b/c.txt"
    then S3Body [hello] true else S3Fails.

(** A store whose body streams fail after the first chunk. *)
Definition broken_store : object_store := fun _ _ => S3Body [hello] false.

(** [/home/user/repo] holds an older [readme.txt]. *)
Definition stale_disk : fsnode :=
  FDir [("home", FDir [("user", FDir [("repo",
          FDir [("readme.txt", FFile [Byte.x68])])])])].
Definition stale_world : world := World stale_disk [].

End Sample.

(** ** Vocabulary of the further properties *)

(** Between two worlds the store was asked only for objects that satisfy
    [P]. *)
Definition asks_only (P : string -> string -> Prop) (w w' : world) : Prop :=
  exists evs,
    log w' = log w ++ evs /\ forall b k, In (EvGetObject b k) evs -> P b k.

(** The file nodes a materializer visits carry paths among [keys]. *)
Inductive paths_within (keys : list string) : hnode -> Prop :=
| pw_file n p m cs : In p keys -> paths_within keys (HNode n p TFile m cs)
| pw_folder_empty n p m : paths_within keys (HNode n p TFolder m None)
| pw_folder n p m cs :
    (forall c, In c cs -> paths_within keys c) ->
    paths_within keys (HNode n p TFolder m (Some cs)).

(** Lookups away from [place] (neither above nor below it) give the same
    in both worlds. *)
Definition same_outside (place : list string) (w w' : world) : Prop :=
  forall q, apart q place -> FS.find q (fs w') = FS.find q (fs w).

(** Every node carries a proper name. *)
Inductive proper_names : hnode -> Prop :=
| proper_leaf n p t m :
    Path.valid_name n = true -> proper_names (HNode n p t m None)
| proper_node n p t m cs :
    Path.valid_name n = true ->
    (forall c, In c cs -> proper_names c) ->
    proper_names (HNode n p t m (Some cs)).

(** The nodes without children sit at the segments of keys [seen]. *)
Inductive leaves_at (seen : list (list string)) : list string -> hnode -> Prop :=
| la_leaf at_ n p t m : In at_ seen -> leaves_at seen at_ (HNode n p t m None)
| la_node at_ n p t m cs :
    (forall c, In c cs -> leaves_at seen (at_ ++ [name c]) c) ->
    leaves_at seen at_ (HNode n p t m (Some cs)).

(** [a] is a prefix of [b] and shorter. *)
Fixpoint proper_prefixb (a b : list string) : bool :=
  match a, b with
  | [], _ :: _ => true
  | x :: a', y :: b' => String.eqb x y && proper_prefixb a' b'
  | _, _ => false
  end.

(** No key already seen is continued by [key]. *)
Definition clear_of (seen : list string) (key : string) : bool :=
  forallb (fun earlier => negb (proper_prefixb (JS.split earlier) (JS.split key)))
          seen.

Fixpoint clear_from (seen contents : list string) : bool :=
  match contents with
  | [] => true
  | key :: rest => clear_of seen key && clear_from (key :: seen) rest
  end.

(** A listing in which no key lies below an earlier one. *)
Definition no_key_below_a_file (contents : list string) : bool :=
  clear_from [] contents.

(** Below a node that sits at the names [at_], every [path] spells the
    names from the root, joined by the separator. *)
Inductive paths_spelled : list string -> hnode -> Prop :=
| ps_leaf at_ n p t m : paths_spelled at_ (HNode n p t m None)
| ps_node at_ n p t m cs :
    (forall c, In c cs -> path c = JS.join (at_ ++ [name c])) ->
    (forall c, In c cs -> paths_spelled (at_ ++ [name c]) c) ->
    paths_spelled at_ (HNode n p t m (Some cs)).

(** *** The hierarchy that mirrors a directory tree *)

(** The depth of a tree of directories. *)
Fixpoint height (n : fsnode) : nat :=
  match n with
  | FFile _ => 0
  | FDir es => S (list_max (map (fun entry => height (snd entry)) es))
  end.

(** One node per entry, in enumeration order: the node of what stands at
    the path [p]. *)
Fixpoint mirror (p : string) (n : fsnode) : hnode :=
  match n with
  | FFile _ => HNode (Path.basename p) p TFile false None
  | FDir es =>
      HNode (Path.basename p) p TFolder false
            (Some (map (fun entry => mirror (Path.join p (fst entry)) (snd entry))
                       es))
  end.

(** The calls that change the disk. *)
Definition changes_disk (e : event) : bool :=
  match e with
  | EvWriteStream _ | EvMkdir _ => true
  | _ => false
  end.

(** The hash object computes [H], a function of the bytes fed to it,
    however they are cut into chunks: what [crypto.createHash('sha256')]
    promises, with [H] the SHA-256 hex digest of a byte sequence. *)
Definition computes {sha : Sha256} (H : bytes -> string) : Prop :=
  forall chunks : list bytes,
    digest_hex (fold_left update chunks createHash) = H (concat chunks).

(** A digest that depends on the bytes fed, not on how they were cut into
    chunks. *)
Definition chunking_invariant {sha : Sha256} : Prop :=
  forall a b : list bytes, concat a = concat b -> stream_digest a = stream_digest b.

(** Between two worlds the disk stayed as it was, and no call that changes
    it was made. *)
Definition undisturbed (w w' : world) : Prop :=
  fs w' = fs w
  /\ exists evs, log w' = log w ++ evs
                 /\ forallb (fun e => negb (changes_disk e)) evs = true.

(** *** The requests an upload makes *)

(** The requests for what stands below the directory [n] at the path [p],
    in the order of the enumeration: a marker, then its contents, for a
    directory; the entry under its own name for a regular file. *)
Fixpoint uploads (uniqueName p : string) (n : fsnode) : list put :=
  match n with
  | FFile _ => []
  | FDir es =>
      flat_map
        (fun entry =>
           match snd entry with
           | FDir _ =>
               PutObject uniqueName (fst entry ++ "/") None
               :: uploads uniqueName (Path.join p (fst entry)) (snd entry)
           | FFile _ =>
               [PutObject uniqueName (fst entry) (Some (Path.join p (fst entry)))]
           end)
        es
  end.

(** The requests for one entry of the directory at [p]. *)
Definition entry_uploads (uniqueName p : string) (entry : string * fsnode)
  : list put :=
  match snd entry with
  | FDir _ =>
      PutObject uniqueName (fst entry ++ "/") None
      :: uploads uniqueName (Path.join p (fst entry)) (snd entry)
  | FFile _ =>
      [PutObject uniqueName (fst entry) (Some (Path.join p (fst entry)))]
  end.

(** *** The entries of the store that stand for repositories *)

Definition is_repo_key (entry : string * json) : bool :=
  negb (String.eqb (fst entry) "activeRepo").

(** Sending requests one after the other, up to the first one refused. *)
Fixpoint attempt (accepts : put -> bool) (requests : list put)
  : outcome unit * list put :=
  match requests with
  | [] => (Resolved tt, [])
  | request :: rest =>
      if accepts request then
        (fst (attempt accepts rest), request :: snd (attempt accepts rest))
      else
        (Rejected (S3ServiceException (put_bucket request) (put_key request)),
         [request])
  end.

(** *** What a pull brings about *)

(** What stands on the disk is of the kind of the node. *)
Definition fits (n : hnode) (x : fsnode) : Prop :=
  match type n, x with
  | TFile, FFile _ | TFolder, FDir _ => True
  | _, _ => False
  end.

(** What a node is on the disk after a pull: a regular file that holds the
    bytes of the object, or one of the digest of the object, for a file
    node; a directory for a folder node. *)
Definition synced {sha : Sha256} (s3 : object_store) (bucketName : string)
    (n : hnode) (x : fsnode) : Prop :=
  match type n with
  | TFile => exists R F,
      s3 bucketName (path n) = S3Body R true
      /\ x = FFile F
      /\ (F = concat R \/ stream_digest R = stream_digest (readChunks F))
  | TFolder => exists es, x = FDir es
  end.

(** What the pull of one node does in a directory where nothing of another
    kind stands in its way. *)
Definition pulls_into_place {sha : Sha256} (s3 : object_store)
    (bucketName : string) (c : hnode) : Prop :=
  forall p w es,
    JS.starts_with_slash p = true ->
    Path.valid_name (name c) = true ->
    FS.find (Path.segments p) (fs w) = Some (FDir es) ->
    (forall names n x,
        leads_to names c n ->
        FS.find (Path.segments p ++ name c :: names) (fs w) = Some x ->
        fits n x) ->
    exists w',
      pullCloudRepo s3 c p bucketName w = (Resolved tt, w')
      /\ (forall names n,
             leads_to names c n ->
             exists x,
               FS.find (Path.segments p ++ name c :: names) (fs w') = Some x
               /\ synced s3 bucketName n x).

(** ** Further sample data *)

Module Sample2.

(** A store holding one repository, the active one. *)
Definition config : list (string * json) :=
  [("u1", JObject [("friendlyName", JString "repo");
                   ("organization", JString "org");
                   ("folderPath", JString "/home/user/repo")]);
   ("activeRepo", JString "u1")].

Definition u1 : Store.repo :=
  Store.Repo "u1" (Some (JString "repo")) (Some (JString "org"))
             (Some (JString "/home/user/repo")).

(** The requests of the upload of [/home/user/repo] holding [a.txt] and
    [b/c.txt]. *)
Definition ab_uploads : list put :=
  [PutObject "bucket" "a.txt" (Some "/home/user/repo/a.txt");
   PutObject "bucket" "b/" None;
   PutObject "bucket" "c.txt" (Some "/home/user/repo/b/c.txt")].

Definition ab_entries : list (string * fsnode) :=
  [("a.txt", FFile Sample.hello); ("b", FDir [("c.txt", FFile Sample.hello)])].

End Sample2.

(** * Properties *)

(** ** The change detector *)

(** The chunks a read stream delivers make up the file. *)
Lemma concat_chunked size :
  0 < size ->
  forall fuel data, length data <= fuel -> concat (chunked fuel size data) = data.
Proof.
  intros Hsize. induction fuel as [| fuel IH]; intros [| x data] Hlen;
    cbn [chunked concat]; try reflexivity.
  - cbn in Hlen. lia.
  - rewrite IH; [ apply firstn_skipn | ].
    rewrite length_skipn. cbn [length] in *. lia.
Qed.

Lemma concat_readChunks data : concat (readChunks data) = data.
Proof. apply concat_chunked; [ lia | apply Nat.le_refl ]. Qed.

Section Detector.

Context {sha : Sha256}.
Variable s3 : object_store.

Lemma isFileModified_absent bucketName filePath localFilePath w :
  FS.find (Path.segments localFilePath) (fs w) = None ->
  isFileModified s3 bucketName filePath localFilePath w = (Resolved true, w).
Proof.
  intros Hnone. unfold isFileModified, bind, existsSync.
  rewrite Hnone. reflexivity.
Qed.

Lemma calculateLocalFileHash_file localFilePath data w :
  FS.find (Path.segments localFilePath) (fs w) = Some (FFile data) ->
  calculateLocalFileHash localFilePath w =
    (Resolved (stream_digest (readChunks data)),
     World (fs w) (log w ++ [EvCreateHash])).
Proof.
  intros Hfile. unfold calculateLocalFileHash, bind, emit. cbn.
  rewrite Hfile. reflexivity.
Qed.

Lemma calculateCloudFileHash_body bucketName filePath chunks w :
  s3 bucketName filePath = S3Body chunks true ->
  calculateCloudFileHash s3 bucketName filePath w =
    (Resolved (Some (stream_digest chunks)),
     World (fs w) (log w ++ [EvGetObject bucketName filePath] ++ [EvCreateHash])).
Proof.
  intros Hbody.
  unfold calculateCloudFileHash, try_catch, bind, s3_send_GetObject, bind, emit.
  rewrite Hbody. cbn. rewrite <- app_assoc. reflexivity.
Qed.

Lemma calculateCloudFileHash_refused bucketName filePath w :
  s3 bucketName filePath = S3Fails ->
  calculateCloudFileHash s3 bucketName filePath w =
    (Resolved None,
     World (fs w)
           (log w ++ [EvGetObject bucketName filePath]
                  ++ [EvConsoleError "Error calculating file hash:"])).
Proof.
  intros Hfail.
  unfold calculateCloudFileHash, try_catch, bind, s3_send_GetObject, bind,
    console_error, emit.
  rewrite Hfail. cbn. rewrite <- app_assoc. reflexivity.
Qed.

(** C1. Let the hash object compute [SHA256], a digest of the bytes fed.
    With the object body delivered in full, [R] its chunks, and a regular
    file holding the bytes [L] at [localFilePath], [isFileModified]
    resolves, and to [false] exactly when the digest of the bytes of the
    object equals the digest of the bytes of the file; with nothing at
    [localFilePath] it resolves to [true] and the world, its log of
    [createHash] and [GetObject] calls included, is as before. *)
Theorem isFileModified_correct (SHA256 : bytes -> string)
    bucketName filePath localFilePath w :
  computes SHA256 ->
  (forall R L,
      s3 bucketName filePath = S3Body R true ->
      FS.find (Path.segments localFilePath) (fs w) = Some (FFile L) ->
      exists b w',
        isFileModified s3 bucketName filePath localFilePath w = (Resolved b, w')
        /\ fs w' = fs w
        /\ (b = false <-> SHA256 (concat R) = SHA256 L))
  /\ (FS.find (Path.segments localFilePath) (fs w) = None ->
      isFileModified s3 bucketName filePath localFilePath w = (Resolved true, w)).
Proof.
  intros Hsha.
  split; [ intros R L Hbody Hfile | apply isFileModified_absent ].
  unfold isFileModified, bind at 1, existsSync. rewrite Hfile. cbn [negb].
  unfold bind at 1. rewrite (calculateCloudFileHash_body _ _ _ w Hbody).
  unfold bind at 1. erewrite calculateLocalFileHash_file by (cbn [fs]; eassumption).
  unfold ret. do 2 eexists. split; [ reflexivity | ]. split; [ reflexivity | ].
  cbn [strict_neq]. rewrite negb_false_iff, String.eqb_eq.
  unfold stream_digest.
  rewrite (Hsha R), (Hsha (readChunks L)), concat_readChunks. reflexivity.
Qed.



End Detector.

(** ** The file system only grows *)

Section Disk.

Lemma assoc_update_same s c c' es :
  FS.assoc s es = Some c -> FS.assoc s (FS.update s c' es) = Some c'.
Proof.
  induction es as [| [k v] es IH]; cbn; [ discriminate | ].
  destruct (String.eqb k s) eqn:E; cbn; rewrite E; auto.
Qed.

Lemma assoc_update_other s t c' es :
  s <> t -> FS.assoc t (FS.update s c' es) = FS.assoc t es.
Proof.
  intros Hne. induction es as [| [k v] es IH]; cbn; [ reflexivity | ].
  destruct (String.eqb k s) eqn:E; cbn.
  - apply String.eqb_eq in E. subst k.
    destruct (String.eqb s t) eqn:E'; [ | reflexivity ].
    apply String.eqb_eq in E'. contradiction.
  - rewrite IH. reflexivity.
Qed.

Lemma assoc_app_found t c es more :
  FS.assoc t es = Some c -> FS.assoc t (es ++ more) = Some c.
Proof.
  induction es as [| [k v] es IH]; cbn; [ discriminate | ].
  destruct (String.eqb k t); auto.
Qed.

Lemma assoc_app_fresh t c es :
  FS.assoc t es = None -> FS.assoc t (es ++ [(t, c)]) = Some c.
Proof.
  induction es as [| [k v] es IH]; cbn.
  - rewrite String.eqb_refl. reflexivity.
  - destruct (String.eqb k t); [ discriminate | auto ].
Qed.

(** The step shared by [mkdirp] and [write]: one entry of a directory is
    replaced by a node that keeps what the entry held. *)
Lemma find_update_keeps (R : fsnode -> fsnode -> Prop) s c c' es :
  FS.assoc s es = Some c ->
  (forall q x, FS.find q c = Some x -> exists x', FS.find q c' = Some x' /\ R x x') ->
  (forall es1 es2, R (FDir es1) (FDir es2)) ->
  (forall x, R x x) ->
  forall q x,
    FS.find q (FDir es) = Some x ->
    exists x', FS.find q (FDir (FS.update s c' es)) = Some x' /\ R x x'.
Proof.
  intros Hs Hc Hdir Hrefl [| t q] x; cbn.
  - intros [= <-]. eauto.
  - destruct (String.eqb_spec s t) as [<- | Hne].
    + rewrite Hs, (assoc_update_same _ _ c' _ Hs). apply Hc.
    + rewrite (assoc_update_other _ _ c' es Hne).
      destruct (FS.assoc t es); [ | discriminate ]. eauto.
Qed.

Lemma find_append_keeps (R : fsnode -> fsnode -> Prop) s c' es :
  (forall es1 es2, R (FDir es1) (FDir es2)) ->
  (forall x, R x x) ->
  forall q x,
    FS.find q (FDir es) = Some x ->
    exists x', FS.find q (FDir (es ++ [(s, c')])) = Some x' /\ R x x'.
Proof.
  intros Hdir Hrefl [| t q] x; cbn.
  - intros [= <-]. eauto.
  - destruct (FS.assoc t es) eqn:Ht; [ | discriminate ].
    rewrite (assoc_app_found _ _ _ _ Ht). eauto.
Qed.

Lemma kept_refl x : kept x x.
Proof. split; [ destruct x; reflexivity | auto ]. Qed.

Lemma kept_dirs es1 es2 : kept (FDir es1) (FDir es2).
Proof. split; [ reflexivity | discriminate ]. Qed.

Lemma mkdirp_kept segs : forall n n',
    FS.mkdirp segs n = inr n' ->
    forall q x, FS.find q n = Some x ->
                exists x', FS.find q n' = Some x' /\ kept x x'.
Proof.
  induction segs as [| s rest IH]; intros [data | es] n' H; cbn in H;
    try discriminate.
  - injection H as <-. eauto using kept_refl.
  - destruct (FS.assoc s es) as [c |] eqn:Hs.
    + destruct (FS.mkdirp rest c) as [e | c'] eqn:Hc; [ discriminate | ].
      injection H as <-.
      apply find_update_keeps with (c := c);
        eauto using kept_refl, kept_dirs.
    + destruct (FS.mkdirp rest (FDir [])) as [e | c'] eqn:Hc; [ discriminate | ].
      injection H as <-.
      apply find_append_keeps; eauto using kept_refl, kept_dirs.
Qed.

Lemma mkdirp_keeps segs n n' : FS.mkdirp segs n = inr n' -> keeps n n'.
Proof.
  intros H q x Hx. destruct (mkdirp_kept _ _ _ H _ _ Hx) as (x' & Hx' & Hk & _).
  eauto.
Qed.

Lemma mkdirp_keeps_files segs n n' : FS.mkdirp segs n = inr n' -> keeps_files n n'.
Proof.
  intros H q data Hx. destruct (mkdirp_kept _ _ _ H _ _ Hx) as (x' & Hx' & _ & Hf).
  rewrite Hx'. f_equal. auto.
Qed.

Lemma same_kind_refl x : same_kind_rel x x.
Proof. destruct x; reflexivity. Qed.

Lemma write_keeps segs data : forall n n',
    FS.write segs data n = inr n' -> keeps n n'.
Proof.
  unfold keeps.
  induction segs as [| s rest IH]; intros [old | es] n' H; cbn in H;
    try discriminate.
  destruct rest as [| s2 rest].
  - destruct (FS.assoc s es) as [[old | sub] |] eqn:Hs; try discriminate;
      injection H as <-.
    + apply (find_update_keeps same_kind_rel s (FFile old) (FFile data) es Hs).
      * intros [| t q] x; cbn; [ intros [= <-]; eexists; split; reflexivity
                               | discriminate ].
      * reflexivity.
      * apply same_kind_refl.
    + apply (find_append_keeps same_kind_rel).
      * reflexivity.
      * apply same_kind_refl.
  - destruct (FS.assoc s es) as [c |] eqn:Hs; [ | discriminate ].
    destruct (FS.write (s2 :: rest) data c) as [e | c'] eqn:Hc; [ discriminate | ].
    injection H as <-.
    apply (find_update_keeps same_kind_rel s c c' es Hs).
    + apply IH. assumption.
    + reflexivity.
    + apply same_kind_refl.
Qed.

Lemma keeps_refl n : keeps n n.
Proof. intros q x Hx. exists x. split; [ assumption | destruct x; reflexivity ]. Qed.

Lemma keeps_trans a b c : keeps a b -> keeps b c -> keeps a c.
Proof.
  intros Hab Hbc q x Hx.
  destruct (Hab _ _ Hx) as (y & Hy & Kxy).
  destruct (Hbc _ _ Hy) as (z & Hz & Kyz).
  exists z. split; [ assumption | ].
  destruct x, y, z; cbn in *; congruence.
Qed.

Lemma keeps_files_refl n : keeps_files n n.
Proof. intros q data Hx. assumption. Qed.

Lemma keeps_files_trans a b c : keeps_files a b -> keeps_files b c -> keeps_files a c.
Proof. intros Hab Hbc q data Hx. auto. Qed.

Lemma keeps_exists_at a b p : keeps a b -> exists_at a p = true -> exists_at b p = true.
Proof.
  unfold exists_at. intros Hk.
  destruct (FS.find (Path.segments p) a) eqn:Ha; [ | discriminate ].
  destruct (Hk _ _ Ha) as (x' & -> & _). reflexivity.
Qed.

End Disk.

(** ** Relations every step of a computation maintains *)

Section Preserves.

Variable R : world -> world -> Prop.
Hypothesis R_refl : forall w, R w w.
Hypothesis R_trans : forall a b c, R a b -> R b c -> R a c.

Lemma preserves_ret A (a : A) : preserves R (ret a).
Proof. intros w r w' [= _ <-]. apply R_refl. Qed.

Lemma preserves_throw A e : preserves R (@throw A e).
Proof. intros w r w' [= _ <-]. apply R_refl. Qed.

Lemma preserves_bind A B (m : M A) (k : A -> M B) :
  preserves R m -> (forall a, preserves R (k a)) -> preserves R (bind m k).
Proof.
  intros Hm Hk w r w'. unfold bind.
  destruct (m w) as [[a | e | e] w1] eqn:E; intros H.
  - eapply R_trans; [ eapply Hm, E | eapply Hk, H ].
  - injection H as _ <-. eapply Hm, E.
  - injection H as _ <-. eapply Hm, E.
Qed.

Lemma preserves_try_catch A (body : M A) handler :
  preserves R body -> (forall e, preserves R (handler e)) ->
  preserves R (try_catch body handler).
Proof.
  intros Hb Hh w r w'. unfold try_catch.
  destruct (body w) as [[a | e | e] w1] eqn:E; intros H.
  - injection H as _ <-. eapply Hb, E.
  - eapply R_trans; [ eapply Hb, E | eapply Hh, H ].
  - injection H as _ <-. eapply Hb, E.
Qed.

Lemma preserves_forEach A (body : A -> M unit) xs :
  (forall x, In x xs -> preserves R (body x)) -> preserves R (forEach body xs).
Proof.
  induction xs as [| x xs IH]; intros Hbody; cbn [forEach].
  - apply preserves_ret.
  - apply preserves_bind; [ apply Hbody; left; reflexivity | ].
    intros _. apply IH. intros y Hy. apply Hbody. right. assumption.
Qed.

Lemma preserves_if A (b : bool) (m1 m2 : M A) :
  preserves R m1 -> preserves R m2 -> preserves R (if b then m1 else m2).
Proof. destruct b; auto. Qed.

(** A loop that resolved ran the body on each element, to a resolved end. *)
Lemma forEach_resolved A (body : A -> M unit) xs :
  (forall x, preserves R (body x)) ->
  forall w w', forEach body xs w = (Resolved tt, w') ->
  forall x, In x xs ->
  exists wa wb, body x wa = (Resolved tt, wb) /\ R w wa /\ R wb w'.
Proof.
  intros Hbody. induction xs as [| y xs IH]; intros w w' Hrun x Hx.
  - destruct Hx.
  - cbn [forEach] in Hrun. unfold bind in Hrun.
    destruct (body y w) as [[[] | e | e] w1] eqn:E; try discriminate.
    destruct Hx as [-> | Hx].
    + exists w, w1. repeat split; auto.
      eapply (preserves_forEach _ body xs); eauto.
    + destruct (IH _ _ Hrun _ Hx) as (wa & wb & Hb & Ha & Hb').
      exists wa, wb. repeat split; auto.
      eapply R_trans; [ eapply Hbody, E | exact Ha ].
Qed.

End Preserves.

(** ** The materializers never remove anything *)

Section Materializer.

Context {sha : Sha256}.
Variable s3 : object_store.

Lemma grows_refl w : grows w w.
Proof. apply keeps_refl. Qed.

Lemma grows_trans a b c : grows a b -> grows b c -> grows a c.
Proof. apply keeps_trans. Qed.

Lemma quiet_refl w : quiet w w.
Proof.
  split; [ apply keeps_refl | split; [ apply keeps_files_refl | ] ].
  exists []. rewrite app_nil_r. split; reflexivity.
Qed.

Lemma quiet_trans a b c : quiet a b -> quiet b c -> quiet a c.
Proof.
  intros (K1 & F1 & e1 & L1 & Q1) (K2 & F2 & e2 & L2 & Q2).
  split; [ eapply keeps_trans; eassumption | ].
  split; [ eapply keeps_files_trans; eassumption | ].
  exists (e1 ++ e2). rewrite L2, L1, app_assoc. split; [ reflexivity | ].
  rewrite forallb_app, Q1, Q2. reflexivity.
Qed.

Ltac grows_step :=
  first [ apply (preserves_ret grows grows_refl)
        | apply (preserves_throw grows grows_refl)
        | apply (preserves_bind grows grows_trans)
        | apply (preserves_try_catch grows grows_trans)
        | apply (preserves_if grows) ].

Ltac quiet_step :=
  first [ apply (preserves_ret quiet quiet_refl)
        | apply (preserves_throw quiet quiet_refl)
        | apply (preserves_bind quiet quiet_trans)
        | apply (preserves_if quiet) ].

Lemma emit_grows e : preserves grows (emit e).
Proof. intros w r w' [= _ <-]. apply keeps_refl. Qed.

Lemma emit_quiet e : is_fetch_or_write e = false -> preserves quiet (emit e).
Proof.
  intros He w r w' [= _ <-]. cbn.
  split; [ apply keeps_refl | split; [ apply keeps_files_refl | ] ].
  exists [e]. cbn. rewrite He. split; reflexivity.
Qed.

Lemma existsSync_unchanged p w : existsSync p w = (Resolved (exists_at (fs w) p), w).
Proof. unfold existsSync, exists_at. destruct (FS.find _ _); reflexivity. Qed.

Lemma existsSync_preserves R p :
  (forall w, R w w) -> preserves R (existsSync p).
Proof. intros Hrefl w r w' [= _ <-]. apply Hrefl. Qed.

Lemma path_dirname_preserves R p :
  (forall w, R w w) -> preserves R (path_dirname p).
Proof. intros Hrefl w r w'. destruct p; intros [= _ <-]; apply Hrefl. Qed.

Lemma mkdir_recursive_quiet p : preserves quiet (mkdir_recursive p).
Proof.
  unfold mkdir_recursive. quiet_step.
  - apply emit_quiet. reflexivity.
  - intros _ w r w'.
    destruct (FS.mkdirp (Path.segments p) (fs w)) as [code | fs'] eqn:E;
      intros [= _ <-]; [ apply quiet_refl | ].
    split; [ eapply mkdirp_keeps, E | split; [ eapply mkdirp_keeps_files, E | ] ].
    exists []. cbn. rewrite app_nil_r. split; reflexivity.
Qed.

Lemma quiet_grows w w' : quiet w w' -> grows w w'.
Proof. intros (K & _). exact K. Qed.

Lemma mkdir_recursive_grows p : preserves grows (mkdir_recursive p).
Proof. intros w r w' H. eapply quiet_grows, mkdir_recursive_quiet, H. Qed.

Lemma s3_send_GetObject_grows bucketName key :
  preserves grows (s3_send_GetObject s3 bucketName key).
Proof.
  unfold s3_send_GetObject. grows_step; [ apply emit_grows | ].
  intros _. destruct (s3 bucketName key); grows_step.
Qed.

Lemma pipeToFile_grows bucketName key body localFilePath :
  preserves grows (pipeToFile bucketName key body localFilePath).
Proof.
  unfold pipeToFile. grows_step; [ apply emit_grows | ].
  intros _ w r w'.
  destruct (FS.write (Path.segments localFilePath) (concat (fst body)) (fs w))
    as [code | fs'] eqn:E; intros [= _ <-]; [ apply grows_refl | ].
  eapply write_keeps, E.
Qed.

Lemma getFileContentFromS3_grows filePath localFilePath bucketName :
  preserves grows (getFileContentFromS3 s3 filePath localFilePath bucketName).
Proof.
  unfold getFileContentFromS3. grows_step.
  - grows_step; [ apply s3_send_GetObject_grows | ].
    intros data. grows_step; [ apply pipeToFile_grows | ].
    intros _. grows_step.
  - intros e. grows_step; [ apply emit_grows | ].
    intros _. grows_step.
Qed.

(** The detector reads the disk but never changes it. *)
Lemma isFileModified_reads_only bucketName filePath localFilePath w r w' :
  isFileModified s3 bucketName filePath localFilePath w = (r, w') ->
  fs w' = fs w.
Proof.
  unfold isFileModified, calculateCloudFileHash, calculateLocalFileHash,
    hashBody, try_catch, bind, s3_send_GetObject, bind, existsSync, emit,
    console_error, emit, ret, throw.
  destruct (FS.find (Path.segments localFilePath) (fs w)) as [[data | es] |] eqn:Hf;
    destruct (s3 bucketName filePath) as [| chunks [|]]; cbn;
    rewrite ?Hf; intros [= _ <-]; reflexivity.
Qed.

Lemma isFileModified_grows bucketName filePath localFilePath :
  preserves grows (isFileModified s3 bucketName filePath localFilePath).
Proof.
  intros w r w' H. unfold grows.
  rewrite (isFileModified_reads_only _ _ _ _ _ _ H). apply keeps_refl.
Qed.

Lemma cloneCloudRepo_grows hierarchy : forall folderPath bucketName,
    preserves grows (cloneCloudRepo s3 hierarchy folderPath bucketName).
Proof.
  induction hierarchy as [n p t m | n p t m cs IH] using hnode_ind';
    intros folderPath bucketName; destruct t; cbn [cloneCloudRepo type name path children];
    grows_step; try (apply existsSync_preserves, grows_refl); intros present.
  1, 3: grows_step;
    [ grows_step; [ apply getFileContentFromS3_grows | ];
      intros lp; grows_step; [ apply path_dirname_preserves, grows_refl | ];
      intros d; apply mkdir_recursive_grows
    | grows_step ].
  - grows_step; [ grows_step; [ apply mkdir_recursive_grows | grows_step ] | ].
    intros _. grows_step.
  - grows_step; [ grows_step; [ apply mkdir_recursive_grows | grows_step ] | ].
    intros _. apply (preserves_forEach grows grows_refl grows_trans).
    intros c Hc. rewrite Forall_forall in IH. apply IH, Hc.
Qed.

Lemma pullCloudRepo_grows hierarchy : forall folderPath bucketName,
    preserves grows (pullCloudRepo s3 hierarchy folderPath bucketName).
Proof.
  induction hierarchy as [n p t m | n p t m cs IH] using hnode_ind';
    intros folderPath bucketName; destruct t; cbn [pullCloudRepo type name path children];
    grows_step; try (apply existsSync_preserves, grows_refl);
    try apply isFileModified_grows; intros present.
  1, 3: grows_step;
    [ grows_step; [ apply path_dirname_preserves, grows_refl | ];
      intros d; grows_step; [ apply mkdir_recursive_grows | ];
      intros _; grows_step; [ apply getFileContentFromS3_grows | ];
      intros _; grows_step
    | grows_step ].
  - grows_step; [ grows_step; [ apply mkdir_recursive_grows | grows_step ] | ].
    intros _. grows_step.
  - grows_step; [ grows_step; [ apply mkdir_recursive_grows | grows_step ] | ].
    intros _. apply (preserves_forEach grows grows_refl grows_trans).
    intros c Hc. rewrite Forall_forall in IH. apply IH, Hc.
Qed.

(** C8. Whatever the hierarchy, the disk and the answers of the store,
    every entry present before [pullCloudRepo] runs (regular file or
    directory, with or without a counterpart in the hierarchy) is present
    where the run stops, with its kind; in terms of path strings, what
    [existsSync] found before it finds after. *)
Theorem pullCloudRepo_never_deletes hierarchy folderPath bucketName w :
  keeps (fs w) (fs (snd (pullCloudRepo s3 hierarchy folderPath bucketName w)))
  /\ forall p,
      exists_at (fs w) p = true ->
      exists_at (fs (snd (pullCloudRepo s3 hierarchy folderPath bucketName w))) p
      = true.
Proof.
  assert (K : keeps (fs w)
                (fs (snd (pullCloudRepo s3 hierarchy folderPath bucketName w)))).
  { destruct (pullCloudRepo s3 hierarchy folderPath bucketName w) as [r w'] eqn:E.
    exact (pullCloudRepo_grows hierarchy folderPath bucketName w r w' E). }
  split; [ exact K | ].
  intros p. apply keeps_exists_at, K.
Qed.

Lemma exists_at_forall_keeps a b ps :
  keeps a b ->
  Forall (fun p => exists_at a p = true) ps ->
  Forall (fun p => exists_at b p = true) ps.
Proof.
  intros K. apply Forall_impl. intros p. apply keeps_exists_at, K.
Qed.

(** A loop of quiet bodies is quiet, the precondition of each body being
    carried along by the growth of the disk. *)
Lemma forEach_clone_quiet destinationPath bucketName cs :
  Forall (fun c => forall folderPath w,
              Forall (fun p => exists_at (fs w) p = true)
                     (file_destinations c folderPath) ->
              forall r w', cloneCloudRepo s3 c folderPath bucketName w = (r, w') ->
                           quiet w w') cs ->
  forall w,
    Forall (fun p => exists_at (fs w) p = true)
           (flat_map (fun c => file_destinations c destinationPath) cs) ->
    forall r w',
      forEach (fun c => cloneCloudRepo s3 c destinationPath bucketName) cs w = (r, w') ->
      quiet w w'.
Proof.
  induction 1 as [| c cs Hc _ IH]; intros w Hpre r w'; cbn [forEach flat_map].
  - intros [= _ <-]. apply quiet_refl.
  - apply Forall_app in Hpre. destruct Hpre as [Hhead Htail].
    unfold bind.
    destruct (cloneCloudRepo s3 c destinationPath bucketName w) as [[[] | e | e] w1] eqn:E;
      pose proof (Hc _ _ Hhead _ _ E) as Q1.
    + intros Hrest. eapply quiet_trans; [ exact Q1 | ].
      eapply IH; [ | exact Hrest ].
      eapply exists_at_forall_keeps; [ apply Q1 | exact Htail ].
    + intros [= _ <-]. exact Q1.
    + intros [= _ <-]. exact Q1.
Qed.

Lemma cloneCloudRepo_quiet bucketName hierarchy : forall folderPath w,
    Forall (fun p => exists_at (fs w) p = true)
           (file_destinations hierarchy folderPath) ->
    forall r w', cloneCloudRepo s3 hierarchy folderPath bucketName w = (r, w') ->
                 quiet w w'.
Proof.
  induction hierarchy as [n p t m | n p t m cs IH] using hnode_ind';
    intros folderPath w Hpre r w';
    destruct t; cbn [cloneCloudRepo file_destinations type name path children] in *.
  - unfold bind at 1. rewrite existsSync_unchanged.
    apply Forall_inv in Hpre. rewrite Hpre. intros [= _ <-]. apply quiet_refl.
  - apply (preserves_bind quiet quiet_trans);
      [ apply existsSync_preserves, quiet_refl | ].
    intros present. quiet_step; [ | intros _; quiet_step ].
    quiet_step; [ apply mkdir_recursive_quiet | quiet_step ].
  - unfold bind at 1. rewrite existsSync_unchanged.
    apply Forall_inv in Hpre. rewrite Hpre. intros [= _ <-]. apply quiet_refl.
  - unfold bind at 1. rewrite existsSync_unchanged. unfold bind at 1.
    destruct ((if negb (exists_at (fs w) (Path.join folderPath n))
               then mkdir_recursive (Path.join folderPath n) else ret tt) w)
      as [[[] | e | e] w1] eqn:E.
    all: assert (Q1 : quiet w w1)
      by (revert E; apply (preserves_if quiet);
          [ apply mkdir_recursive_quiet | apply (preserves_ret quiet quiet_refl) ]).
    + intros Hrun. eapply quiet_trans; [ exact Q1 | ].
      eapply forEach_clone_quiet; [ exact IH | | exact Hrun ].
      eapply exists_at_forall_keeps; [ apply Q1 | exact Hpre ].
    + intros [= _ <-]. exact Q1.
    + intros [= _ <-]. exact Q1.
Qed.

(** C4. When the destination of every file node of the hierarchy exists on
    the disk, [cloneCloudRepo] makes no [GetObject] request and opens no
    file for writing, and every regular file that was on the disk is there
    afterwards with the same bytes. *)
Theorem cloneCloudRepo_cloned_is_untouched hierarchy folderPath bucketName w :
  Forall (fun p => exists_at (fs w) p = true)
         (file_destinations hierarchy folderPath) ->
  (exists evs,
      log (snd (cloneCloudRepo s3 hierarchy folderPath bucketName w)) = log w ++ evs
      /\ forallb (fun e => negb (is_fetch_or_write e)) evs = true)
  /\ keeps_files (fs w) (fs (snd (cloneCloudRepo s3 hierarchy folderPath bucketName w))).
Proof.
  intros Hpre.
  destruct (cloneCloudRepo s3 hierarchy folderPath bucketName w) as [r w'] eqn:E.
  destruct (cloneCloudRepo_quiet _ _ _ _ Hpre _ _ E) as (_ & F & L).
  split; assumption.
Qed.

End Materializer.

(** ** What a resolved clone leaves behind *)

Lemma bind_resolved A B (m : M A) (k : A -> M B) w b w' :
  bind m k w = (Resolved b, w') ->
  exists a w1, m w = (Resolved a, w1) /\ k a w1 = (Resolved b, w').
Proof.
  unfold bind. destruct (m w) as [[a | e | e] w1]; try discriminate. eauto.
Qed.

Lemma write_find segs data : forall n n',
    FS.write segs data n = inr n' -> FS.find segs n' = Some (FFile data).
Proof.
  induction segs as [| s rest IH]; intros [old | es] n' H; cbn in H;
    try discriminate.
  destruct rest as [| s2 rest].
  - destruct (FS.assoc s es) as [[old | sub] |] eqn:Hs; try discriminate;
      injection H as <-; cbn.
    + rewrite (assoc_update_same _ _ (FFile data) _ Hs). reflexivity.
    + rewrite (assoc_app_fresh _ (FFile data) _ Hs). reflexivity.
  - destruct (FS.assoc s es) as [c |] eqn:Hs; [ | discriminate ].
    destruct (FS.write (s2 :: rest) data c) as [e | c'] eqn:Hc; [ discriminate | ].
    injection H as <-. cbn [FS.find].
    rewrite (assoc_update_same _ _ c' _ Hs). apply (IH _ _ Hc).
Qed.

Lemma mkdirp_find segs : forall n n',
    FS.mkdirp segs n = inr n' -> exists es, FS.find segs n' = Some (FDir es).
Proof.
  induction segs as [| s rest IH]; intros [old | es] n' H; cbn in H;
    try discriminate.
  - injection H as <-. cbn. eauto.
  - destruct (FS.assoc s es) as [c |] eqn:Hs.
    + destruct (FS.mkdirp rest c) as [e | c'] eqn:Hc; [ discriminate | ].
      injection H as <-. cbn [FS.find].
      rewrite (assoc_update_same _ _ c' _ Hs). apply (IH _ _ Hc).
    + destruct (FS.mkdirp rest (FDir [])) as [e | c'] eqn:Hc; [ discriminate | ].
      injection H as <-. cbn [FS.find].
      rewrite (assoc_app_fresh _ c' _ Hs). apply (IH _ _ Hc).
Qed.

Section Completeness.

Variable s3 : object_store.

Lemma mkdir_recursive_made p w w' :
  mkdir_recursive p w = (Resolved tt, w') -> exists_at (fs w') p = true.
Proof.
  unfold mkdir_recursive, bind, emit. cbn.
  destruct (FS.mkdirp (Path.segments p) (fs w)) as [code | fs'] eqn:E;
    intros [= <-].
  unfold exists_at. cbn. destruct (mkdirp_find _ _ _ E) as (es & ->). reflexivity.
Qed.

Lemma getFileContentFromS3_written filePath localFilePath bucketName w lp w' :
  getFileContentFromS3 s3 filePath localFilePath bucketName w = (Resolved (Some lp), w') ->
  lp = localFilePath /\ exists_at (fs w') localFilePath = true.
Proof.
  unfold getFileContentFromS3, try_catch, bind, s3_send_GetObject, bind,
    pipeToFile, bind, emit, console_error, emit, ret, throw.
  destruct (s3 bucketName filePath) as [| chunks ends]; cbn; [ discriminate | ].
  destruct (FS.write (Path.segments localFilePath) (concat chunks) (fs w))
    as [code | fs'] eqn:E; [ discriminate | ].
  destruct ends; cbn; [ | discriminate ].
  intros [= <- <-]. split; [ reflexivity | ].
  unfold exists_at. cbn. rewrite (write_find _ _ _ _ E). reflexivity.
Qed.

Lemma cloneCloudRepo_file_made hierarchy folderPath bucketName w w' :
  type hierarchy = TFile ->
  cloneCloudRepo s3 hierarchy folderPath bucketName w = (Resolved tt, w') ->
  exists_at (fs w') (Path.join folderPath (name hierarchy)) = true.
Proof.
  destruct hierarchy as [nm p t m cs]. cbn [type name]. intros -> Hrun.
  cbn [cloneCloudRepo type name path children] in Hrun.
  apply bind_resolved in Hrun. destruct Hrun as (present & w0 & Hex & Hrun).
  rewrite existsSync_unchanged in Hex. injection Hex as <- <-.
  destruct (exists_at (fs w) (Path.join folderPath nm)) eqn:Hpresent;
    cbn [negb] in Hrun.
  - injection Hrun as <-. exact Hpresent.
  - apply bind_resolved in Hrun. destruct Hrun as (lp & w1 & Hget & Hrun).
    destruct lp as [lp |]; [ | discriminate ].
    apply getFileContentFromS3_written in Hget. destruct Hget as [-> Hget].
    apply bind_resolved in Hrun. destruct Hrun as (d & w2 & Hd & Hrun).
    injection Hd as <- <-.
    eapply keeps_exists_at; [ eapply mkdir_recursive_grows, Hrun | exact Hget ].
Qed.

Lemma cloneCloudRepo_folder_run hierarchy folderPath bucketName w w' :
  type hierarchy = TFolder ->
  cloneCloudRepo s3 hierarchy folderPath bucketName w = (Resolved tt, w') ->
  exists cs w1,
    children hierarchy = Some cs
    /\ exists_at (fs w1) (Path.join folderPath (name hierarchy)) = true
    /\ forEach (fun child =>
                  cloneCloudRepo s3 child (Path.join folderPath (name hierarchy))
                                 bucketName) cs w1
       = (Resolved tt, w').
Proof.
  destruct hierarchy as [nm p t m cs]. cbn [type name children]. intros -> Hrun.
  cbn [cloneCloudRepo type name path children] in Hrun.
  apply bind_resolved in Hrun. destruct Hrun as (present & w0 & Hex & Hrun).
  rewrite existsSync_unchanged in Hex. injection Hex as <- <-.
  apply bind_resolved in Hrun. destruct Hrun as ([] & w1 & Hmk & Hrun).
  destruct cs as [cs |]; [ | discriminate ].
  exists cs, w1. split; [ reflexivity | ]. split; [ | exact Hrun ].
  destruct (exists_at (fs w) (Path.join folderPath nm)) eqn:Hpresent;
    cbn [negb] in Hmk.
  - injection Hmk as <-. exact Hpresent.
  - eapply mkdir_recursive_made, Hmk.
Qed.

(** After a clone that resolved, every node of the hierarchy has an entry at
    its destination. *)
Lemma cloneCloudRepo_reaches bucketName hierarchy : forall folderPath w w',
    cloneCloudRepo s3 hierarchy folderPath bucketName w = (Resolved tt, w') ->
    forall names n,
      leads_to names hierarchy n ->
      exists_at (fs w') (fold_left Path.join names (Path.join folderPath (name hierarchy)))
      = true.
Proof.
  induction hierarchy as [nm p t m | nm p t m cs IH] using hnode_ind';
    intros folderPath w w' Hrun names n Hlead.
  - inversion Hlead as [ h0 | s rest h0 cs0 c n0 Htype Hch Hin Hname Hrest ];
      subst; [ | discriminate ].
    cbn [fold_left name]. destruct t.
    + eapply cloneCloudRepo_file_made with (2 := Hrun); reflexivity.
    + destruct (fun E => cloneCloudRepo_folder_run _ _ _ _ _ E Hrun)
        as (cs' & w1 & Hcs & _); [ reflexivity | discriminate ].
  - inversion Hlead as [ h0 | s rest h0 cs0 c n0 Htype Hch Hin Hname Hrest ];
      subst; cbn [fold_left name type children] in *.
    + destruct t.
      * eapply cloneCloudRepo_file_made with (2 := Hrun); reflexivity.
      * destruct (fun E => cloneCloudRepo_folder_run _ _ _ _ _ E Hrun)
          as (cs' & w1 & _ & Hmade & Hloop); [ reflexivity | ].
        eapply keeps_exists_at; [ | exact Hmade ].
        eapply (preserves_forEach grows grows_refl grows_trans);
          [ | exact Hloop ].
        intros c _. apply cloneCloudRepo_grows.
    + subst t. injection Hch as <-.
      destruct (fun E => cloneCloudRepo_folder_run _ _ _ _ _ E Hrun)
        as (cs' & w1 & Hcs & _ & Hloop); [ reflexivity | ].
      cbn [children name] in *. injection Hcs as <-.
      destruct (forEach_resolved grows grows_refl grows_trans _ _ cs
                  (fun c => cloneCloudRepo_grows s3 c _ _) _ _ Hloop c Hin)
        as (wa & wb & Hc & _ & Hafter).
      rewrite Forall_forall in IH.
      eapply keeps_exists_at; [ exact Hafter | ].
      eapply IH; eauto.
Qed.
End Completeness.

(** ** The hierarchy built from a listing *)

Section BucketTree.

Import Bucket.

Lemma find_child_some f cs c :
  find_child f cs = Some c -> In c cs /\ name c = f.
Proof.
  unfold find_child. intros H. apply find_some in H. destruct H as [Hin Hn].
  split; [ assumption | apply String.eqb_eq, Hn ].
Qed.

Lemma find_child_none f cs :
  find_child f cs = None -> ~ In f (map name cs).
Proof.
  unfold find_child. intros H Hin. apply in_map_iff in Hin.
  destruct Hin as (c & Hn & Hc).
  pose proof (find_none _ _ H c Hc) as Hneq. cbn in Hneq.
  rewrite Hn, String.eqb_refl in Hneq. discriminate.
Qed.

Lemma replace_child_in f c' cs x :
  In x (replace_child f c' cs) -> x = c' \/ In x cs.
Proof.
  induction cs as [| y cs IH]; cbn; [ tauto | ].
  destruct (String.eqb (name y) f); cbn; intuition.
Qed.

Lemma replace_child_new f c c' cs :
  find_child f cs = Some c -> In c' (replace_child f c' cs).
Proof.
  unfold find_child. induction cs as [| y cs IH]; cbn; [ discriminate | ].
  destruct (String.eqb (name y) f); cbn; auto.
Qed.

Lemma replace_child_old f c c' cs x :
  In x cs -> find_child f cs = Some c -> x = c \/ In x (replace_child f c' cs).
Proof.
  unfold find_child. induction cs as [| y cs IH]; cbn; [ tauto | ].
  destruct (String.eqb (name y) f); cbn.
  - intros [-> | Hx] [= <-]; auto.
  - intros [-> | Hx] Hf; auto. destruct (IH Hx Hf); auto.
Qed.

Lemma replace_child_names f c c' cs :
  find_child f cs = Some c -> name c' = f ->
  map name (replace_child f c' cs) = map name cs.
Proof.
  unfold find_child. induction cs as [| y cs IH]; cbn; [ discriminate | ].
  destruct (String.eqb (name y) f) eqn:E; cbn.
  - intros _ ->. apply String.eqb_eq in E. rewrite E. reflexivity.
  - intros Hf Hn. rewrite (IH Hf Hn). reflexivity.
Qed.

(** One unfolding of [walk]. *)
Lemma walk_unfold parts key i folders fileName cur :
  walk parts key i folders fileName cur =
  match children cur with
  | None => Rejected undefined_children
  | Some cs =>
      match folders with
      | [] => Resolved (set_children cur (cs ++ [mkFile fileName key]))
      | folderName :: rest =>
          match find_child folderName cs with
          | Some childFolder =>
              match walk parts key (S i) rest fileName childFolder with
              | Resolved c' =>
                  Resolved (set_children cur (replace_child folderName c' cs))
              | Rejected e => Rejected e
              | Uncaught e => Uncaught e
              end
          | None =>
              match walk parts key (S i) rest fileName
                         (mkFolder folderName (JS.join (JS.slice0 (i + 1) parts))) with
              | Resolved c' => Resolved (set_children cur (cs ++ [c']))
              | Rejected e => Rejected e
              | Uncaught e => Uncaught e
              end
          end
      end
  end.
Proof. destruct folders; reflexivity. Qed.

(** [walk] returns the node it was given, with other children. *)
Lemma walk_same_node parts key i folders fileName cur cur' :
  walk parts key i folders fileName cur = Resolved cur' ->
  exists cs cs', children cur = Some cs /\ cur' = set_children cur cs'.
Proof.
  rewrite walk_unfold. destruct (children cur) as [cs |]; [ | discriminate ].
  destruct folders as [| f rest].
  - intros [= <-]. eauto.
  - destruct (find_child f cs);
      destruct (walk parts key (S i) rest fileName _); try discriminate;
      intros [= <-]; eauto.
Qed.

Lemma walk_name parts key i folders fileName cur cur' :
  walk parts key i folders fileName cur = Resolved cur' ->
  name cur' = name cur /\ path cur' = path cur /\ type cur' = type cur.
Proof.
  intros H. apply walk_same_node in H. destruct H as (cs & cs' & _ & ->).
  repeat split.
Qed.

Lemma well_typed_folder h cs :
  well_typed h -> children h = Some cs ->
  type h = TFolder /\ forall c, In c cs -> well_typed c.
Proof.
  intros W. inversion W; subst; cbn; [ discriminate | ].
  intros [= <-]. auto.
Qed.

Lemma well_typed_set_children h cs :
  type h = TFolder -> (forall c, In c cs -> well_typed c) ->
  well_typed (set_children h cs).
Proof.
  destruct h as [n p t m ch]. cbn. intros -> H. apply wt_folder, H.
Qed.

Lemma walk_well_typed parts key fileName folders : forall i cur cur',
    well_typed cur ->
    walk parts key i folders fileName cur = Resolved cur' ->
    well_typed cur'.
Proof.
  induction folders as [| f rest IH]; intros i cur cur' W;
    rewrite walk_unfold; destruct (children cur) as [cs |] eqn:Hcs;
    try discriminate;
    destruct (well_typed_folder _ _ W Hcs) as [Ht Hall].
  - intros [= <-]. apply well_typed_set_children; [ exact Ht | ].
    intros c Hc. apply in_app_or in Hc. destruct Hc as [Hc | [<- | []]]; auto.
    constructor.
  - destruct (find_child f cs) as [c |] eqn:Hf.
    + destruct (walk parts key (S i) rest fileName c) as [c' | |] eqn:Hw;
        try discriminate.
      intros [= <-]. apply well_typed_set_children; [ exact Ht | ].
      intros x Hx. apply replace_child_in in Hx. destruct Hx as [-> | Hx]; auto.
      eapply IH; [ | exact Hw ]. apply Hall. apply (find_child_some _ _ _ Hf).
    + destruct (walk parts key (S i) rest fileName _) as [c' | |] eqn:Hw;
        try discriminate.
      intros [= <-]. apply well_typed_set_children; [ exact Ht | ].
      intros x Hx. apply in_app_or in Hx. destruct Hx as [Hx | [<- | []]]; auto.
      eapply IH; [ | exact Hw ]. constructor. intros ? [].
Qed.

(** The file node of the key is where its segments lead. *)
Lemma walk_leads_new parts key fileName folders : forall i cur cur',
    well_typed cur ->
    walk parts key i folders fileName cur = Resolved cur' ->
    leads_to (folders ++ [fileName]) cur' (mkFile fileName key).
Proof.
  induction folders as [| f rest IH]; intros i cur cur' W;
    rewrite walk_unfold; destruct (children cur) as [cs |] eqn:Hcs;
    try discriminate;
    destruct (well_typed_folder _ _ W Hcs) as [Ht Hall].
  - intros [= <-]. cbn [app].
    eapply leads_down with (c := mkFile fileName key);
      [ exact Ht | reflexivity | | reflexivity | constructor ].
    apply in_or_app. right. left. reflexivity.
  - destruct (find_child f cs) as [c |] eqn:Hf.
    + destruct (walk parts key (S i) rest fileName c) as [c' | |] eqn:Hw;
        try discriminate.
      intros [= <-]. cbn [app].
      destruct (find_child_some _ _ _ Hf) as [Hin Hn].
      eapply leads_down with (c := c'); [ exact Ht | reflexivity | | | ].
      * eapply replace_child_new, Hf.
      * destruct (walk_name _ _ _ _ _ _ _ Hw) as (-> & _). exact Hn.
      * eapply IH; [ | exact Hw ]. auto.
    + destruct (walk parts key (S i) rest fileName _) as [c' | |] eqn:Hw;
        try discriminate.
      intros [= <-]. cbn [app].
      eapply leads_down with (c := c'); [ exact Ht | reflexivity | | | ].
      * apply in_or_app. right. left. reflexivity.
      * destruct (walk_name _ _ _ _ _ _ _ Hw) as (-> & _). reflexivity.
      * eapply IH; [ | exact Hw ]. constructor. intros ? [].
Qed.

(** A node without children stays where it was. *)
Lemma walk_leads_old parts key fileName leaf folders : forall i cur cur' names,
    children leaf = None ->
    leads_to names cur leaf ->
    walk parts key i folders fileName cur = Resolved cur' ->
    leads_to names cur' leaf.
Proof.
  induction folders as [| f rest IH]; intros i cur cur' names Hleaf Hlead;
    rewrite walk_unfold; destruct (children cur) as [cs |] eqn:Hcs;
    try discriminate.
  all: inversion Hlead as [ h0 | s rest0 h0 cs0 c0 n0 Ht Hch Hin Hname Hrest ];
    subst; [ congruence | ].
  all: assert (cs0 = cs) by congruence; subst cs0.
  - intros [= <-].
    apply leads_down with (cs := cs ++ [mkFile fileName key]) (c := c0);
      [ exact Ht | reflexivity | apply in_or_app; left; exact Hin
      | reflexivity | exact Hrest ].
  - destruct (find_child f cs) as [c |] eqn:Hf.
    + destruct (walk parts key (S i) rest fileName c) as [c' | |] eqn:Hw;
        try discriminate.
      intros [= <-].
      destruct (replace_child_old f c c' cs c0 Hin Hf) as [-> | Hkept].
      * eapply leads_down with (c := c'); [ exact Ht | reflexivity | | | ].
        -- eapply replace_child_new, Hf.
        -- destruct (walk_name _ _ _ _ _ _ _ Hw) as (-> & _). reflexivity.
        -- eapply IH; eauto.
      * apply leads_down with (cs := replace_child f c' cs) (c := c0);
          [ exact Ht | reflexivity | exact Hkept | reflexivity | exact Hrest ].
    + destruct (walk parts key (S i) rest fileName _) as [c' | |] eqn:Hw;
        try discriminate.
      intros [= <-].
      apply leads_down with (cs := cs ++ [c']) (c := c0);
        [ exact Ht | reflexivity | apply in_or_app; left; exact Hin
        | reflexivity | exact Hrest ].
Qed.

Lemma split_nonempty s : JS.split s <> [].
Proof.
  destruct s as [| c s]; cbn; [ discriminate | ].
  destruct (Ascii.eqb c JS.slash); [ discriminate | ].
  destruct (JS.split s); discriminate.
Qed.

Lemma split_app s t :
  JS.split (s ++ String JS.slash t)%string = JS.split s ++ JS.split t.
Proof.
  induction s as [| c s IH]; cbn.
  - reflexivity.
  - rewrite IH. destruct (Ascii.eqb c JS.slash); [ reflexivity | ].
    pose proof (split_nonempty s) as Hne.
    destruct (JS.split s); [ contradiction | reflexivity ].
Qed.


Lemma split_parts key :
  JS.split key = removelast (JS.split key) ++ [last (JS.split key) ""].
Proof. apply app_removelast_last, split_nonempty. Qed.

Lemma join_cons x y ys :
  JS.join (x :: y :: ys) = (x ++ String JS.slash (JS.join (y :: ys)))%string.
Proof. reflexivity. Qed.

Lemma insertKey_well_typed key h h' :
  well_typed h -> insertKey key h = Resolved h' -> well_typed h'.
Proof. apply walk_well_typed. Qed.

Lemma insertKey_leads_new key h h' :
  well_typed h -> insertKey key h = Resolved h' ->
  leads_to (JS.split key) h' (mkFile (last (JS.split key) "") key).
Proof.
  intros W H. rewrite split_parts at 1. eapply walk_leads_new; eassumption.
Qed.

Lemma insertKey_leads_old key h h' names leaf :
  children leaf = None -> leads_to names h leaf ->
  insertKey key h = Resolved h' -> leads_to names h' leaf.
Proof. apply walk_leads_old. Qed.

Lemma insertAll_node contents : forall h h',
    insertAll contents h = Resolved h' ->
    name h' = name h /\ path h' = path h /\ type h' = type h.
Proof.
  induction contents as [| key rest IH]; intros h h'; cbn.
  - intros [= <-]. auto.
  - destruct (insertKey key h) as [h1 | |] eqn:E; try discriminate.
    intros H. destruct (IH _ _ H) as (-> & -> & ->). eapply walk_name, E.
Qed.

Lemma insertAll_well_typed contents : forall h h',
    well_typed h -> insertAll contents h = Resolved h' -> well_typed h'.
Proof.
  induction contents as [| key rest IH]; intros h h' W; cbn.
  - intros [= <-]. exact W.
  - destruct (insertKey key h) as [h1 | |] eqn:E; try discriminate.
    apply IH. eapply insertKey_well_typed; eassumption.
Qed.

Lemma insertAll_leads_old contents : forall h h' names leaf,
    children leaf = None -> leads_to names h leaf ->
    insertAll contents h = Resolved h' -> leads_to names h' leaf.
Proof.
  induction contents as [| key rest IH]; intros h h' names leaf Hleaf Hlead; cbn.
  - intros [= <-]. exact Hlead.
  - destruct (insertKey key h) as [h1 | |] eqn:E; try discriminate.
    apply IH; [ exact Hleaf | ]. eapply insertKey_leads_old; eassumption.
Qed.

(** In the hierarchy of a listing, the segments of every key lead to its
    file node. *)
Lemma insertAll_leads contents : forall h h',
    well_typed h -> insertAll contents h = Resolved h' ->
    forall key, In key contents ->
                leads_to (JS.split key) h' (mkFile (last (JS.split key) "") key).
Proof.
  induction contents as [| k rest IH]; intros h h' W; cbn.
  - intros _ key [].
  - destruct (insertKey k h) as [h1 | |] eqn:E; try discriminate.
    intros H key [<- | Hin].
    + eapply insertAll_leads_old; [ reflexivity | | exact H ].
      eapply insertKey_leads_new; eassumption.
    + eapply IH; [ | exact H | exact Hin ].
      eapply insertKey_well_typed; eassumption.
Qed.

Lemma root_well_typed friendlyName : well_typed (root friendlyName).
Proof. constructor. intros ? []. Qed.

Lemma leads_to_prefix pre : forall rest h n,
    leads_to (pre ++ rest) h n -> exists mid, leads_to pre h mid.
Proof.
  induction pre as [| s pre IH]; intros rest h n H; cbn in *.
  - exists h. constructor.
  - inversion H as [ | s0 rest0 h0 cs c n0 Ht Hch Hin Hname Hrest ]; subst.
    destruct (IH _ _ _ Hrest) as (mid & Hmid).
    exists mid. econstructor; eauto.
Qed.



(** The root of the hierarchy of a listing. *)
Lemma getBucketHierarchy_root friendlyName contents hierarchy :
  getBucketHierarchy friendlyName (Some contents) = Resolved hierarchy ->
  name hierarchy = friendlyName /\ path hierarchy = "" /\ type hierarchy = TFolder.
Proof. intros H. apply insertAll_node in H. exact H. Qed.

End BucketTree.

(** ** Completeness of a clone *)

Section CloneOfListing.

Variable s3 : object_store.

(** Where a clone resolved there is an entry at the destination of every key
    and of every prefix of its segments. *)
Lemma cloneCloudRepo_reaches_keys friendlyName contents hierarchy
    folderPath bucketName w w' :
  Bucket.getBucketHierarchy friendlyName (Some contents) = Resolved hierarchy ->
  cloneCloudRepo s3 hierarchy folderPath bucketName w = (Resolved tt, w') ->
  forall key,
    In key contents ->
    exists_at (fs w') (destination folderPath friendlyName (JS.split key)) = true
    /\ forall pre,
        proper_prefix pre (JS.split key) ->
        exists_at (fs w') (destination folderPath friendlyName pre) = true.
Proof.
  intros Hbuild Hrun key Hin.
  destruct (getBucketHierarchy_root _ _ _ Hbuild) as (Hname & _ & _).
  pose proof (insertAll_leads _ _ _ (root_well_typed friendlyName) Hbuild key Hin)
    as Hlead.
  unfold destination. rewrite <- Hname. split.
  - eapply cloneCloudRepo_reaches; eassumption.
  - intros pre (rest & _ & Hsplit). rewrite Hsplit in Hlead.
    destruct (leads_to_prefix _ _ _ _ Hlead) as (mid & Hmid).
    eapply cloneCloudRepo_reaches; eassumption.
Qed.

End CloneOfListing.

(** ** A failed retrieval *)

Section FetchFailure.

Context {sha : Sha256}.
Variable s3 : object_store.

Lemma getFileContentFromS3_refused filePath localFilePath bucketName w :
  s3 bucketName filePath = S3Fails ->
  getFileContentFromS3 s3 filePath localFilePath bucketName w =
    (Resolved None,
     World (fs w)
           (log w ++ [EvGetObject bucketName filePath]
                  ++ [EvConsoleError "Error getting file content from S3:"])).
Proof.
  intros Hfail.
  unfold getFileContentFromS3, try_catch, bind, s3_send_GetObject, bind,
    console_error, emit.
  rewrite Hfail. cbn. rewrite <- app_assoc. reflexivity.
Qed.

Lemma isFileModified_missing_or_refused bucketName filePath localFilePath w :
  s3 bucketName filePath = S3Fails ->
  (FS.find (Path.segments localFilePath) (fs w) = None
   \/ exists data, FS.find (Path.segments localFilePath) (fs w) = Some (FFile data)) ->
  exists evs,
    isFileModified s3 bucketName filePath localFilePath w
    = (Resolved true, World (fs w) (log w ++ evs))
    /\ existsb (fun e => match e with EvWriteStream _ => true | _ => false end) evs
       = false.
Proof.
  intros Hfail [Hnone | (data & Hfile)].
  - exists []. rewrite app_nil_r. split; [ | reflexivity ].
    rewrite (isFileModified_absent s3 _ _ _ _ Hnone). destruct w; reflexivity.
  - unfold isFileModified, bind at 1, existsSync. rewrite Hfile. cbn [negb].
    unfold bind at 1. rewrite (calculateCloudFileHash_refused _ _ _ w Hfail).
    unfold bind at 1. erewrite calculateLocalFileHash_file by (cbn [fs]; eassumption).
    unfold ret. cbn [fs log strict_neq]. eexists. rewrite <- !app_assoc.
    split; reflexivity.
Qed.

Lemma getFileContentFromS3_never_rejects filePath localFilePath bucketName w e :
  fst (getFileContentFromS3 s3 filePath localFilePath bucketName w) <> Rejected e.
Proof.
  unfold getFileContentFromS3, try_catch, bind, s3_send_GetObject, bind,
    pipeToFile, bind, emit, console_error, emit, ret, throw.
  destruct (s3 bucketName filePath) as [| chunks ends]; cbn; [ discriminate | ].
  destruct (FS.write (Path.segments localFilePath) (concat chunks) (fs w));
    [ discriminate | ].
  destruct ends; discriminate.
Qed.

(** C5, as the code has it.  Whatever the store answers,
    [getFileContentFromS3] never rejects.  When [GetObject] is refused for
    the path of a node, it logs the error and resolves to [null];
    [pullCloudRepo] drops that result, so the pull of such a file node
    (nothing or a regular file at its destination, the parent directory
    creatable) resolves, the disk being the one [mkdir] left and no file
    having been opened for writing. *)
Theorem fetch_failure_is_swallowed hierarchy folderPath bucketName w :
  (forall localFilePath e,
      fst (getFileContentFromS3 s3 (path hierarchy) localFilePath bucketName w)
      <> Rejected e)
  /\ (s3 bucketName (path hierarchy) = S3Fails ->
      (forall localFilePath,
          getFileContentFromS3 s3 (path hierarchy) localFilePath bucketName w =
            (Resolved None,
             World (fs w)
                   (log w ++ [EvGetObject bucketName (path hierarchy)]
                          ++ [EvConsoleError "Error getting file content from S3:"])))
      /\ (type hierarchy = TFile ->
          forall disk',
            (FS.find (Path.segments (Path.join folderPath (name hierarchy))) (fs w)
             = None
             \/ exists data,
                FS.find (Path.segments (Path.join folderPath (name hierarchy))) (fs w)
                = Some (FFile data)) ->
            FS.mkdirp
              (Path.segments (Path.dirname (Path.join folderPath (name hierarchy))))
              (fs w) = inr disk' ->
            exists evs,
              pullCloudRepo s3 hierarchy folderPath bucketName w
              = (Resolved tt, World disk' (log w ++ evs))
              /\ existsb
                   (fun e => match e with EvWriteStream _ => true | _ => false end)
                   evs = false)).
Proof.
  split; [ intros; apply getFileContentFromS3_never_rejects | ].
  intros Hfail. split.
  { intros localFilePath. apply getFileContentFromS3_refused, Hfail. }
  destruct hierarchy as [nm p t m cs]. cbn [type name path] in *.
  intros -> disk' Hdest Hmk. cbn [pullCloudRepo type name path].
  destruct (isFileModified_missing_or_refused bucketName p _ w Hfail Hdest)
    as (evs & Hmod & Hquiet).
  unfold bind at 1. rewrite Hmod.
  unfold path_dirname, bind at 1, ret at 1.
  unfold mkdir_recursive, bind at 1, bind at 1, emit. cbn [fs log]. rewrite Hmk.
  unfold bind at 1. rewrite getFileContentFromS3_refused by exact Hfail.
  unfold ret. cbn [fs log]. eexists. rewrite <- !app_assoc. split; [ reflexivity | ].
  rewrite existsb_app, Hquiet. reflexivity.
Qed.

End FetchFailure.

(** ** The roots of the two builders *)

Lemma getFolderHierarchy_root fuel disk folderPath hierarchy :
  Folder.getFolderHierarchy fuel disk folderPath = Some (Resolved hierarchy) ->
  path hierarchy = folderPath /\ name hierarchy = Path.basename folderPath.
Proof.
  destruct fuel as [| fuel]; cbn; [ discriminate | ].
  destruct (FS.find (Path.segments folderPath) disk) as [[data | es] |];
    [ | | discriminate ].
  - intros [= <-]. split; reflexivity.
  - destruct (Folder.sequence _) as [[hs | e | e] |]; try discriminate.
    intros [= <-]. split; reflexivity.
Qed.

(** C7, as the code has it.  A build call that resolves returns one node,
    the root: in remote mode its [path] is the empty string (and its name
    the friendly name of the bucket); in local mode its [path] is the
    directory path the call was given. *)
Theorem hierarchy_root :
  (forall friendlyName contents hierarchy,
      Bucket.getBucketHierarchy friendlyName (Some contents) = Resolved hierarchy ->
      path hierarchy = "" /\ name hierarchy = friendlyName
      /\ type hierarchy = TFolder)
  /\ (forall fuel disk folderPath hierarchy,
         Folder.getFolderHierarchy fuel disk folderPath = Some (Resolved hierarchy) ->
         path hierarchy = folderPath).
Proof.
  split.
  - intros friendlyName contents hierarchy H.
    destruct (getBucketHierarchy_root _ _ _ H) as (Hn & Hp & Ht). auto.
  - intros fuel disk folderPath hierarchy H.
    apply (getFolderHierarchy_root _ _ _ _ H).
Qed.

(** ** The two builders on the same tree *)

(** C3. The directory holding exactly [a.txt] and [b/c.txt] (whatever the
    bytes and the enumeration order) and the listing of the keys [a.txt] and
    [b/c.txt] (in either order) both yield a hierarchy: a root folder with
    the file [a.txt] and the folder [b], the latter with the file [c.txt].
    The two trees have the same names, kinds and nesting, the name of the
    root apart. *)
Theorem hierarchy_round_trip (da dc : bytes) (friendlyName : string)
    (local_b_first remote_b_first : bool) (more_fuel : nat) :
  exists local remote,
    Folder.getFolderHierarchy (3 + more_fuel)
      (Sample.ab_disk da dc local_b_first) "/home/user/repo"
    = Some (Resolved local)
    /\ Bucket.getBucketHierarchy friendlyName (Some (Sample.ab_listing remote_b_first))
       = Resolved remote
    /\ map name (match children local with Some cs => cs | None => [] end)
       = (if local_b_first then ["b"; "a.txt"] else ["a.txt"; "b"])
    /\ same_shape_modulo_root local remote = true.
Proof.
  destruct local_b_first, remote_b_first;
    do 2 eexists;
    (split; [ vm_compute; reflexivity | ]);
    (split; [ vm_compute; reflexivity | ]);
    split; vm_compute; reflexivity.
Qed.

(** The comparison tells trees apart: without [b/c.txt] the shapes differ. *)
Example same_shape_discriminates :
  same_shape_modulo_root Sample.ab_local_tree Sample.repo_tree = false
  /\ same_shape_modulo_root Sample.ab_local_tree Sample.ab_remote_tree = true.
Proof. split; reflexivity. Qed.

(** ** Unique child names, remote mode *)

Section UniqueRemote.

Import Bucket.

Lemma prefixb_app a b : prefixb a (a ++ b) = true.
Proof.
  induction a as [| x a IH]; cbn; [ reflexivity | ].
  rewrite String.eqb_refl. exact IH.
Qed.

Lemma covered_more seen extra at_ h :
  covered seen at_ h -> covered (extra :: seen) at_ h.
Proof.
  induction 1 as [ | at_ n p t m cs Hnd Hprov _ IH ]; constructor; auto.
  intros c Hc. destruct (Hprov c Hc) as (parts & Hin & Hpre).
  exists parts. split; [ right; exact Hin | exact Hpre ].
Qed.

Lemma covered_unique seen at_ h : covered seen at_ h -> unique_names h.
Proof. induction 1; constructor; auto. Qed.

Lemma covered_children seen at_ h cs :
  covered seen at_ h -> children h = Some cs ->
  NoDup (map name cs)
  /\ (forall c, In c cs ->
                exists parts, In parts seen /\ prefixb (at_ ++ [name c]) parts = true)
  /\ (forall c, In c cs -> covered seen (at_ ++ [name c]) c).
Proof.
  intros C. inversion C; subst; cbn; [ discriminate | ].
  intros [= <-]. auto.
Qed.

Lemma covered_set_children seen at_ h cs :
  NoDup (map name cs) ->
  (forall c, In c cs ->
             exists parts, In parts seen /\ prefixb (at_ ++ [name c]) parts = true) ->
  (forall c, In c cs -> covered seen (at_ ++ [name c]) c) ->
  covered seen at_ (set_children h cs).
Proof. intros. unfold set_children. constructor; assumption. Qed.

Lemma NoDup_snoc (names : list string) x :
  NoDup names -> ~ In x names -> NoDup (names ++ [x]).
Proof.
  intros Hnd Hx. apply NoDup_app.
  - exact Hnd.
  - constructor; [ intros [] | constructor ].
  - intros y Hy [<- | []]. contradiction.
Qed.

(** Inserting a key whose segments are not a prefix of those of a key seen
    so far (nor equal to them) keeps sibling names apart. *)
Lemma walk_covered parts key fileName seen folders : forall i cur cur' at_,
    covered seen at_ cur ->
    (forall earlier, In earlier seen ->
                     prefixb (at_ ++ folders ++ [fileName]) earlier = false) ->
    walk parts key i folders fileName cur = Resolved cur' ->
    covered ((at_ ++ folders ++ [fileName]) :: seen) at_ cur'.
Proof.
  induction folders as [| f rest IH]; intros i cur cur' at_ C Hfresh;
    rewrite walk_unfold; destruct (children cur) as [cs |] eqn:Hcs;
    try discriminate;
    destruct (covered_children _ _ _ _ C Hcs) as (Hnd & Hprov & Hsub).
  - intros [= <-]. cbn [app] in *. apply covered_set_children.
    + rewrite map_app. cbn [map name mkFile]. apply NoDup_snoc; [ exact Hnd | ].
      intros Hin. apply in_map_iff in Hin. destruct Hin as (c & Hn & Hc).
      destruct (Hprov c Hc) as (earlier & Hseen & Hpre).
      rewrite Hn, (Hfresh _ Hseen) in Hpre. discriminate.
    + intros c Hc. apply in_app_or in Hc. destruct Hc as [Hc | [<- | []]].
      * destruct (Hprov c Hc) as (earlier & Hseen & Hpre).
        exists earlier. split; [ right; exact Hseen | exact Hpre ].
      * exists (at_ ++ [fileName]). split; [ left; reflexivity | ].
        cbn [name mkFile]. rewrite <- (app_nil_r (at_ ++ [fileName])) at 2.
        apply prefixb_app.
    + intros c Hc. apply in_app_or in Hc. destruct Hc as [Hc | [<- | []]].
      * apply covered_more, Hsub, Hc.
      * constructor.
  - assert (Hkey : at_ ++ (f :: rest) ++ [fileName]
                   = (at_ ++ [f]) ++ rest ++ [fileName])
      by (rewrite <- app_assoc; reflexivity).
    assert (Hnew : prefixb (at_ ++ [f]) (at_ ++ (f :: rest) ++ [fileName]) = true)
      by (rewrite Hkey; apply prefixb_app).
    destruct (find_child f cs) as [c |] eqn:Hf.
    + destruct (find_child_some _ _ _ Hf) as [Hin Hn].
      destruct (walk parts key (S i) rest fileName c) as [c' | |] eqn:Hw;
        try discriminate.
      intros [= <-].
      destruct (walk_name _ _ _ _ _ _ _ Hw) as (Hn' & _).
      assert (Hc' : name c' = f) by congruence.
      assert (C' : covered ((at_ ++ (f :: rest) ++ [fileName]) :: seen)
                     (at_ ++ [f]) c').
      { rewrite Hkey. eapply IH; [ | | exact Hw ].
        - rewrite <- Hn. apply Hsub, Hin.
        - rewrite <- Hkey. exact Hfresh. }
      apply covered_set_children.
      * rewrite (replace_child_names _ _ _ _ Hf Hc'). exact Hnd.
      * intros x Hx. apply replace_child_in in Hx. destruct Hx as [-> | Hx].
        -- rewrite Hc'. eexists. split; [ left; reflexivity | exact Hnew ].
        -- destruct (Hprov x Hx) as (earlier & Hseen & Hpre).
           exists earlier. split; [ right; exact Hseen | exact Hpre ].
      * intros x Hx. apply replace_child_in in Hx. destruct Hx as [-> | Hx].
        -- rewrite Hc'. exact C'.
        -- apply covered_more, Hsub, Hx.
    + destruct (walk parts key (S i) rest fileName _) as [c' | |] eqn:Hw;
        try discriminate.
      intros [= <-].
      destruct (walk_name _ _ _ _ _ _ _ Hw) as (Hn' & _). cbn [name mkFolder] in Hn'.
      assert (C' : covered ((at_ ++ (f :: rest) ++ [fileName]) :: seen)
                     (at_ ++ [f]) c').
      { rewrite Hkey. eapply IH; [ | | exact Hw ].
        - constructor; [ constructor | intros ? [] | intros ? [] ].
        - rewrite <- Hkey. exact Hfresh. }
      apply covered_set_children.
      * rewrite map_app. cbn [map]. rewrite Hn'.
        apply NoDup_snoc; [ exact Hnd | ]. apply find_child_none, Hf.
      * intros x Hx. apply in_app_or in Hx. destruct Hx as [Hx | [<- | []]].
        -- destruct (Hprov x Hx) as (earlier & Hseen & Hpre).
           exists earlier. split; [ right; exact Hseen | exact Hpre ].
        -- rewrite Hn'. eexists. split; [ left; reflexivity | exact Hnew ].
      * intros x Hx. apply in_app_or in Hx. destruct Hx as [Hx | [<- | []]].
        -- apply covered_more, Hsub, Hx.
        -- rewrite Hn'. exact C'.
Qed.

Lemma insertAll_covered contents : forall seen h h',
    fresh_from seen contents = true ->
    covered (map JS.split seen) [] h ->
    insertAll contents h = Resolved h' ->
    covered (map JS.split (rev contents ++ seen)) [] h'.
Proof.
  induction contents as [| key rest IH]; intros seen h h'; cbn.
  - intros _ C [= <-]. exact C.
  - intros Hfresh C. apply andb_prop in Hfresh. destruct Hfresh as [Hkey Hrest].
    destruct (insertKey key h) as [h1 | |] eqn:E; try discriminate.
    rewrite <- app_assoc. cbn [app].
    apply (IH (key :: seen)); [ exact Hrest | ].
    cbn [map]. rewrite (split_parts key) at 1.
    unfold insertKey in E.
    eapply walk_covered with (at_ := []); [ exact C | | exact E ].
    cbn [app]. rewrite <- split_parts.
    intros earlier Hin. apply in_map_iff in Hin. destruct Hin as (k & <- & Hk).
    unfold fresh_key in Hkey. rewrite forallb_forall in Hkey.
    apply negb_true_iff, Hkey, Hk.
Qed.

Lemma root_covered friendlyName : covered [] [] (root friendlyName).
Proof. constructor; [ constructor | intros ? [] | intros ? [] ]. Qed.

Lemma getBucketHierarchy_covered friendlyName contents hierarchy :
  fresh_listing contents = true ->
  getBucketHierarchy friendlyName (Some contents) = Resolved hierarchy ->
  covered (map JS.split (rev contents)) [] hierarchy.
Proof.
  intros Hfresh H.
  pose proof (insertAll_covered contents [] (root friendlyName) hierarchy Hfresh
                (root_covered friendlyName) H) as C.
  rewrite app_nil_r in C. exact C.
Qed.

Lemma getBucketHierarchy_unique friendlyName contents hierarchy :
  fresh_listing contents = true ->
  getBucketHierarchy friendlyName (Some contents) = Resolved hierarchy ->
  unique_names hierarchy.
Proof.
  intros Hfresh H. eapply covered_unique, getBucketHierarchy_covered; eassumption.
Qed.

(** A property of the file nodes, kept by the walk. *)
Lemma walk_every_leaf (Q : hnode -> Prop) parts key fileName folders :
  Q (mkFile fileName key) ->
  forall i cur cur',
    every_leaf Q cur ->
    walk parts key i folders fileName cur = Resolved cur' ->
    every_leaf Q cur'.
Proof.
  intros Hnew.
  induction folders as [| f rest IH]; intros i cur cur' E;
    rewrite walk_unfold; destruct (children cur) as [cs |] eqn:Hcs;
    try discriminate.
  all: assert (Hall : forall c, In c cs -> every_leaf Q c)
    by (inversion E; subst; cbn in Hcs; [ discriminate | injection Hcs as <-; auto ]).
  - intros [= <-]. apply el_node.
    intros c Hc. apply in_app_or in Hc. destruct Hc as [Hc | [<- | []]]; auto.
    apply el_leaf, Hnew.
  - destruct (find_child f cs) as [c |] eqn:Hf.
    + destruct (walk parts key (S i) rest fileName c) as [c' | |] eqn:Hw;
        try discriminate.
      intros [= <-]. apply el_node.
      intros x Hx. apply replace_child_in in Hx. destruct Hx as [-> | Hx]; auto.
      eapply IH; [ | exact Hw ]. apply Hall. apply (find_child_some _ _ _ Hf).
    + destruct (walk parts key (S i) rest fileName _) as [c' | |] eqn:Hw;
        try discriminate.
      intros [= <-]. apply el_node.
      intros x Hx. apply in_app_or in Hx. destruct Hx as [Hx | [<- | []]]; auto.
      eapply IH; [ | exact Hw ]. apply el_node. intros ? [].
Qed.

Lemma insertAll_every_leaf (Q : hnode -> Prop) contents : forall h h',
    (forall key fileName, In key contents -> Q (mkFile fileName key)) ->
    every_leaf Q h ->
    insertAll contents h = Resolved h' ->
    every_leaf Q h'.
Proof.
  induction contents as [| key rest IH]; intros h h' HQ E; cbn.
  - intros [= <-]. exact E.
  - destruct (insertKey key h) as [h1 | |] eqn:Hk; try discriminate.
    apply IH; [ intros; apply HQ; right; assumption | ].
    eapply walk_every_leaf; [ | exact E | exact Hk ].
    apply HQ. left. reflexivity.
Qed.

End UniqueRemote.

(** ** Joining a directory path and an entry name *)

Section PathLemmas.

Lemma valid_name_inv c :
  Path.valid_name c = true ->
  String.eqb c "" = false /\ JS.slash_free c = true
  /\ Path.is_dot c = false /\ Path.is_dotdot c = false.
Proof.
  unfold Path.valid_name, Path.nonempty. intros H.
  repeat (apply andb_prop in H; destruct H as [H ?]).
  repeat split; try (apply negb_true_iff; assumption); assumption.
Qed.

Lemma split_slash_free c : JS.slash_free c = true -> JS.split c = [c].
Proof.
  induction c as [| a c IH]; cbn; [ reflexivity | ].
  intros H. apply andb_prop in H. destruct H as [Ha Hc].
  apply negb_true_iff in Ha. rewrite Ha, (IH Hc). reflexivity.
Qed.

Lemma ends_with_slash_free c : JS.slash_free c = true -> JS.ends_with_slash c = false.
Proof.
  induction c as [| a c IH]; cbn; [ reflexivity | ].
  intros H. apply andb_prop in H. destruct H as [Ha Hc].
  apply negb_true_iff in Ha. destruct c; [ exact Ha | exact (IH Hc) ].
Qed.

Lemma ends_with_slash_app x c :
  c <> ""%string ->
  JS.ends_with_slash (x ++ c)%string = JS.ends_with_slash c.
Proof.
  intros Hc. induction x as [| a x IH]; cbn [String.append]; [ reflexivity | ].
  cbn [JS.ends_with_slash]. destruct (x ++ c)%string eqn:E; [ | exact IH ].
  destruct x; cbn in E; [ contradiction | discriminate ].
Qed.

Lemma norm_step_plain allow acc c :
  Path.valid_name c = true -> Path.norm_step allow acc c = acc ++ [c].
Proof.
  intros H. destruct (valid_name_inv _ H) as (He & _ & Hd & Hdd).
  unfold Path.norm_step. rewrite He, Hd, Hdd. reflexivity.
Qed.

Lemma normalizeSegments_snoc allow pre c :
  Path.valid_name c = true ->
  Path.normalizeSegments allow (pre ++ [c])
  = Path.normalizeSegments allow pre ++ [c].
Proof.
  intros H. unfold Path.normalizeSegments. rewrite fold_left_app. cbn [fold_left].
  apply norm_step_plain, H.
Qed.

Lemma split_join_snoc l c :
  JS.slash_free c = true ->
  exists stuff, JS.split (JS.join (l ++ [c])) = stuff ++ [c].
Proof.
  intros Hc. induction l as [| x l (stuff & IH)].
  - exists []. cbn. apply split_slash_free, Hc.
  - unfold JS.join in *. cbn [app String.concat].
    destruct (l ++ [c]) as [| y ys] eqn:E.
    + destruct l; discriminate.
    + change (x ++ "/" ++ String.concat "/" (y :: ys))%string
        with (x ++ String JS.slash (String.concat "/" (y :: ys)))%string.
      rewrite split_app, IH. exists (JS.split x ++ stuff).
      rewrite app_assoc. reflexivity.
Qed.

Lemma basename_last s stuff c :
  JS.split s = stuff ++ [c] -> String.eqb c "" = false -> Path.basename s = c.
Proof.
  intros Hs Hc. unfold Path.basename. rewrite Hs, filter_app. cbn [filter].
  unfold Path.nonempty at 2. rewrite Hc. cbn [negb]. apply last_last.
Qed.

Lemma normalize_last s pre c :
  JS.split s = pre ++ [c] ->
  s <> ""%string ->
  JS.ends_with_slash s = false ->
  Path.valid_name c = true ->
  exists stuff, JS.split (Path.normalize s) = stuff ++ [c].
Proof.
  intros Hs Hne Hend Hc. destruct (valid_name_inv _ Hc) as (_ & Hfree & _).
  unfold Path.normalize. destruct s as [| a s]; [ contradiction | ].
  rewrite Hs, normalizeSegments_snoc, Hend by exact Hc.
  set (acc := Path.normalizeSegments _ pre).
  destruct (split_join_snoc acc c Hfree) as (stuff & Hsplit).
  destruct (acc ++ [c]) as [| y ys] eqn:E; [ destruct acc; discriminate | ].
  destruct (JS.starts_with_slash (String a s)).
  - exists ("" :: stuff)%string. cbn [String.append JS.split].
    change (Ascii.eqb "/" JS.slash) with true. cbn iota. rewrite Hsplit. reflexivity.
  - exists stuff. exact Hsplit.
Qed.

(** The name of the node built for a directory entry is the entry name. *)
Lemma basename_join p c :
  Path.valid_name c = true -> Path.basename (Path.join p c) = c.
Proof.
  intros Hc. destruct (valid_name_inv _ Hc) as (He & Hfree & _).
  assert (Hne : c <> ""%string) by (intros ->; discriminate).
  assert (exists stuff, JS.split (Path.join p c) = stuff ++ [c]) as (stuff & Hs).
  { unfold Path.join. destruct p as [| a p]; destruct c as [| b c];
      try contradiction.
    - apply normalize_last with (pre := []);
        [ apply split_slash_free, Hfree | discriminate
        | apply ends_with_slash_free, Hfree | exact Hc ].
    - apply normalize_last with (pre := JS.split (String a p));
        [ | discriminate | | exact Hc ].
      + change (String a p ++ "/" ++ String b c)%string
          with (String a p ++ String JS.slash (String b c))%string.
        rewrite split_app, (split_slash_free _ Hfree). reflexivity.
      + rewrite ends_with_slash_app by discriminate.
        apply (ends_with_slash_free (String b c)), Hfree. }
  eapply basename_last; eassumption.
Qed.

End PathLemmas.

(** ** Listings in the order of the store *)

Section OrderedListings.

Lemma append_assoc (a b c : string) : ((a ++ b) ++ c = a ++ b ++ c)%string.
Proof. induction a as [| x a IH]; cbn; [ reflexivity | rewrite IH; reflexivity ]. Qed.

Lemma join_split s : JS.join (JS.split s) = s.
Proof.
  induction s as [| c s IH]; cbn; [ reflexivity | ].
  destruct (Ascii.eqb_spec c JS.slash) as [-> | _].
  - pose proof (split_nonempty s) as Hne.
    destruct (JS.split s) as [| x xs] eqn:E; [ contradiction | ].
    rewrite join_cons, IH. reflexivity.
  - pose proof (split_nonempty s) as Hne.
    destruct (JS.split s) as [| x xs] eqn:E; [ contradiction | ].
    rewrite <- IH. destruct xs; reflexivity.
Qed.

Lemma join_app a r :
  a <> [] -> r <> [] ->
  JS.join (a ++ r) = (JS.join a ++ String JS.slash (JS.join r))%string.
Proof.
  intros Ha Hr. induction a as [| x a IH]; [ contradiction | ].
  destruct a as [| y ys].
  - cbn [app]. destruct r as [| z zs]; [ contradiction | ]. apply join_cons.
  - change ((x :: y :: ys) ++ r) with (x :: y :: (ys ++ r)).
    rewrite !join_cons. change (y :: ys ++ r) with ((y :: ys) ++ r).
    rewrite IH by discriminate. rewrite append_assoc. reflexivity.
Qed.

Lemma prefixb_true a : forall b, prefixb a b = true -> exists r, b = a ++ r.
Proof.
  induction a as [| x a IH]; intros b; cbn; [ eauto | ].
  destruct b as [| y b]; [ discriminate | ].
  destruct (String.eqb_spec x y) as [-> | _]; [ | discriminate ].
  cbn. intros H. destruct (IH _ H) as (r & ->). eauto.
Qed.

(** A key whose segments continue those of [a] continues the text of [a]. *)
Lemma prefixb_split a b :
  prefixb (JS.split a) (JS.split b) = true -> exists u, b = (a ++ u)%string.
Proof.
  intros H. apply prefixb_true in H. destruct H as (r & Hr).
  rewrite <- (join_split b), Hr. destruct r as [| z zs].
  - rewrite app_nil_r, join_split. exists ""%string.
    clear. induction a as [| x a IH]; cbn; [ | rewrite <- IH ]; reflexivity.
  - rewrite join_app by (try apply split_nonempty; discriminate).
    rewrite join_split. eauto.
Qed.

Lemma ascii_compare_refl c : Ascii.compare c c = Eq.
Proof. apply N.compare_refl. Qed.

Lemma compare_continuation a u : String.compare a (a ++ u) <> Gt.
Proof.
  induction a as [| x a IH]; cbn.
  - destruct u; discriminate.
  - rewrite ascii_compare_refl. exact IH.
Qed.

Lemma ltb_not_continuation earlier key :
  String.ltb earlier key = true ->
  prefixb (JS.split key) (JS.split earlier) = false.
Proof.
  unfold String.ltb. intros Hlt.
  destruct (prefixb (JS.split key) (JS.split earlier)) eqn:E; [ | reflexivity ].
  apply prefixb_split in E. destruct E as (u & ->).
  pose proof (compare_continuation key u) as Hc.
  rewrite String.compare_antisym in Hlt.
  destruct (String.compare key (key ++ u)); cbn in Hlt; try discriminate.
  contradiction.
Qed.

Lemma s3_ordered_fresh_from contents : forall seen,
    (forall earlier key, In earlier seen -> In key contents ->
                         String.ltb earlier key = true) ->
    s3_ordered contents = true ->
    fresh_from seen contents = true.
Proof.
  induction contents as [| key rest IH]; intros seen Hseen Hord; cbn in *;
    [ reflexivity | ].
  apply andb_prop in Hord. destruct Hord as [Hkey Hrest].
  rewrite forallb_forall in Hkey.
  apply andb_true_intro. split.
  - unfold fresh_key. apply forallb_forall. intros earlier Hin.
    apply negb_true_iff, ltb_not_continuation, Hseen; [ exact Hin | left; reflexivity ].
  - apply IH; [ | exact Hrest ].
    intros earlier later [<- | Hin] Hlater.
    + apply Hkey, Hlater.
    + apply Hseen; [ exact Hin | right; exact Hlater ].
Qed.

(** In the order of the store no key is a prefix of, or equal to, an
    earlier one. *)
Lemma s3_ordered_fresh contents :
  s3_ordered contents = true -> fresh_listing contents = true.
Proof. apply s3_ordered_fresh_from. intros earlier key []. Qed.

End OrderedListings.

(** ** Unique child names, local mode *)

Section UniqueLocal.

Import Folder.

Lemma assoc_in s es c : FS.assoc s es = Some c -> In (s, c) es.
Proof.
  induction es as [| [k v] es IH]; cbn; [ discriminate | ].
  destruct (String.eqb_spec k s) as [-> | _].
  - intros [= ->]. left. reflexivity.
  - intros H. right. apply IH, H.
Qed.

Lemma find_wf segs : forall disk n,
    FS.wf disk -> FS.find segs disk = Some n -> FS.wf n.
Proof.
  induction segs as [| s rest IH]; intros disk n W; cbn.
  - intros [= <-]. exact W.
  - destruct disk as [data | es]; [ discriminate | ].
    destruct (FS.assoc s es) as [c |] eqn:Hs; [ | discriminate ].
    apply IH. inversion W as [ | es' _ _ Hsub ]; subst.
    eapply Hsub, assoc_in, Hs.
Qed.

Lemma sequence_resolved (f : string -> option (outcome hnode)) entries : forall hs,
    sequence (map f entries) = Some (Resolved hs) ->
    Forall2 (fun entry h => f entry = Some (Resolved h)) entries hs.
Proof.
  induction entries as [| e entries IH]; intros hs; cbn.
  - intros [= <-]. constructor.
  - destruct (f e) as [[h | |] |] eqn:E; try discriminate.
    destruct (sequence (map f entries)) as [[hs' | |] |]; try discriminate.
    intros [= <-]. constructor; auto.
Qed.

Lemma getFolderHierarchy_unique fuel disk :
  FS.wf disk ->
  forall folderPath hierarchy,
    getFolderHierarchy fuel disk folderPath = Some (Resolved hierarchy) ->
    unique_names hierarchy.
Proof.
  intros W. induction fuel as [| fuel IH]; intros folderPath hierarchy; cbn;
    [ discriminate | ].
  destruct (FS.find (Path.segments folderPath) disk) as [[data | es] |] eqn:Hf;
    [ | | discriminate ].
  - intros [= <-]. constructor.
  - destruct (sequence _) as [[hs | e | e] |] eqn:Hseq; try discriminate.
    intros [= <-]. apply sequence_resolved in Hseq.
    pose proof (find_wf _ _ _ W Hf) as Wd.
    inversion Wd as [ | es' Hnd Hvalid _ ]; subst.
    assert (Hnames : map name hs = map fst es).
    { revert Hvalid Hseq. generalize (map fst es) as names. clear.
      intros names Hvalid Hseq. induction Hseq as [| entry h names hs Hh _ IHs];
        [ reflexivity | ].
      cbn [map]. f_equal.
      - apply getFolderHierarchy_root in Hh. destruct Hh as (_ & ->).
        apply basename_join, Hvalid. left. reflexivity.
      - apply IHs. intros k Hk. apply Hvalid. right. exact Hk. }
    constructor.
    + rewrite Hnames. exact Hnd.
    + intros c Hc.
      assert (Hall : Forall unique_names hs).
      { clear - Hseq IH. induction Hseq; constructor; eauto. }
      rewrite Forall_forall in Hall. apply Hall, Hc.
Qed.

End UniqueLocal.

(** C6, as the code has it.  No node has two children of the same name
    - in a hierarchy built from a listing in which the segments of no key
      are a prefix of, or equal to, those of an earlier key (so no key
      occurs twice, and no file key comes after a key below it);
    - in particular in a hierarchy built from a listing in strictly
      increasing key order;
    - in a hierarchy built from a directory tree whose entries have proper
      and pairwise different names. *)
Theorem hierarchy_unique_names :
  (forall friendlyName contents hierarchy,
      fresh_listing contents = true ->
      Bucket.getBucketHierarchy friendlyName (Some contents) = Resolved hierarchy ->
      unique_names hierarchy)
  /\ (forall friendlyName contents hierarchy,
         s3_ordered contents = true ->
         Bucket.getBucketHierarchy friendlyName (Some contents) = Resolved hierarchy ->
         unique_names hierarchy)
  /\ (forall fuel disk folderPath hierarchy,
         FS.wf disk ->
         Folder.getFolderHierarchy fuel disk folderPath = Some (Resolved hierarchy) ->
         unique_names hierarchy).
Proof.
  split; [ | split ].
  - apply getBucketHierarchy_unique.
  - intros friendlyName contents hierarchy Hord.
    apply getBucketHierarchy_unique, s3_ordered_fresh, Hord.
  - intros fuel disk folderPath hierarchy W. apply getFolderHierarchy_unique, W.
Qed.

(** ** Absolute paths *)

Section AbsolutePaths.

Lemma split_all_slash_free s : Forall (fun x => JS.slash_free x = true) (JS.split s).
Proof.
  induction s as [| a s IH]; cbn.
  - repeat constructor.
  - destruct (Ascii.eqb a JS.slash) eqn:Ea.
    + constructor; [ reflexivity | exact IH ].
    + destruct (JS.split s) as [| x xs]; [ repeat constructor; cbn; rewrite Ea; reflexivity | ].
      inversion IH as [ | ? ? Hx Hxs ]; subst.
      constructor; [ cbn; rewrite Ea, Hx; reflexivity | exact Hxs ].
Qed.

Lemma fold_norm_plain allow l : forall acc,
    plain l -> fold_left (Path.norm_step allow) l acc = acc ++ l.
Proof.
  induction l as [| x l IH]; intros acc Hl; cbn.
  - rewrite app_nil_r. reflexivity.
  - inversion Hl as [ | ? ? Hx Hrest ]; subst.
    rewrite (norm_step_plain _ _ _ Hx), (IH _ Hrest), <- app_assoc. reflexivity.
Qed.

Lemma normalizeSegments_plain allow l :
  plain l -> Path.normalizeSegments allow l = l.
Proof. intros H. apply (fold_norm_plain allow l [] H). Qed.

Lemma plain_app a b : plain a -> plain b -> plain (a ++ b).
Proof. intros Ha Hb. apply Forall_app. split; assumption. Qed.

(** What the file system makes of any path is a list of proper names. *)
Lemma norm_step_keeps_plain acc seg :
  plain acc -> JS.slash_free seg = true -> plain (Path.norm_step false acc seg).
Proof.
  intros Hacc Hseg. unfold Path.norm_step.
  destruct (String.eqb seg "" || Path.is_dot seg) eqn:E1; [ exact Hacc | ].
  apply orb_false_elim in E1. destruct E1 as [Hne Hdot].
  destruct (Path.is_dotdot seg) eqn:E2.
  - destruct (rev acc) as [| lst before] eqn:Er; [ constructor | ].
    destruct (Path.is_dotdot lst); [ exact Hacc | ].
    assert (Hsplit : acc = rev before ++ [lst])
      by (rewrite <- (rev_involutive acc), Er; reflexivity).
    rewrite Hsplit in Hacc. apply Forall_app in Hacc. apply Hacc.
  - apply plain_app; [ exact Hacc | ]. constructor; [ | constructor ].
    unfold Path.valid_name, Path.nonempty. rewrite Hne, Hseg, Hdot, E2. reflexivity.
Qed.

Lemma segments_plain p : plain (Path.segments p).
Proof.
  unfold Path.segments, Path.normalizeSegments.
  assert (G : forall l acc,
             Forall (fun x => JS.slash_free x = true) l -> plain acc ->
             plain (fold_left (Path.norm_step false) l acc)).
  { induction l as [| x l IH]; intros acc Hl Hacc; cbn; [ exact Hacc | ].
    inversion Hl; subst. apply IH; [ assumption | ].
    apply norm_step_keeps_plain; assumption. }
  apply G; [ apply split_all_slash_free | constructor ].
Qed.

Lemma plain_slash_free l : plain l -> Forall (fun x => JS.slash_free x = true) l.
Proof.
  apply Forall_impl. intros s H. apply (valid_name_inv _ H).
Qed.

Lemma split_join l :
  l <> [] -> Forall (fun x => JS.slash_free x = true) l -> JS.split (JS.join l) = l.
Proof.
  induction l as [| x l IH]; intros Hne Hl; [ contradiction | ].
  inversion Hl as [ | ? ? Hx Hrest ]; subst.
  destruct l as [| y ys].
  - cbn. apply split_slash_free, Hx.
  - rewrite join_cons, split_app, (split_slash_free _ Hx), IH by (auto; discriminate).
    reflexivity.
Qed.

Lemma segments_absolute l : plain l -> Path.segments (absolute l) = l.
Proof.
  intros Hl. destruct l as [| x l]; [ reflexivity | ].
  unfold absolute, Path.segments.
  change (JS.split ("/" ++ JS.join (x :: l)))
    with ("" :: JS.split (JS.join (x :: l)))%string.
  rewrite split_join by (try discriminate; apply plain_slash_free, Hl).
  unfold Path.normalizeSegments. cbn [fold_left].
  change (Path.norm_step false [] "") with (@nil string).
  apply (normalizeSegments_plain false _ Hl).
Qed.

Lemma starts_with_slash_absolute l : JS.starts_with_slash (absolute l) = true.
Proof. destruct l; reflexivity. Qed.

(** Joining an absolute path and a proper name. *)
Lemma join_absolute p c :
  JS.starts_with_slash p = true -> Path.valid_name c = true ->
  Path.join p c = absolute (Path.segments p ++ [c]).
Proof.
  intros Hp Hc. destruct (valid_name_inv _ Hc) as (He & Hfree & _).
  destruct p as [| a p]; [ discriminate | ].
  destruct c as [| b c]; [ discriminate | ].
  unfold Path.join, Path.normalize.
  change (String a p ++ "/" ++ String b c)%string
    with (String a (p ++ String JS.slash (String b c)))%string.
  cbn [JS.starts_with_slash] in *. rewrite Hp. cbn [negb].
  change (String a (p ++ String JS.slash (String b c)))%string
    with (String a p ++ String JS.slash (String b c))%string.
  rewrite split_app, (split_slash_free _ Hfree), normalizeSegments_snoc by exact Hc.
  rewrite ends_with_slash_app by discriminate.
  change (JS.ends_with_slash (String JS.slash (String b c)))
    with (JS.ends_with_slash (String b c)).
  rewrite (ends_with_slash_free _ Hfree).
  unfold Path.segments, absolute.
  destruct (Path.normalizeSegments false (JS.split (String a p)) ++ [String b c])
    eqn:E; [ destruct (Path.normalizeSegments _ _); discriminate | ].
  reflexivity.
Qed.

Lemma segments_join p c :
  JS.starts_with_slash p = true -> Path.valid_name c = true ->
  Path.segments (Path.join p c) = Path.segments p ++ [c]
  /\ JS.starts_with_slash (Path.join p c) = true.
Proof.
  intros Hp Hc. rewrite (join_absolute _ _ Hp Hc). split.
  - apply segments_absolute, plain_app; [ apply segments_plain | ].
    constructor; [ exact Hc | constructor ].
  - apply starts_with_slash_absolute.
Qed.

Lemma chars_app a b :
  list_ascii_of_string (a ++ b) = list_ascii_of_string a ++ list_ascii_of_string b.
Proof. induction a as [| x a IH]; cbn; [ reflexivity | rewrite IH; reflexivity ]. Qed.

Lemma chars_join_snoc acc c :
  acc <> [] ->
  list_ascii_of_string (JS.join (acc ++ [c]))
  = list_ascii_of_string (JS.join acc) ++ JS.slash :: list_ascii_of_string c.
Proof.
  induction acc as [| x acc IH]; intros Hne; [ contradiction | ].
  destruct acc as [| y ys].
  - cbn [app]. rewrite join_cons. cbn [JS.join String.concat].
    rewrite chars_app. reflexivity.
  - change ((x :: y :: ys) ++ [c]) with (x :: y :: (ys ++ [c])).
    rewrite !join_cons, !chars_app. cbn [list_ascii_of_string].
    change (y :: ys ++ [c]) with ((y :: ys) ++ [c]).
    rewrite IH by discriminate. rewrite <- app_assoc. reflexivity.
Qed.

Lemma chars_slash_free c :
  JS.slash_free c = true ->
  Forall (fun a => Ascii.eqb a JS.slash = false) (list_ascii_of_string c).
Proof.
  induction c as [| a c IH]; cbn; [ constructor | ].
  intros H. apply andb_prop in H. destruct H as [Ha Hc].
  constructor; [ apply negb_true_iff, Ha | apply IH, Hc ].
Qed.

(** The scan of [dirname] runs over a last segment down to the separator
    before it. *)
Lemma dirname_scan_segment seg : forall matchedSlash rest,
    Forall (fun a => Ascii.eqb a JS.slash = false) seg -> seg <> [] ->
    Path.dirname_scan matchedSlash (seg ++ rest) = Path.dirname_scan false rest.
Proof.
  induction seg as [| a seg IH]; intros m rest Hseg Hne; [ contradiction | ].
  inversion Hseg as [ | ? ? Ha Hrest ]; subst. cbn. rewrite Ha.
  destruct seg as [| b seg]; [ reflexivity | ].
  apply IH; [ exact Hrest | discriminate ].
Qed.

Lemma dirname_absolute acc c :
  plain acc -> Path.valid_name c = true ->
  Path.dirname (absolute (acc ++ [c])) = absolute acc.
Proof.
  intros Hacc Hc. destruct (valid_name_inv _ Hc) as (He & Hfree & _).
  assert (Hchars : list_ascii_of_string c <> [])
    by (destruct c; [ discriminate | discriminate ]).
  assert (Hrev : Forall (fun a => Ascii.eqb a JS.slash = false)
                        (rev (list_ascii_of_string c)))
    by (apply Forall_rev, chars_slash_free, Hfree).
  assert (Hrevne : rev (list_ascii_of_string c) <> [])
    by (intros E; apply Hchars; rewrite <- (rev_involutive (list_ascii_of_string c)), E;
        reflexivity).
  unfold absolute at 1.
  destruct (acc ++ [c]) as [| y ys] eqn:E; [ destruct acc; discriminate | ].
  rewrite <- E. clear E y ys.
  change ("/" ++ JS.join (acc ++ [c]))%string
    with (String "/" (JS.join (acc ++ [c]))).
  unfold Path.dirname. change (Ascii.eqb "/" JS.slash) with true. cbn iota.
  destruct acc as [| x acc].
  - cbn [app JS.join String.concat].
    rewrite <- (app_nil_r (rev (list_ascii_of_string c))).
    rewrite (dirname_scan_segment _ _ _ Hrev Hrevne). reflexivity.
  - rewrite chars_join_snoc by discriminate.
    rewrite rev_app_distr. cbn [rev]. rewrite <- app_assoc. cbn [app].
    rewrite (dirname_scan_segment _ _ _ Hrev Hrevne). cbn [Path.dirname_scan].
    change (Ascii.eqb JS.slash JS.slash) with true. cbn iota.
    destruct (rev (list_ascii_of_string (JS.join (x :: acc)))) as [| r rs] eqn:Er.
    + exfalso. apply (f_equal (@rev ascii)) in Er. rewrite rev_involutive in Er.
      inversion Hacc as [ | ? ? Hx _ ]; subst.
      destruct (valid_name_inv _ Hx) as (Hxe & _).
      destruct x as [| a x]; [ discriminate | ].
      destruct acc; cbn in Er; discriminate.
    + rewrite <- Er, rev_involutive, string_of_list_ascii_of_string. reflexivity.
Qed.

(** The parent of the join of an absolute path and a proper name is the
    path. *)
Lemma segments_dirname_join p c :
  JS.starts_with_slash p = true -> Path.valid_name c = true ->
  Path.segments (Path.dirname (Path.join p c)) = Path.segments p.
Proof.
  intros Hp Hc. rewrite (join_absolute _ _ Hp Hc).
  rewrite (dirname_absolute _ _ (segments_plain p) Hc).
  apply segments_absolute, segments_plain.
Qed.

End AbsolutePaths.

(** ** Writing next to what is there *)

Section DiskFrame.

Lemma assoc_app_other t s c es :
  s <> t -> FS.assoc t (es ++ [(s, c)]) = FS.assoc t es.
Proof.
  intros Hne. induction es as [| [k v] es IH]; cbn.
  - destruct (String.eqb_spec s t); [ contradiction | reflexivity ].
  - rewrite IH. reflexivity.
Qed.

Lemma update_same s c es : FS.assoc s es = Some c -> FS.update s c es = es.
Proof.
  induction es as [| [k v] es IH]; cbn; [ reflexivity | ].
  destruct (String.eqb k s) eqn:E.
  - intros [= ->]. reflexivity.
  - intros H. rewrite (IH H). reflexivity.
Qed.

Lemma apart_cons s a b : apart (s :: a) (s :: b) -> apart a b.
Proof. unfold apart. cbn. rewrite String.eqb_refl. auto. Qed.

Lemma apart_nil_l b : ~ apart [] b.
Proof. intros [H _]. discriminate. Qed.

Lemma apart_nil_r a : ~ apart a [].
Proof. intros [_ H]. discriminate. Qed.

Lemma apart_siblings at_ s s' r r' :
  s <> s' -> apart (at_ ++ s :: r) (at_ ++ s' :: r').
Proof.
  intros Hne. induction at_ as [| x at_ IH]; cbn.
  - split; cbn.
    + destruct (String.eqb_spec s s'); [ contradiction | reflexivity ].
    + destruct (String.eqb_spec s' s); [ congruence | reflexivity ].
  - destruct IH as [H1 H2]. split; cbn; rewrite String.eqb_refl; assumption.
Qed.

Lemma prefixb_snoc_false a b s :
  prefixb a b = false -> prefixb (a ++ [s]) b = false.
Proof.
  revert b. induction a as [| x a IH]; intros b; cbn; [ discriminate | ].
  destruct b as [| y b]; [ reflexivity | ].
  destruct (String.eqb x y); cbn; auto.
Qed.

Lemma prefixb_of_snoc a b s :
  prefixb a (b ++ [s]) = true -> prefixb a b = true \/ a = b ++ [s].
Proof.
  revert b. induction a as [| x a IH]; intros b; cbn; [ auto | ].
  destruct b as [| y b]; cbn.
  - destruct (String.eqb_spec x s) as [-> | _]; cbn; [ | discriminate ].
    destruct a; [ auto | discriminate ].
  - destruct (String.eqb_spec x y) as [-> | _]; cbn; [ | discriminate ].
    intros H. destruct (IH _ H) as [H' | ->]; auto.
Qed.

(** What is apart from a directory is apart from what it holds. *)
Lemma apart_below q at_ s : apart q at_ -> apart q (at_ ++ [s]).
Proof.
  intros [H1 H2]. split.
  - destruct (prefixb q (at_ ++ [s])) eqn:E; [ | reflexivity ].
    apply prefixb_of_snoc in E. destruct E as [E | ->].
    + congruence.
    + rewrite prefixb_app in H2. discriminate.
  - apply prefixb_snoc_false, H2.
Qed.

Lemma find_update_apart s t q c c' es :
  FS.assoc s es = Some c ->
  (t = s -> FS.find q c' = FS.find q c) ->
  FS.find (t :: q) (FDir (FS.update s c' es)) = FS.find (t :: q) (FDir es).
Proof.
  intros Hs Hsame. cbn. destruct (String.eqb_spec s t) as [<- | Hne].
  - rewrite Hs, (assoc_update_same _ _ c' _ Hs). auto.
  - rewrite (assoc_update_other _ _ c' es Hne). reflexivity.
Qed.

Lemma find_append_apart s t q c' es :
  t <> s ->
  FS.find (t :: q) (FDir (es ++ [(s, c')])) = FS.find (t :: q) (FDir es).
Proof.
  intros Hne. cbn. rewrite (assoc_app_other t s c' es); [ reflexivity | congruence ].
Qed.

Lemma write_frame segs data : forall n n' q,
    FS.write segs data n = inr n' -> apart q segs -> FS.find q n' = FS.find q n.
Proof.
  induction segs as [| s rest IH]; intros [old | es] n' q H Hq; cbn in H;
    try discriminate.
  destruct q as [| t q]; [ destruct (apart_nil_l _ Hq) | ].
  destruct rest as [| s2 rest].
  - assert (Hts : t <> s).
    { intros ->. destruct Hq as [_ Hq]. cbn in Hq. rewrite String.eqb_refl in Hq.
      discriminate. }
    destruct (FS.assoc s es) as [[old | sub] |] eqn:Hs; try discriminate;
      injection H as <-.
    + apply (find_update_apart _ _ _ _ _ _ Hs). intros; contradiction.
    + apply find_append_apart, Hts.
  - destruct (FS.assoc s es) as [c |] eqn:Hs; [ | discriminate ].
    destruct (FS.write (s2 :: rest) data c) as [e | c'] eqn:Hc; [ discriminate | ].
    injection H as <-. apply (find_update_apart _ _ _ _ _ _ Hs). intros ->.
    apply (IH _ _ _ Hc). apply apart_cons with (s := s), Hq.
Qed.

Lemma mkdirp_frame segs : forall n n' q,
    FS.mkdirp segs n = inr n' -> apart q segs -> FS.find q n' = FS.find q n.
Proof.
  induction segs as [| s rest IH]; intros [old | es] n' q H Hq; cbn in H;
    try discriminate.
  - destruct (apart_nil_r _ Hq).
  - destruct q as [| t q]; [ destruct (apart_nil_l _ Hq) | ].
    destruct (FS.assoc s es) as [c |] eqn:Hs.
    + destruct (FS.mkdirp rest c) as [e | c'] eqn:Hc; [ discriminate | ].
      injection H as <-. cbn. destruct (String.eqb_spec s t) as [<- | Hne].
      * rewrite Hs, (assoc_update_same _ _ c' _ Hs).
        apply (IH _ _ _ Hc). apply apart_cons with (s := s), Hq.
      * rewrite (assoc_update_other _ _ c' es Hne). reflexivity.
    + destruct (FS.mkdirp rest (FDir [])) as [e | c'] eqn:Hc; [ discriminate | ].
      injection H as <-. cbn. destruct (String.eqb_spec s t) as [<- | Hne].
      * rewrite Hs, (assoc_app_fresh _ c' _ Hs).
        rewrite (IH _ _ _ Hc (apart_cons _ _ _ Hq)).
        destruct q; [ destruct (apart_nil_l rest (apart_cons _ _ _ Hq)) | reflexivity ].
      * rewrite (assoc_app_other _ _ c' es Hne). reflexivity.
Qed.

(** [mkdir -p] of a directory that exists changes nothing. *)
Lemma mkdirp_existing segs : forall n es,
    FS.find segs n = Some (FDir es) -> FS.mkdirp segs n = inr n.
Proof.
  induction segs as [| s rest IH]; intros [old | entries] es; cbn;
    try discriminate.
  - reflexivity.
  - destruct (FS.assoc s entries) as [c |] eqn:Hs; [ | discriminate ].
    intros Hc. rewrite (IH _ _ Hc), (update_same _ _ _ Hs). reflexivity.
Qed.

(** A directory made where there was nothing is empty. *)
Lemma mkdirp_new segs : forall n n',
    FS.find segs n = None -> FS.mkdirp segs n = inr n' ->
    FS.find segs n' = Some (FDir []).
Proof.
  induction segs as [| s rest IH]; intros [old | es] n'; cbn; try discriminate.
  destruct (FS.assoc s es) as [c |] eqn:Hs.
  - intros Hnone. destruct (FS.mkdirp rest c) as [e | c'] eqn:Hc; [ discriminate | ].
    intros [= <-]. cbn. rewrite (assoc_update_same _ _ c' _ Hs). apply (IH _ _ Hnone Hc).
  - intros _. destruct (FS.mkdirp rest (FDir [])) as [e | c'] eqn:Hc; [ discriminate | ].
    intros [= <-]. cbn. rewrite (assoc_app_fresh _ c' _ Hs).
    destruct rest as [| s2 rest].
    + cbn in Hc. injection Hc as <-. reflexivity.
    + apply (IH (FDir []) _ eq_refl Hc).
Qed.

(** In a directory, a name that is free can be made a directory or a
    file. *)
Lemma mkdirp_child at_ s : forall n es,
    FS.find at_ n = Some (FDir es) -> FS.find (at_ ++ [s]) n = None ->
    exists n', FS.mkdirp (at_ ++ [s]) n = inr n'.
Proof.
  induction at_ as [| x at_ IH]; intros [old | entries] es; cbn; try discriminate.
  - intros _. destruct (FS.assoc s entries); [ discriminate | ]. eauto.
  - destruct (FS.assoc x entries) as [c |] eqn:Hx; [ | discriminate ].
    intros Hc Hnone. destruct (IH _ _ Hc Hnone) as (c' & ->). eauto.
Qed.

Lemma write_child at_ s data : forall n es,
    FS.find at_ n = Some (FDir es) -> FS.find (at_ ++ [s]) n = None ->
    exists n', FS.write (at_ ++ [s]) data n = inr n'.
Proof.
  induction at_ as [| x at_ IH]; intros [old | entries] es; cbn -[FS.write];
    try discriminate.
  - intros _. cbn. destruct (FS.assoc s entries); [ discriminate | ]. eauto.
  - destruct (FS.assoc x entries) as [c |] eqn:Hx; [ | discriminate ].
    intros Hc Hnone. destruct (IH _ _ Hc Hnone) as (c' & Hw).
    cbn. destruct (at_ ++ [s]) as [| y ys] eqn:E; [ destruct at_; discriminate | ].
    rewrite Hx, Hw. eauto.
Qed.

End DiskFrame.

(** ** Cloning into a place that is free *)

Section CloneFresh.

Variable s3 : object_store.
Variable bucketName : string.

Lemma find_app a : forall b n,
    FS.find (a ++ b) n =
    match FS.find a n with
    | Some x => FS.find b x
    | None => None
    end.
Proof.
  induction a as [| s a IH]; intros b n; cbn; [ reflexivity | ].
  destruct n as [data | es]; [ reflexivity | ].
  destruct (FS.assoc s es); [ apply IH | reflexivity ].
Qed.

Lemma keeps_dir a b at_ es :
  keeps a b -> FS.find at_ a = Some (FDir es) ->
  exists es', FS.find at_ b = Some (FDir es').
Proof.
  intros K H. destruct (K _ _ H) as ([data | es'] & Hb & Hk);
    [ discriminate | eauto ].
Qed.

Lemma clone_file_into_free_place n p m chunks :
  s3 bucketName p = S3Body chunks true ->
  clones_into_free_place s3 bucketName (HNode n p TFile m None).
Proof.
  intros Hbody folderPath w es Habs Hname Hparent Hfree. cbn [name] in *.
  destruct (segments_join _ _ Habs Hname) as [Hres _].
  destruct (write_child _ n (concat chunks) _ _ Hparent Hfree) as (disk' & Hwrite).
  assert (Hdir : exists es', FS.find (Path.segments folderPath) disk' = Some (FDir es'))
    by (eapply keeps_dir; [ eapply write_keeps, Hwrite | exact Hparent ]).
  destruct Hdir as (es' & Hdir).
  exists (World disk' (log w ++ [EvGetObject bucketName p]
                             ++ [EvWriteStream (Path.join folderPath n)]
                             ++ [EvMkdir (Path.dirname (Path.join folderPath n))])).
  split; [ | split ].
  - cbn [cloneCloudRepo type name path].
    unfold bind at 1. rewrite existsSync_unchanged.
    unfold exists_at. rewrite Hres, Hfree. cbn [negb].
    unfold bind at 1.
    unfold getFileContentFromS3, try_catch, bind at 1.
    unfold s3_send_GetObject, bind at 1, emit at 1. rewrite Hbody.
    unfold ret at 1. unfold bind at 1.
    unfold pipeToFile, bind at 1, emit at 1. cbn [fs log fst snd].
    rewrite Hres, Hwrite. unfold ret at 1.
    unfold path_dirname, bind at 1, ret at 1.
    unfold mkdir_recursive, bind at 1, emit. cbn [fs log].
    rewrite (segments_dirname_join _ _ Habs Hname), (mkdirp_existing _ _ _ Hdir).
    rewrite <- !app_assoc. reflexivity.
  - cbn [fs]. intros q Hq. eapply write_frame; eassumption.
  - cbn [fs]. intros names leaf Hlead.
    inversion Hlead as [ h0 | s rest h0 cs c n0 Ht Hch ]; subst; [ | discriminate ].
    exists (FFile (concat chunks)). split.
    + eapply write_find, Hwrite.
    + exists chunks. split; [ exact Hbody | reflexivity ].
Qed.

(** The children of a folder, one after the other, into a directory where
    their names are free. *)
Lemma clone_children_into_free_place destinationPath cs :
  Forall (clones_into_free_place s3 bucketName) cs ->
  NoDup (map name cs) ->
  (forall c, In c cs -> Path.valid_name (name c) = true) ->
  JS.starts_with_slash destinationPath = true ->
  forall w es,
    FS.find (Path.segments destinationPath) (fs w) = Some (FDir es) ->
    (forall c, In c cs ->
               FS.find (Path.segments destinationPath ++ [name c]) (fs w) = None) ->
    exists w',
      forEach (fun child => cloneCloudRepo s3 child destinationPath bucketName) cs w
      = (Resolved tt, w')
      /\ (forall q, apart q (Path.segments destinationPath) ->
                    FS.find q (fs w') = FS.find q (fs w))
      /\ (forall s q, ~ In s (map name cs) ->
                      FS.find (Path.segments destinationPath ++ s :: q) (fs w')
                      = FS.find (Path.segments destinationPath ++ s :: q) (fs w))
      /\ (forall c names n,
             In c cs -> leads_to names c n ->
             exists x,
               FS.find (Path.segments destinationPath ++ name c :: names) (fs w')
               = Some x
               /\ materialized s3 bucketName n x).
Proof.
  intros Hall. induction Hall as [| c cs Hc _ IH]; intros Hnd Hvalid Habs w es Hdir Hfree.
  - exists w. cbn. repeat split; auto. intros c names n [].
  - cbn [map] in Hnd. inversion Hnd as [ | ? ? Hfirst Hrest ]; subst.
    destruct (Hc destinationPath w es Habs (Hvalid c (or_introl eq_refl)) Hdir
                (Hfree c (or_introl eq_refl)))
      as (w1 & Hrun1 & Hframe1 & Himage1).
    assert (Hother : forall s q, s <> name c ->
                       FS.find (Path.segments destinationPath ++ s :: q) (fs w1)
                       = FS.find (Path.segments destinationPath ++ s :: q) (fs w)).
    { intros s q Hs. apply Hframe1. apply apart_siblings, Hs. }
    destruct (keeps_dir _ _ _ _ (cloneCloudRepo_grows s3 c _ _ _ _ _ Hrun1) Hdir)
      as (es1 & Hdir1).
    destruct (IH Hrest (fun x Hx => Hvalid x (or_intror Hx)) Habs w1 es1 Hdir1)
      as (w' & Hrun & Hframe & Hnames & Himage).
    { intros x Hx. rewrite Hother; [ apply Hfree; right; exact Hx | ].
      intros E. apply Hfirst. rewrite <- E. apply in_map, Hx. }
    exists w'. split; [ | split; [ | split ] ].
    + cbn [forEach]. unfold bind. rewrite Hrun1. exact Hrun.
    + intros q Hq. rewrite (Hframe q Hq). apply Hframe1, apart_below, Hq.
    + intros s q Hs. cbn [map] in Hs.
      rewrite Hnames by (intros Hin; apply Hs; right; exact Hin).
      apply Hother. intros E. apply Hs. left. symmetry. exact E.
    + intros x names n [<- | Hx] Hlead.
      * destruct (Himage1 _ _ Hlead) as (y & Hy & Hm). exists y.
        split; [ | exact Hm ]. rewrite Hnames; assumption.
      * eapply Himage; eassumption.
Qed.

Lemma clone_folder_into_free_place n p m cs :
  Forall (clones_into_free_place s3 bucketName) cs ->
  NoDup (map name cs) ->
  (forall c, In c cs -> Path.valid_name (name c) = true) ->
  clones_into_free_place s3 bucketName (HNode n p TFolder m (Some cs)).
Proof.
  intros Hall Hnd Hvalid folderPath w es Habs Hname Hparent Hfree. cbn [name] in *.
  destruct (segments_join _ _ Habs Hname) as [Hres Habs'].
  destruct (mkdirp_child _ n _ _ Hparent Hfree) as (disk1 & Hmk).
  pose proof (mkdirp_new _ _ _ Hfree Hmk) as Hempty.
  set (w1 := World disk1 (log w ++ [EvMkdir (Path.join folderPath n)])).
  destruct (clone_children_into_free_place (Path.join folderPath n) cs Hall Hnd
              Hvalid Habs' w1 [])
    as (w' & Hrun & Hframe & _ & Himage).
  { cbn [fs w1]. rewrite Hres. exact Hempty. }
  { intros c _. cbn [fs w1]. rewrite Hres, find_app, Hempty. reflexivity. }
  exists w'. split; [ | split ].
  - cbn [cloneCloudRepo type name path children].
    unfold bind at 1. rewrite existsSync_unchanged.
    unfold exists_at. rewrite Hres, Hfree. cbn [negb].
    unfold bind at 1, mkdir_recursive, bind at 1, emit. cbn [fs log].
    rewrite Hres, Hmk. exact Hrun.
  - intros q Hq. rewrite Hframe by (rewrite Hres; exact Hq).
    cbn [fs w1]. eapply mkdirp_frame; eassumption.
  - intros names leaf Hlead.
    inversion Hlead as [ h0 | s rest h0 cs0 c n0 Ht Hch Hin Hn Hrest ]; subst.
    + destruct (keeps_dir disk1 (fs w') (Path.segments folderPath ++ [n]) [])
        as (es' & Hdir').
      * change (grows w1 w').
        eapply (preserves_forEach grows grows_refl grows_trans); [ | exact Hrun ].
        intros c _. apply cloneCloudRepo_grows.
      * exact Hempty.
      * exists (FDir es'). split; [ exact Hdir' | ]. exists es'. reflexivity.
    + cbn [children] in Hch. injection Hch as <-.
      destruct (Himage _ _ _ Hin Hrest) as (x & Hx & Hm).
      exists x. split; [ | exact Hm ].
      rewrite Hres, <- app_assoc in Hx. exact Hx.
Qed.

Lemma cloneable_clones c :
  cloneable s3 bucketName c -> clones_into_free_place s3 bucketName c.
Proof.
  induction c as [n p t m | n p t m cs IH] using hnode_ind'; intros C;
    inversion C; subst.
  - eapply clone_file_into_free_place; eassumption.
  - apply clone_folder_into_free_place; auto.
    rewrite Forall_forall in *. auto.
Qed.

End CloneFresh.

(** ** Completeness of a clone into a free place *)

Section CloneComplete.

Variable s3 : object_store.
Variable bucketName : string.

Lemma prefixb_snoc_in at_ x : forall parts,
    prefixb (at_ ++ [x]) parts = true -> In x parts.
Proof.
  induction at_ as [| a at_ IH]; intros [| y parts]; cbn; try discriminate.
  - destruct (String.eqb_spec x y) as [-> | _]; [ auto | discriminate ].
  - intros H. apply andb_prop in H. right. apply IH, H.
Qed.

Lemma cloneable_built seen hierarchy : forall at_,
    well_typed hierarchy ->
    covered seen at_ hierarchy ->
    every_leaf (fun leaf => exists chunks,
                    s3 bucketName (path leaf) = S3Body chunks true) hierarchy ->
    (forall parts, In parts seen -> plain parts) ->
    cloneable s3 bucketName hierarchy.
Proof.
  induction hierarchy as [n p t m | n p t m cs IH] using hnode_ind';
    intros at_ W C E Hseen; inversion W; subst.
  - inversion E as [ ? ? ? ? (chunks & Hbody) | ]; subst.
    econstructor. exact Hbody.
  - inversion C as [ | ? ? ? ? ? ? Hnd Hprov Hsub ]; subst.
    inversion E as [ | ? ? ? ? ? Hleaves ]; subst.
    rewrite Forall_forall in IH. constructor; [ exact Hnd | | ].
    + intros c Hc. destruct (Hprov c Hc) as (parts & Hin & Hpre).
      pose proof (Hseen _ Hin) as Hplain. unfold plain in Hplain.
      rewrite Forall_forall in Hplain. apply Hplain.
      eapply prefixb_snoc_in, Hpre.
    + intros c Hc. eapply IH; eauto.
Qed.

Lemma segments_destination segs : forall p,
    JS.starts_with_slash p = true -> plain segs ->
    Path.segments (fold_left Path.join segs p) = Path.segments p ++ segs.
Proof.
  induction segs as [| s segs IH]; intros p Habs Hsegs; cbn [fold_left].
  - rewrite app_nil_r. reflexivity.
  - inversion Hsegs as [ | ? ? Hs Hrest ]; subst.
    destruct (segments_join _ _ Habs Hs) as [Hres Habs'].
    rewrite (IH _ Habs' Hrest), Hres, <- app_assoc. reflexivity.
Qed.

Lemma leads_to_split pre : forall rest h n,
    leads_to (pre ++ rest) h n ->
    exists mid, leads_to pre h mid /\ leads_to rest mid n.
Proof.
  induction pre as [| s pre IH]; intros rest h n H; cbn in *.
  - exists h. split; [ constructor | exact H ].
  - inversion H as [ | s0 rest0 h0 cs c n0 Ht Hch Hin Hname Hrest ]; subst.
    destruct (IH _ _ _ Hrest) as (mid & Hmid & Hn).
    exists mid. split; [ econstructor; eauto | exact Hn ].
Qed.

(** C2, as the code has it.  Let the listing yield a hierarchy.
    - Whenever its clone resolves, there is an entry (a regular file or a
      directory) at the destination of every key of the listing and of every
      proper prefix of its segments.
    - When moreover the segments of no key of the listing are a prefix of,
      or equal to, those of an earlier key, the segments of every key are
      proper names, every object can be retrieved in full, and the clone
      goes into an existing directory (given by an absolute path) that holds
      nothing under the name of the repository, a proper name, then the
      clone resolves, at the destination of every key there is a regular
      file holding the bytes of its object, and at the destination of every
      proper prefix there is a directory. *)
Theorem cloneCloudRepo_complete friendlyName contents hierarchy folderPath w :
  Bucket.getBucketHierarchy friendlyName (Some contents) = Resolved hierarchy ->
  (forall w',
      cloneCloudRepo s3 hierarchy folderPath bucketName w = (Resolved tt, w') ->
      forall key,
        In key contents ->
        exists_at (fs w') (destination folderPath friendlyName (JS.split key)) = true
        /\ forall pre,
            proper_prefix pre (JS.split key) ->
            exists_at (fs w') (destination folderPath friendlyName pre) = true)
  /\ (fresh_listing contents = true ->
      (forall key, In key contents ->
                   forallb Path.valid_name (JS.split key) = true
                   /\ exists chunks, s3 bucketName key = S3Body chunks true) ->
      Path.valid_name friendlyName = true ->
      JS.starts_with_slash folderPath = true ->
      (exists es, FS.find (Path.segments folderPath) (fs w) = Some (FDir es)) ->
      FS.find (Path.segments (Path.join folderPath friendlyName)) (fs w) = None ->
      exists w',
        cloneCloudRepo s3 hierarchy folderPath bucketName w = (Resolved tt, w')
        /\ forall key,
            In key contents ->
            (exists chunks,
                s3 bucketName key = S3Body chunks true
                /\ FS.find (Path.segments
                              (destination folderPath friendlyName (JS.split key)))
                           (fs w')
                   = Some (FFile (concat chunks)))
            /\ forall pre,
                proper_prefix pre (JS.split key) ->
                exists es,
                  FS.find (Path.segments (destination folderPath friendlyName pre))
                          (fs w')
                  = Some (FDir es)).
Proof.
  intros Hbuild. split.
  { intros w' Hrun. eapply cloneCloudRepo_reaches_keys; eassumption. }
  intros Hfresh Hkeys Hname Habs (es & Hdir) Hfree.
  destruct (getBucketHierarchy_root _ _ _ Hbuild) as (Hroot & _ & _).
  destruct (segments_join _ _ Habs Hname) as [Hres Habs'].
  assert (Hplain : forall key, In key contents -> plain (JS.split key)).
  { intros key Hin. apply Forall_forall. apply forallb_forall.
    apply (Hkeys key Hin). }
  assert (C : cloneable s3 bucketName hierarchy).
  { eapply cloneable_built with (at_ := []).
    - eapply insertAll_well_typed; [ apply root_well_typed | exact Hbuild ].
    - eapply getBucketHierarchy_covered; eassumption.
    - eapply insertAll_every_leaf; [ | | exact Hbuild ].
      + intros key fileName Hin. apply (Hkeys key Hin).
      + apply el_node. intros ? [].
    - intros parts Hin. apply in_map_iff in Hin. destruct Hin as (key & <- & Hin).
      apply Hplain. apply in_rev. exact Hin. }
  destruct (cloneable_clones s3 bucketName hierarchy C folderPath w es Habs)
    as (w' & Hrun & _ & Himage).
  { rewrite Hroot. exact Hname. }
  { exact Hdir. }
  { rewrite Hroot, <- Hres. exact Hfree. }
  exists w'. split; [ exact Hrun | ].
  intros key Hin.
  pose proof (insertAll_leads _ _ _ (root_well_typed friendlyName) Hbuild key Hin)
    as Hlead.
  assert (Hdest : forall segs,
             plain segs ->
             Path.segments (destination folderPath friendlyName segs)
             = Path.segments folderPath ++ name hierarchy :: segs).
  { intros segs Hsegs. unfold destination.
    rewrite (segments_destination _ _ Habs' Hsegs), Hres, Hroot, <- app_assoc.
    reflexivity. }
  split.
  - destruct (Himage _ _ Hlead) as (x & Hx & chunks & Hbody & ->).
    exists chunks. split; [ exact Hbody | ].
    rewrite (Hdest _ (Hplain key Hin)). exact Hx.
  - intros pre (rest & Hrest & Hsplit).
    assert (Hpre : plain pre).
    { pose proof (Hplain key Hin) as Hk. rewrite Hsplit in Hk.
      apply Forall_app in Hk. apply Hk. }
    rewrite Hsplit in Hlead.
    destruct (leads_to_split _ _ _ _ Hlead) as (mid & Hmid & Hbelow).
    destruct (Himage _ _ Hmid) as (x & Hx & Hm).
    assert (Hfolder : type mid = TFolder).
    { inversion Hbelow; subst; [ contradiction | assumption ]. }
    unfold materialized in Hm. rewrite Hfolder in Hm. destruct Hm as (es' & ->).
    exists es'. rewrite (Hdest _ Hpre). exact Hx.
Qed.

End CloneComplete.

(** ** The properties on the samples *)

Lemma concat_hash_computes : @computes Sample.concat_hash string_of_list_byte.
Proof.
  assert (Hfold : forall (chunks : list bytes) (acc : bytes),
             fold_left (fun h chunk => h ++ chunk) chunks acc = acc ++ concat chunks).
  { induction chunks as [| c chunks IH]; intros acc; cbn [fold_left concat].
    - rewrite app_nil_r. reflexivity.
    - rewrite IH, <- app_assoc. reflexivity. }
  intros chunks. cbn [Sample.concat_hash update createHash digest_hex].
  rewrite Hfold. reflexivity.
Qed.

Lemma isFileModified_correct_witness :
  (exists b w',
      isFileModified (sha := Sample.concat_hash) Sample.one_object
        "bucket" "readme.txt" "/home/user/repo/readme.txt" Sample.cloned_world
      = (Resolved b, w')
      /\ fs w' = fs Sample.cloned_world
      /\ (b = false <->
          string_of_list_byte (concat [Sample.hello])
          = string_of_list_byte Sample.hello))
  /\ (exists b w',
         isFileModified (sha := Sample.concat_hash) Sample.one_object
           "bucket" "readme.txt" "/home/user/repo/readme.txt" Sample.stale_world
         = (Resolved b, w')
         /\ fs w' = fs Sample.stale_world
         /\ (b = false <->
             string_of_list_byte (concat [Sample.hello])
             = string_of_list_byte [Byte.x68]))
  /\ isFileModified (sha := Sample.concat_hash) Sample.one_object
       "bucket" "readme.txt" "/home/user/repo/readme.txt" Sample.fresh_world
     = (Resolved true, Sample.fresh_world).
Proof.
  split; [ | split ].
  - apply (proj1 (@isFileModified_correct Sample.concat_hash Sample.one_object
                    string_of_list_byte
                    "bucket" "readme.txt" "/home/user/repo/readme.txt"
                    Sample.cloned_world concat_hash_computes)
             [Sample.hello] Sample.hello);
      reflexivity.
  - apply (proj1 (@isFileModified_correct Sample.concat_hash Sample.one_object
                    string_of_list_byte
                    "bucket" "readme.txt" "/home/user/repo/readme.txt"
                    Sample.stale_world concat_hash_computes)
             [Sample.hello] [Byte.x68]);
      reflexivity.
  - apply (proj2 (@isFileModified_correct Sample.concat_hash Sample.one_object
                    string_of_list_byte
                    "bucket" "readme.txt" "/home/user/repo/readme.txt"
                    Sample.fresh_world concat_hash_computes)).
    reflexivity.
Defined.



Lemma cloneCloudRepo_cloned_is_untouched_witness :
  (exists evs,
      log (snd (cloneCloudRepo Sample.one_object Sample.repo_tree "/home/user"
                  "bucket" Sample.cloned_world))
      = log Sample.cloned_world ++ evs
      /\ forallb (fun e => negb (is_fetch_or_write e)) evs = true)
  /\ keeps_files (fs Sample.cloned_world)
       (fs (snd (cloneCloudRepo Sample.one_object Sample.repo_tree "/home/user"
                   "bucket" Sample.cloned_world))).
Proof.
  apply (cloneCloudRepo_cloned_is_untouched Sample.one_object Sample.repo_tree
           "/home/user" "bucket" Sample.cloned_world).
  repeat constructor.
Defined.

Lemma cloneCloudRepo_complete_witness :
  (exists_at
     (fs (snd (cloneCloudRepo Sample.ab_store Sample.ab_remote_tree "/home/user"
                 "bucket" Sample.fresh_world)))
     (destination "/home/user" "repo" (JS.split "b/c.txt")) = true
   /\ forall pre,
       proper_prefix pre (JS.split "b/c.txt") ->
       exists_at
         (fs (snd (cloneCloudRepo Sample.ab_store Sample.ab_remote_tree "/home/user"
                     "bucket" Sample.fresh_world)))
         (destination "/home/user" "repo" pre) = true)
  /\ exists w',
      cloneCloudRepo Sample.ab_store Sample.ab_remote_tree "/home/user" "bucket"
        Sample.fresh_world = (Resolved tt, w')
      /\ forall key,
          In key (Sample.ab_listing false) ->
          (exists chunks,
              Sample.ab_store "bucket" key = S3Body chunks true
              /\ FS.find (Path.segments (destination "/home/user" "repo" (JS.split key)))
                         (fs w')
                 = Some (FFile (concat chunks)))
          /\ forall pre,
              proper_prefix pre (JS.split key) ->
              exists es,
                FS.find (Path.segments (destination "/home/user" "repo" pre)) (fs w')
                = Some (FDir es).
Proof.
  pose proof (cloneCloudRepo_complete Sample.ab_store "bucket" "repo"
                (Sample.ab_listing false) Sample.ab_remote_tree "/home/user"
                Sample.fresh_world eq_refl) as [Hany Hfresh].
  split.
  - apply (Hany _ eq_refl). right. left. reflexivity.
  - apply Hfresh.
    + reflexivity.
    + intros key [<- | [<- | []]]; (split; [ reflexivity | ]); eexists; reflexivity.
    + reflexivity.
    + reflexivity.
    + eexists. reflexivity.
    + reflexivity.
Defined.

(** The listing [docs/] on an empty directory: the clone resolves, and what
    stands at the destination of the key is a directory. *)
Lemma clone_of_placeholder_is_a_directory :
  Bucket.getBucketHierarchy "repo" (Some ["docs/"]) = Resolved Sample.placeholder_tree
  /\ fst (cloneCloudRepo Sample.empty_store Sample.placeholder_tree "/home/user"
            "bucket" Sample.fresh_world) = Resolved tt
  /\ destination "/home/user" "repo" (JS.split "docs/") = "/home/user/repo/docs"
  /\ FS.find (Path.segments "/home/user/repo/docs")
       (fs (snd (cloneCloudRepo Sample.empty_store Sample.placeholder_tree
                   "/home/user" "bucket" Sample.fresh_world)))
     = Some (FDir []).
Proof. repeat split; vm_compute; reflexivity. Qed.

Lemma fetch_failure_is_swallowed_witness :
  (forall localFilePath,
      getFileContentFromS3 Sample.empty_store (path Sample.missing) localFilePath
        "bucket" Sample.fresh_world
      = (Resolved None,
         World (fs Sample.fresh_world)
               (log Sample.fresh_world
                  ++ [EvGetObject "bucket" (path Sample.missing)]
                  ++ [EvConsoleError "Error getting file content from S3:"])))
  /\ exists evs,
      pullCloudRepo (sha := Sample.concat_hash) Sample.empty_store Sample.missing
        "/home/user" "bucket" Sample.fresh_world
      = (Resolved tt, World Sample.fresh_disk (log Sample.fresh_world ++ evs))
      /\ existsb (fun e => match e with EvWriteStream _ => true | _ => false end)
                 evs = false.
Proof.
  pose proof (proj2 (@fetch_failure_is_swallowed Sample.concat_hash
                       Sample.empty_store Sample.missing "/home/user" "bucket"
                       Sample.fresh_world) eq_refl)
    as [Hget Hpull].
  split; [ exact Hget | ].
  apply (Hpull eq_refl Sample.fresh_disk); [ left | ]; reflexivity.
Defined.

(** The object [gone.txt] cannot be retrieved: the pull resolves with the
    disk as it was, and the clone fails on [path.dirname(null)], not on the
    error of the store. *)
Lemma fetch_failure_not_reported :
  fst (pullCloudRepo (sha := Sample.concat_hash) Sample.empty_store Sample.missing
         "/home/user" "bucket" Sample.fresh_world) = Resolved tt
  /\ fs (snd (pullCloudRepo (sha := Sample.concat_hash) Sample.empty_store
                Sample.missing "/home/user" "bucket" Sample.fresh_world))
     = Sample.fresh_disk
  /\ fst (cloneCloudRepo Sample.empty_store Sample.missing "/home/user" "bucket"
            Sample.fresh_world)
     = Rejected (TypeError "The path argument must be of type string. Received null")
  /\ fst (getFileContentFromS3 Sample.empty_store "gone.txt" "/home/user/gone.txt"
            "bucket" Sample.fresh_world) = Resolved None.
Proof. repeat split; vm_compute; reflexivity. Qed.

Lemma hierarchy_root_witness :
  (path Sample.ab_remote_tree = "" /\ name Sample.ab_remote_tree = "repo"
   /\ type Sample.ab_remote_tree = TFolder)
  /\ path Sample.ab_local_tree = "/home/user/repo".
Proof.
  split.
  - apply (proj1 hierarchy_root "repo" (Sample.ab_listing false)). reflexivity.
  - apply (proj2 hierarchy_root 3 (Sample.ab_disk Sample.hello Sample.hello false)
             "/home/user/repo").
    reflexivity.
Defined.

(** The root built for the directory [/home/user/repo] carries that path. *)
Lemma local_root_path_is_not_empty :
  Folder.getFolderHierarchy 3 (Sample.ab_disk Sample.hello Sample.hello false)
    "/home/user/repo" = Some (Resolved Sample.ab_local_tree)
  /\ path Sample.ab_local_tree = "/home/user/repo"
  /\ String.eqb (path Sample.ab_local_tree) "" = false.
Proof. repeat split; vm_compute; reflexivity. Qed.

Lemma ab_disk_wf : FS.wf (Sample.ab_disk Sample.hello Sample.hello false).
Proof.
  unfold Sample.ab_disk.
  repeat (first
            [ apply FS.wf_file
            | apply FS.wf_dir;
              [ repeat constructor; cbn; intuition discriminate
              | cbn; intros k Hk; intuition (subst; reflexivity)
              | cbn; intros k v Hkv; intuition;
                match goal with H : (_, _) = (_, _) |- _ => injection H as <- <- end ] ]).
Defined.

Lemma hierarchy_unique_names_witness :
  unique_names Sample.ab_remote_tree /\ unique_names Sample.ab_local_tree.
Proof.
  split.
  - apply (proj1 (proj2 hierarchy_unique_names) "repo" (Sample.ab_listing false));
      reflexivity.
  - apply (proj2 (proj2 hierarchy_unique_names) 3
             (Sample.ab_disk Sample.hello Sample.hello false) "/home/user/repo").
    + exact ab_disk_wf.
    + reflexivity.
Defined.

(** The listing [a/b], [a]: the root gets a folder and a file both named
    [a]. *)
Lemma duplicate_child_names :
  exists hierarchy cs,
    Bucket.getBucketHierarchy "repo" (Some ["a/b"; "a"]) = Resolved hierarchy
    /\ children hierarchy = Some cs
    /\ map name cs = ["a"; "a"]
    /\ map type cs = [TFolder; TFile]
    /\ ~ unique_names hierarchy.
Proof.
  do 2 eexists. split; [ vm_compute; reflexivity | ].
  split; [ reflexivity | ]. split; [ reflexivity | ]. split; [ reflexivity | ].
  intros U. inversion U as [ | n p t m cs Hnd _ ]; subst.
  cbn in Hnd. inversion Hnd as [ | x l Hx _ ]; subst. apply Hx. left. reflexivity.
Qed.


(** * Further properties of the materializers *)

Section CloneAgain.

Variable s3 : object_store.
Variable s3_later : object_store.
Variable bucketName : string.

Lemma forEach_unchanged A (body : A -> M unit) xs w :
  (forall x, In x xs -> body x w = (Resolved tt, w)) ->
  forEach body xs w = (Resolved tt, w).
Proof.
  induction xs as [| x xs IH]; intros H; cbn [forEach]; [ reflexivity | ].
  unfold bind. rewrite (H x (or_introl eq_refl)).
  apply IH. intros y Hy. apply H. right. exact Hy.
Qed.

Lemma cloneCloudRepo_present hierarchy folderPath w :
  exists_at (fs w) (Path.join folderPath (name hierarchy)) = true ->
  type hierarchy = TFile ->
  cloneCloudRepo s3_later hierarchy folderPath bucketName w = (Resolved tt, w).
Proof.
  destruct hierarchy as [n p t m cs]. cbn [name type]. intros Hthere ->.
  cbn [cloneCloudRepo type name]. unfold bind. rewrite existsSync_unchanged, Hthere.
  reflexivity.
Qed.

(** Once a clone resolved, cloning again over any later state of the disk
    that kept its entries does nothing, whatever the store then holds. *)
Lemma cloneCloudRepo_again hierarchy : forall folderPath w w',
    cloneCloudRepo s3 hierarchy folderPath bucketName w = (Resolved tt, w') ->
    forall w2,
      keeps (fs w') (fs w2) ->
      cloneCloudRepo s3_later hierarchy folderPath bucketName w2 = (Resolved tt, w2).
Proof.
  induction hierarchy as [n p t m | n p t m cs IH] using hnode_ind';
    intros folderPath w w' Hrun w2 Hkeeps; destruct t.
  - apply cloneCloudRepo_present; [ | reflexivity ].
    eapply keeps_exists_at; [ exact Hkeeps | ].
    eapply cloneCloudRepo_file_made with (2 := Hrun); reflexivity.
  - destruct (fun E => cloneCloudRepo_folder_run s3 _ _ _ _ _ E Hrun)
      as (cs' & w1 & Hcs & _); [ reflexivity | discriminate ].
  - apply cloneCloudRepo_present; [ | reflexivity ].
    eapply keeps_exists_at; [ exact Hkeeps | ].
    eapply cloneCloudRepo_file_made with (2 := Hrun); reflexivity.
  - destruct (fun E => cloneCloudRepo_folder_run s3 _ _ _ _ _ E Hrun)
      as (cs' & w1 & Hcs & Hmade & Hloop); [ reflexivity | ].
    cbn [children name] in *. injection Hcs as <-.
    assert (Hgrows : grows w1 w').
    { eapply (preserves_forEach grows grows_refl grows_trans); [ | exact Hloop ].
      intros c _. apply cloneCloudRepo_grows. }
    cbn [cloneCloudRepo type name children].
    unfold bind at 1. rewrite existsSync_unchanged.
    rewrite (keeps_exists_at _ _ _ Hkeeps (keeps_exists_at _ _ _ Hgrows Hmade)).
    cbn [negb]. unfold bind at 1, ret at 1.
    apply forEach_unchanged. intros c Hc.
    destruct (forEach_resolved grows grows_refl grows_trans _ _ cs
                (fun c => cloneCloudRepo_grows s3 c _ _) _ _ Hloop c Hc)
      as (wa & wb & Hcrun & _ & Hafter).
    rewrite Forall_forall in IH.
    eapply (IH c Hc); [ exact Hcrun | ].
    eapply keeps_trans; [ exact Hafter | exact Hkeeps ].
Qed.

(** X1. A clone that resolved can be run again over the world it left,
    even against a store that has changed in between: the second run
    resolves and leaves the disk and the log exactly as they were (no
    request, no directory made, no file opened). *)
Theorem cloneCloudRepo_twice hierarchy folderPath w w' :
  cloneCloudRepo s3 hierarchy folderPath bucketName w = (Resolved tt, w') ->
  cloneCloudRepo s3_later hierarchy folderPath bucketName w' = (Resolved tt, w').
Proof.
  intros Hrun. eapply cloneCloudRepo_again; [ exact Hrun | apply keeps_refl ].
Qed.

(** X2. A download that breaks off is never repaired.  For a file node
    whose body stream fails after delivering [chunks], cloned into a free
    name of an existing directory: the clone is rejected with the
    [TypeError] of [path.dirname(null)], the file is left holding the bytes
    delivered so far, and every later clone of the node (whatever the store
    then answers) resolves without touching it. *)
Theorem cloneCloudRepo_keeps_partial_file hierarchy folderPath w chunks es :
  type hierarchy = TFile ->
  s3 bucketName (path hierarchy) = S3Body chunks false ->
  JS.starts_with_slash folderPath = true ->
  Path.valid_name (name hierarchy) = true ->
  FS.find (Path.segments folderPath) (fs w) = Some (FDir es) ->
  FS.find (Path.segments folderPath ++ [name hierarchy]) (fs w) = None ->
  exists w1,
    cloneCloudRepo s3 hierarchy folderPath bucketName w
    = (Rejected (TypeError "The path argument must be of type string. Received null"),
       w1)
    /\ FS.find (Path.segments (Path.join folderPath (name hierarchy))) (fs w1)
       = Some (FFile (concat chunks))
    /\ cloneCloudRepo s3_later hierarchy folderPath bucketName w1 = (Resolved tt, w1).
Proof.
  destruct hierarchy as [n p t m cs]. cbn [type name path].
  intros -> Hbody Habs Hname Hparent Hfree.
  destruct (segments_join _ _ Habs Hname) as [Hres _].
  destruct (write_child _ n (concat chunks) _ _ Hparent Hfree) as (disk' & Hwrite).
  eexists. split; [ | split ].
  - cbn [cloneCloudRepo type name path].
    unfold bind at 1. rewrite existsSync_unchanged.
    unfold exists_at. rewrite Hres, Hfree. cbn [negb].
    unfold bind at 1.
    unfold getFileContentFromS3, try_catch, bind at 1.
    unfold s3_send_GetObject, bind at 1, emit at 1. rewrite Hbody.
    unfold ret at 1. unfold bind at 1.
    unfold pipeToFile, bind at 1, emit at 1. cbn [fs log fst snd].
    rewrite Hres, Hwrite.
    unfold console_error, bind at 1, emit at 1, ret at 1. cbn [fs log].
    unfold path_dirname, bind at 1, throw. reflexivity.
  - cbn [fs]. rewrite Hres. eapply write_find, Hwrite.
  - apply cloneCloudRepo_present; [ | reflexivity ].
    unfold exists_at. cbn [fs name]. rewrite Hres, (write_find _ _ _ _ Hwrite).
    reflexivity.
Qed.

End CloneAgain.

(** ** What the materializers ask the store for *)

Section Requests.

Context {sha : Sha256}.
Variable s3 : object_store.
Variable P : string -> string -> Prop.

Lemma asks_only_refl w : asks_only P w w.
Proof. exists []. rewrite app_nil_r. split; [ reflexivity | intros b k [] ]. Qed.

Lemma asks_only_trans a b c : asks_only P a b -> asks_only P b c -> asks_only P a c.
Proof.
  intros (e1 & L1 & H1) (e2 & L2 & H2). exists (e1 ++ e2).
  rewrite L2, L1, app_assoc. split; [ reflexivity | ].
  intros bk k Hin. apply in_app_or in Hin. destruct Hin; eauto.
Qed.

Ltac asks_step :=
  first [ apply (preserves_ret (asks_only P) asks_only_refl)
        | apply (preserves_throw (asks_only P) asks_only_refl)
        | apply (preserves_bind (asks_only P) asks_only_trans)
        | apply (preserves_try_catch (asks_only P) asks_only_trans)
        | apply (preserves_if (asks_only P)) ].

Lemma emit_asks e :
  (forall b k, e = EvGetObject b k -> P b k) -> preserves (asks_only P) (emit e).
Proof.
  intros He w r w' [= _ <-]. exists [e]. split; [ reflexivity | ].
  intros b k [-> | []]. apply He. reflexivity.
Qed.

Lemma same_log_asks (w w' : world) : log w' = log w -> asks_only P w w'.
Proof.
  intros H. exists []. rewrite app_nil_r. split; [ exact H | intros b k [] ].
Qed.

Lemma mkdir_recursive_asks p : preserves (asks_only P) (mkdir_recursive p).
Proof.
  unfold mkdir_recursive. asks_step; [ apply emit_asks; discriminate | ].
  intros _ w r w'. destruct (FS.mkdirp _ _); intros [= _ <-];
    apply same_log_asks; reflexivity.
Qed.

Lemma s3_send_GetObject_asks bucketName key :
  P bucketName key -> preserves (asks_only P) (s3_send_GetObject s3 bucketName key).
Proof.
  intros HP. unfold s3_send_GetObject. asks_step.
  - apply emit_asks. intros b k [= <- <-]. exact HP.
  - intros _. destruct (s3 bucketName key); asks_step.
Qed.

Lemma getFileContentFromS3_asks filePath localFilePath bucketName :
  P bucketName filePath ->
  preserves (asks_only P) (getFileContentFromS3 s3 filePath localFilePath bucketName).
Proof.
  intros HP. unfold getFileContentFromS3. asks_step.
  - asks_step; [ apply s3_send_GetObject_asks, HP | ].
    intros data. asks_step; [ | intros _; asks_step ].
    unfold pipeToFile. asks_step; [ apply emit_asks; discriminate | ].
    intros _ w r w'. destruct (FS.write _ _ _); intros [= _ <-];
      apply same_log_asks; reflexivity.
  - intros e. asks_step; [ apply emit_asks; discriminate | intros _; asks_step ].
Qed.

Lemma isFileModified_asks bucketName filePath localFilePath :
  P bucketName filePath ->
  preserves (asks_only P) (isFileModified s3 bucketName filePath localFilePath).
Proof.
  intros HP w r w'.
  unfold isFileModified, calculateCloudFileHash, calculateLocalFileHash,
    hashBody, try_catch, bind, s3_send_GetObject, bind, existsSync, emit,
    console_error, emit, ret, throw.
  destruct (FS.find (Path.segments localFilePath) (fs w)) as [[data | es] |] eqn:Hf;
    destruct (s3 bucketName filePath) as [| chunks [|]]; cbn;
    rewrite ?Hf; intros [= _ <-]; cbn [log];
    try (apply asks_only_refl).
  all: eexists; rewrite <- ?app_assoc; (split; [ reflexivity | ]).
  all: intros b k Hin; cbn in Hin;
    repeat (destruct Hin as [Hin | Hin]; [ try discriminate | ]);
    try contradiction; injection Hin as <- <-; exact HP.
Qed.

Variable keys : list string.
Variable bucketName : string.
Hypothesis P_keys : forall key, In key keys -> P bucketName key.

Lemma cloneCloudRepo_asks hierarchy : forall folderPath,
    paths_within keys hierarchy ->
    preserves (asks_only P) (cloneCloudRepo s3 hierarchy folderPath bucketName).
Proof.
  induction hierarchy as [n p t m | n p t m cs IH] using hnode_ind';
    intros folderPath W; inversion W; subst;
    cbn [cloneCloudRepo type name path children];
    asks_step; try (apply existsSync_preserves, asks_only_refl); intros present.
  1, 3: asks_step; [ | asks_step ];
    asks_step; [ apply getFileContentFromS3_asks, P_keys; assumption | ];
    intros lp; asks_step; [ apply path_dirname_preserves, asks_only_refl | ];
    intros d; apply mkdir_recursive_asks.
  - asks_step; [ asks_step; [ apply mkdir_recursive_asks | asks_step ] | ].
    intros _. asks_step.
  - asks_step; [ asks_step; [ apply mkdir_recursive_asks | asks_step ] | ].
    intros _. apply (preserves_forEach (asks_only P) asks_only_refl asks_only_trans).
    intros c Hc. rewrite Forall_forall in IH. apply IH; auto.
Qed.

Lemma pullCloudRepo_asks hierarchy : forall folderPath,
    paths_within keys hierarchy ->
    preserves (asks_only P) (pullCloudRepo s3 hierarchy folderPath bucketName).
Proof.
  induction hierarchy as [n p t m | n p t m cs IH] using hnode_ind';
    intros folderPath W; inversion W; subst;
    cbn [pullCloudRepo type name path children];
    asks_step; try (apply existsSync_preserves, asks_only_refl);
    try (apply isFileModified_asks, P_keys; assumption); intros present.
  1, 3: asks_step; [ | asks_step ];
    asks_step; [ apply path_dirname_preserves, asks_only_refl | ];
    intros d; asks_step; [ apply mkdir_recursive_asks | ];
    intros _; asks_step;
    [ apply getFileContentFromS3_asks, P_keys; assumption | intros _; asks_step ].
  - asks_step; [ asks_step; [ apply mkdir_recursive_asks | asks_step ] | ].
    intros _. asks_step.
  - asks_step; [ asks_step; [ apply mkdir_recursive_asks | asks_step ] | ].
    intros _. apply (preserves_forEach (asks_only P) asks_only_refl asks_only_trans).
    intros c Hc. rewrite Forall_forall in IH. apply IH; auto.
Qed.

End Requests.

Lemma paths_within_built keys hierarchy :
  well_typed hierarchy ->
  every_leaf (fun leaf => In (path leaf) keys) hierarchy ->
  paths_within keys hierarchy.
Proof.
  induction hierarchy as [n p t m | n p t m cs IH] using hnode_ind';
    intros W E; inversion W; subst; inversion E; subst.
  - apply pw_file. assumption.
  - apply pw_folder. rewrite Forall_forall in IH. auto.
Qed.

Lemma getBucketHierarchy_paths_within friendlyName contents hierarchy :
  Bucket.getBucketHierarchy friendlyName (Some contents) = Resolved hierarchy ->
  paths_within contents hierarchy.
Proof.
  intros H. apply paths_within_built.
  - eapply insertAll_well_typed; [ apply root_well_typed | exact H ].
  - eapply insertAll_every_leaf; [ | | exact H ].
    + intros key fileName Hin. exact Hin.
    + apply el_node. intros ? [].
Qed.

(** X3. Cloning or pulling the hierarchy built from a listing asks the
    store for nothing but keys of that listing, in the bucket it was given:
    every [GetObject] logged during the run names that bucket and a key of
    the listing. *)
Theorem materializers_request_listed_keys {sha : Sha256} (s3 : object_store)
    friendlyName contents hierarchy folderPath bucketName w :
  Bucket.getBucketHierarchy friendlyName (Some contents) = Resolved hierarchy ->
  asks_only (fun b k => b = bucketName /\ In k contents) w
    (snd (cloneCloudRepo s3 hierarchy folderPath bucketName w))
  /\ asks_only (fun b k => b = bucketName /\ In k contents) w
       (snd (pullCloudRepo s3 hierarchy folderPath bucketName w)).
Proof.
  intros H. pose proof (getBucketHierarchy_paths_within _ _ _ H) as W. split.
  - destruct (cloneCloudRepo s3 hierarchy folderPath bucketName w) as [r w'] eqn:E.
    eapply (cloneCloudRepo_asks s3 _ contents bucketName); [ | exact W | exact E ].
    intros key Hin. split; [ reflexivity | exact Hin ].
  - destruct (pullCloudRepo s3 hierarchy folderPath bucketName w) as [r w'] eqn:E.
    eapply (pullCloudRepo_asks s3 _ contents bucketName); [ | exact W | exact E ].
    intros key Hin. split; [ reflexivity | exact Hin ].
Qed.

(** ** The materializers stay inside their destination *)

Section StayInside.

Context {sha : Sha256}.
Variable s3 : object_store.
Variable bucketName : string.

Lemma prefixb_trans a : forall b c,
    prefixb a b = true -> prefixb b c = true -> prefixb a c = true.
Proof.
  induction a as [| x a IH]; intros [| y b] [| z c]; cbn; try discriminate; auto.
  intros H1 H2. apply andb_prop in H1. apply andb_prop in H2.
  destruct H1 as [Hxy Hab]. destruct H2 as [Hyz Hbc].
  apply String.eqb_eq in Hxy. apply String.eqb_eq in Hyz. subst.
  rewrite String.eqb_refl. cbn. eapply IH; eassumption.
Qed.

(** [mkdir -p] changes lookups on the way to its path only. *)
Lemma mkdirp_off_path segs : forall n n' q,
    FS.mkdirp segs n = inr n' -> prefixb q segs = false ->
    FS.find q n' = FS.find q n.
Proof.
  induction segs as [| s rest IH]; intros [old | es] n' q H Hq; cbn in H;
    try discriminate.
  - injection H as <-. reflexivity.
  - destruct q as [| t q]; [ discriminate | ].
    cbn in Hq.
    destruct (FS.assoc s es) as [c |] eqn:Hs.
    + destruct (FS.mkdirp rest c) as [e | c'] eqn:Hc; [ discriminate | ].
      injection H as <-. apply (find_update_apart _ _ _ _ _ _ Hs). intros ->.
      rewrite String.eqb_refl in Hq. apply (IH _ _ _ Hc Hq).
    + destruct (FS.mkdirp rest (FDir [])) as [e | c'] eqn:Hc; [ discriminate | ].
      injection H as <-. destruct (String.eqb_spec t s) as [-> | Hne].
      * cbn. rewrite Hs, (assoc_app_fresh _ c' _ Hs).
        cbn in Hq. rewrite (IH _ _ _ Hc Hq).
        destruct q; [ discriminate | reflexivity ].
      * apply find_append_apart, Hne.
Qed.

Variable place : list string.

Lemma same_outside_refl w : same_outside place w w.
Proof. intros q _. reflexivity. Qed.

Lemma same_outside_trans a b c :
  same_outside place a b -> same_outside place b c -> same_outside place a c.
Proof. intros Hab Hbc q Hq. rewrite (Hbc q Hq). apply Hab, Hq. Qed.

Lemma same_outside_below s w w' :
  same_outside (place ++ [s]) w w' -> same_outside place w w'.
Proof. intros H q Hq. apply H, apart_below, Hq. Qed.

Lemma same_disk_outside (w w' : world) : fs w' = fs w -> same_outside place w w'.
Proof. intros H q _. rewrite H. reflexivity. Qed.

Lemma mkdir_recursive_outside p :
  prefixb (Path.segments p) place = true ->
  preserves (same_outside place) (mkdir_recursive p).
Proof.
  intros Hp w r w'. unfold mkdir_recursive, bind, emit. cbn.
  destruct (FS.mkdirp (Path.segments p) (fs w)) as [e | disk'] eqn:E;
    intros [= _ <-]; [ intros q _; reflexivity | ].
  intros q [Hq _]. cbn [fs]. apply (mkdirp_off_path _ _ _ _ E).
  destruct (prefixb q (Path.segments p)) eqn:Hpre; [ | reflexivity ].
  rewrite (prefixb_trans _ _ _ Hpre Hp) in Hq. discriminate.
Qed.

Lemma getFileContentFromS3_outside filePath localFilePath :
  Path.segments localFilePath = place ->
  preserves (same_outside place)
            (getFileContentFromS3 s3 filePath localFilePath bucketName).
Proof.
  intros Hplace w r w'.
  unfold getFileContentFromS3, try_catch, bind, s3_send_GetObject, bind,
    pipeToFile, bind, emit, console_error, emit, ret, throw.
  destruct (s3 bucketName filePath) as [| chunks ends]; cbn;
    [ intros [= _ <-]; intros q _; reflexivity | ].
  destruct (FS.write (Path.segments localFilePath) (concat chunks) (fs w))
    as [code | disk'] eqn:E;
    [ intros [= _ <-]; intros q _; reflexivity | ].
  destruct ends; intros [= _ <-]; intros q Hq; cbn [fs];
    rewrite <- Hplace in Hq; apply (write_frame _ _ _ _ _ E Hq).
Qed.

End StayInside.

Section StayInsideTree.

Context {sha : Sha256}.
Variable s3 : object_store.
Variable bucketName : string.

Ltac outside_step place :=
  first [ apply (preserves_ret (same_outside place) (same_outside_refl place))
        | apply (preserves_throw (same_outside place) (same_outside_refl place))
        | apply (preserves_bind (same_outside place) (same_outside_trans place))
        | apply (preserves_if (same_outside place)) ].

Lemma prefixb_self_snoc a s : prefixb a (a ++ [s]) = true.
Proof. apply prefixb_app. Qed.

Lemma prefixb_refl a : prefixb a a = true.
Proof. rewrite <- (app_nil_r a) at 2. apply prefixb_app. Qed.

Lemma clone_file_outside n p m cs folderPath :
  Path.valid_name n = true ->
  JS.starts_with_slash folderPath = true ->
  preserves (same_outside (Path.segments folderPath ++ [n]))
            (cloneCloudRepo s3 (HNode n p TFile m cs) folderPath bucketName).
Proof.
  intros Hn Habs w r w'. destruct (segments_join _ _ Habs Hn) as [Hres _].
  set (place := Path.segments folderPath ++ [n]).
  cbn [cloneCloudRepo type name path].
  unfold bind at 1. rewrite existsSync_unchanged.
  destruct (exists_at (fs w) (Path.join folderPath n)); cbn [negb];
    [ intros [= _ <-]; apply same_outside_refl | ].
  unfold bind at 1.
  destruct (getFileContentFromS3 s3 p (Path.join folderPath n) bucketName w)
    as [[[lp |] | e | e] w1] eqn:G;
    pose proof (getFileContentFromS3_outside s3 bucketName place p _ Hres _ _ _ G)
      as Hfetch.
  - apply getFileContentFromS3_written in G. destruct G as [-> _].
    unfold path_dirname, bind at 1, ret at 1. intros Hmk.
    eapply same_outside_trans; [ exact Hfetch | ].
    eapply mkdir_recursive_outside; [ | exact Hmk ].
    rewrite (segments_dirname_join _ _ Habs Hn). apply prefixb_self_snoc.
  - cbn. intros [= _ <-]. exact Hfetch.
  - intros [= _ <-]. exact Hfetch.
  - intros [= _ <-]. exact Hfetch.
Qed.

Lemma pull_file_outside n p m cs folderPath :
  Path.valid_name n = true ->
  JS.starts_with_slash folderPath = true ->
  preserves (same_outside (Path.segments folderPath ++ [n]))
            (pullCloudRepo s3 (HNode n p TFile m cs) folderPath bucketName).
Proof.
  intros Hn Habs. destruct (segments_join _ _ Habs Hn) as [Hres _].
  set (place := Path.segments folderPath ++ [n]).
  cbn [pullCloudRepo type name path].
  outside_step place.
  - intros w r w' H. apply same_disk_outside.
    eapply isFileModified_reads_only, H.
  - intros [|]; [ | outside_step place ].
    cbn [path_dirname].
    change (preserves (same_outside place)
              (mkdir_recursive (Path.dirname (Path.join folderPath n)) ;;
               (getFileContentFromS3 s3 p (Path.join folderPath n) bucketName ;;
                ret tt))).
    outside_step place.
    + apply mkdir_recursive_outside.
      rewrite (segments_dirname_join _ _ Habs Hn). apply prefixb_self_snoc.
    + intros _. outside_step place;
        [ apply getFileContentFromS3_outside, Hres | intros _; outside_step place ].
Qed.

Lemma folder_outside (walk : hnode -> string -> M unit) n folderPath cs :
  Path.valid_name n = true ->
  JS.starts_with_slash folderPath = true ->
  (forall c, In c cs ->
             preserves (same_outside
                          (Path.segments (Path.join folderPath n) ++ [name c]))
                       (walk c (Path.join folderPath n))) ->
  preserves (same_outside (Path.segments folderPath ++ [n]))
            (present <- existsSync (Path.join folderPath n) ;;
             (if negb present then mkdir_recursive (Path.join folderPath n)
              else ret tt) ;;
             forEach (fun child => walk child (Path.join folderPath n)) cs).
Proof.
  intros Hn Habs Hcs. destruct (segments_join _ _ Habs Hn) as [Hres _].
  set (place := Path.segments folderPath ++ [n]).
  outside_step place;
    [ apply existsSync_preserves, same_outside_refl | intros present ].
  outside_step place.
  - outside_step place; [ | outside_step place ].
    apply mkdir_recursive_outside. rewrite Hres. apply prefixb_refl.
  - intros _. apply preserves_forEach;
      [ apply same_outside_refl | apply same_outside_trans | ].
    intros c Hc w r w' H. apply (same_outside_below _ (name c)).
    unfold place. rewrite <- Hres. eapply Hcs; eassumption.
Qed.

Lemma folder_empty_outside n folderPath :
  Path.valid_name n = true ->
  JS.starts_with_slash folderPath = true ->
  preserves (same_outside (Path.segments folderPath ++ [n]))
            (present <- existsSync (Path.join folderPath n) ;;
             (if negb present then mkdir_recursive (Path.join folderPath n)
              else ret tt) ;;
             (throw not_iterable : M unit)).
Proof.
  intros Hn Habs. destruct (segments_join _ _ Habs Hn) as [Hres _].
  set (place := Path.segments folderPath ++ [n]).
  outside_step place;
    [ apply existsSync_preserves, same_outside_refl | intros present ].
  outside_step place; [ | intros _; outside_step place ].
  outside_step place; [ | outside_step place ].
  apply mkdir_recursive_outside. rewrite Hres. apply prefixb_refl.
Qed.

Lemma cloneCloudRepo_outside hierarchy : forall folderPath,
    proper_names hierarchy ->
    JS.starts_with_slash folderPath = true ->
    preserves (same_outside (Path.segments folderPath ++ [name hierarchy]))
              (cloneCloudRepo s3 hierarchy folderPath bucketName).
Proof.
  induction hierarchy as [n p t m | n p t m cs IH] using hnode_ind';
    intros folderPath W Habs; inversion W as [ ? ? ? ? Hn | ? ? ? ? ? Hn Hsub ];
    subst; cbn [name]; destruct t.
  - apply clone_file_outside; assumption.
  - apply folder_empty_outside; assumption.
  - apply clone_file_outside; assumption.
  - apply (folder_outside (fun c d => cloneCloudRepo s3 c d bucketName));
      try assumption.
    rewrite Forall_forall in IH.
    intros c Hc. apply (IH c Hc); [ apply Hsub, Hc | ].
    apply (segments_join _ _ Habs Hn).
Qed.

Lemma pullCloudRepo_outside hierarchy : forall folderPath,
    proper_names hierarchy ->
    JS.starts_with_slash folderPath = true ->
    preserves (same_outside (Path.segments folderPath ++ [name hierarchy]))
              (pullCloudRepo s3 hierarchy folderPath bucketName).
Proof.
  induction hierarchy as [n p t m | n p t m cs IH] using hnode_ind';
    intros folderPath W Habs; inversion W as [ ? ? ? ? Hn | ? ? ? ? ? Hn Hsub ];
    subst; cbn [name]; destruct t.
  - apply pull_file_outside; assumption.
  - apply folder_empty_outside; assumption.
  - apply pull_file_outside; assumption.
  - apply (folder_outside (fun c d => pullCloudRepo s3 c d bucketName));
      try assumption.
    rewrite Forall_forall in IH.
    intros c Hc. apply (IH c Hc); [ apply Hsub, Hc | ].
    apply (segments_join _ _ Habs Hn).
Qed.

End StayInsideTree.

(** X4. What a clone or a pull of a hierarchy of proper names changes on the
    disk lies at or below [folderPath/name], or on the way to it: every path
    apart from that place reads after the run as it read before, whatever
    the run's outcome. *)
Theorem materializers_stay_inside {sha : Sha256} (s3 : object_store)
    hierarchy folderPath bucketName w q :
  proper_names hierarchy ->
  JS.starts_with_slash folderPath = true ->
  apart q (Path.segments folderPath ++ [name hierarchy]) ->
  FS.find q (fs (snd (cloneCloudRepo s3 hierarchy folderPath bucketName w)))
  = FS.find q (fs w)
  /\ FS.find q (fs (snd (pullCloudRepo s3 hierarchy folderPath bucketName w)))
     = FS.find q (fs w).
Proof.
  intros W Habs Hq. split.
  - destruct (cloneCloudRepo s3 hierarchy folderPath bucketName w) as [r w'] eqn:E.
    apply (cloneCloudRepo_outside s3 bucketName hierarchy folderPath W Habs _ _ _ E).
    exact Hq.
  - destruct (pullCloudRepo s3 hierarchy folderPath bucketName w) as [r w'] eqn:E.
    apply (pullCloudRepo_outside s3 bucketName hierarchy folderPath W Habs _ _ _ E).
    exact Hq.
Qed.

(** * Further properties of the remote builder *)

Section BucketErrors.

Import Bucket.

Lemma insertAll_app a : forall b h,
    insertAll (a ++ b) h
    = match insertAll a h with
      | Resolved h' => insertAll b h'
      | Rejected e => Rejected e
      | Uncaught e => Uncaught e
      end.
Proof.
  induction a as [| k a IH]; intros b h; cbn [app insertAll].
  - reflexivity.
  - destruct (insertKey k h) as [h1 | |]; [ apply IH | reflexivity | reflexivity ].
Qed.

(** The one way the walk fails. *)
Lemma walk_fails parts key fileName folders : forall i cur,
    (exists cur', walk parts key i folders fileName cur = Resolved cur')
    \/ walk parts key i folders fileName cur = Rejected undefined_children.
Proof.
  induction folders as [| f rest IH]; intros i cur; rewrite walk_unfold;
    destruct (children cur) as [cs |]; auto.
  - left. eauto.
  - destruct (find_child f cs) as [c |].
    + destruct (IH (S i) c) as [(c' & ->) | ->]; [ left; eauto | auto ].
    + destruct (IH (S i) (mkFolder f (JS.join (JS.slice0 (i + 1) parts))))
        as [(c' & ->) | ->]; [ left; eauto | auto ].
Qed.

Lemma insertAll_fails contents : forall h,
    (exists h', insertAll contents h = Resolved h')
    \/ insertAll contents h = Rejected undefined_children.
Proof.
  induction contents as [| k rest IH]; intros h; cbn [insertAll].
  - left. eauto.
  - destruct (walk_fails (JS.split k) k (last (JS.split k) "")
                (removelast (JS.split k)) 0 h) as [(h1 & E) | E];
      unfold insertKey; rewrite E; auto.
Qed.

Lemma same_name_same_child cs : forall (a b : hnode),
    NoDup (map name cs) -> In a cs -> In b cs -> name a = name b -> a = b.
Proof.
  induction cs as [| c cs IH]; intros a b Hnd Ha Hb Hn; [ destruct Ha | ].
  cbn [map] in Hnd. inversion Hnd as [| x l Hnotin Hnd']; subst.
  destruct Ha as [-> | Ha], Hb as [-> | Hb].
  - reflexivity.
  - exfalso. apply Hnotin. rewrite Hn. apply in_map, Hb.
  - exfalso. apply Hnotin. rewrite <- Hn. apply in_map, Ha.
  - apply IH; assumption.
Qed.

(** A walk whose names pass through a node without children fails there. *)
Lemma walk_hits_leaf parts key fileName names : forall folders i cur leaf rest,
    unique_names cur ->
    leads_to names cur leaf ->
    children leaf = None ->
    rest <> [] ->
    folders ++ [fileName] = names ++ rest ->
    walk parts key i folders fileName cur = Rejected undefined_children.
Proof.
  induction names as [| s names IH]; intros folders i cur leaf rest U Hlead Hleaf Hrest Hkey;
    inversion Hlead as [ h0 | s0 rest0 h0 cs c n0 Ht Hch Hin Hname Hdown ]; subst.
  - rewrite walk_unfold, Hleaf. reflexivity.
  - rewrite walk_unfold, Hch.
    destruct folders as [| f folders'].
    + cbn in Hkey. injection Hkey as _ Hnil. symmetry in Hnil.
      apply app_eq_nil in Hnil. destruct Hnil as [_ Hnil]. contradiction.
    + cbn [app] in Hkey. injection Hkey as -> Hkey.
      assert (Hnd : NoDup (map name cs) /\ forall x, In x cs -> unique_names x).
      { inversion U; subst; cbn in Hch; [ discriminate | ].
        injection Hch as <-. auto. }
      destruct Hnd as [Hnd Hsub].
      destruct (find_child (name c) cs) as [c0 |] eqn:Hf.
      * destruct (find_child_some _ _ _ Hf) as [Hin0 Hn0].
        assert (c0 = c) by (apply (same_name_same_child cs); assumption).
        subst c0.
        rewrite (IH folders' (S i) c leaf rest (Hsub c Hin) Hdown Hleaf Hrest Hkey).
        reflexivity.
      * exfalso. apply (find_child_none _ _ Hf). apply in_map, Hin.
Qed.

End BucketErrors.

(** X5. A key below an earlier key, its segments continuing those of the
    earlier one, stops the builder.  Let the keys before it be such that
    the segments of none of them are a prefix of, or equal to, those of a
    key earlier still.  Then the walk of the later key arrives at the file
    node of the earlier one, reads its missing [children], and the build is
    rejected with the [TypeError], whatever follows in the listing. *)
Theorem getBucketHierarchy_key_below_file friendlyName before earlier later after :
  fresh_listing before = true ->
  In earlier before ->
  proper_prefix (JS.split earlier) (JS.split later) ->
  Bucket.getBucketHierarchy friendlyName (Some (before ++ later :: after))
  = Rejected Bucket.undefined_children.
Proof.
  intros Hfresh Hin (rest & Hrest & Hsplit).
  unfold Bucket.getBucketHierarchy. rewrite insertAll_app.
  destruct (insertAll_fails before (Bucket.root friendlyName)) as [(h & E) | E];
    rewrite E; [ | reflexivity ].
  cbn [Bucket.insertAll]. unfold Bucket.insertKey.
  rewrite (walk_hits_leaf (JS.split later) later (last (JS.split later) "")
             (JS.split earlier) (removelast (JS.split later)) 0 h
             (Bucket.mkFile (last (JS.split earlier) "") earlier) rest).
  - reflexivity.
  - eapply getBucketHierarchy_unique; [ exact Hfresh | exact E ].
  - eapply insertAll_leads; [ apply root_well_typed | exact E | exact Hin ].
  - reflexivity.
  - exact Hrest.
  - rewrite <- split_parts. exact Hsplit.
Qed.

Section BucketTotal.

Import Bucket.

Lemma leaves_at_more seen extra at_ h :
  leaves_at seen at_ h -> leaves_at (extra :: seen) at_ h.
Proof.
  induction 1 as [ at_ n p t m Hin | at_ n p t m cs _ IH ].
  - apply la_leaf. right. exact Hin.
  - apply la_node. exact IH.
Qed.

Lemma leaves_at_children seen at_ h :
  leaves_at seen at_ h -> ~ In at_ seen ->
  exists cs, children h = Some cs
             /\ forall c, In c cs -> leaves_at seen (at_ ++ [name c]) c.
Proof.
  intros L Hnot. inversion L; subst; [ contradiction | ].
  eexists. split; [ reflexivity | assumption ].
Qed.

(** A walk that passes no place of a key seen so far arrives. *)
Lemma walk_clear parts key fileName seen folders : forall i cur at_,
    leaves_at seen at_ cur ->
    (forall k, k <= length folders -> ~ In (at_ ++ firstn k folders) seen) ->
    exists cur',
      walk parts key i folders fileName cur = Resolved cur'
      /\ leaves_at ((at_ ++ folders ++ [fileName]) :: seen) at_ cur'.
Proof.
  induction folders as [| f rest IH]; intros i cur at_ L Hclear;
    rewrite walk_unfold;
    destruct (leaves_at_children _ _ _ L) as (cs & Hcs & Hsub);
    try (pose proof (Hclear 0 (Nat.le_0_l _)) as H0; cbn [firstn] in H0;
         rewrite app_nil_r in H0; exact H0);
    rewrite Hcs.
  - eexists. split; [ reflexivity | ].
    apply la_node. intros c Hc. apply in_app_or in Hc.
    destruct Hc as [Hc | [<- | []]].
    + apply leaves_at_more, Hsub, Hc.
    + apply la_leaf. left. reflexivity.
  - assert (Hkey : at_ ++ (f :: rest) ++ [fileName]
                   = (at_ ++ [f]) ++ rest ++ [fileName])
      by (rewrite <- app_assoc; reflexivity).
    assert (Hclear' : forall k, k <= length rest ->
                                ~ In ((at_ ++ [f]) ++ firstn k rest) seen).
    { intros k Hk. rewrite <- app_assoc. apply (Hclear (S k)). cbn. lia. }
    destruct (find_child f cs) as [c |] eqn:Hf.
    + destruct (find_child_some _ _ _ Hf) as [Hin Hn].
      destruct (IH (S i) c (at_ ++ [f])) as (c' & Hw & L');
        [ rewrite <- Hn; apply Hsub, Hin | exact Hclear' | ].
      rewrite Hw. eexists. split; [ reflexivity | ].
      destruct (walk_name _ _ _ _ _ _ _ Hw) as (Hn' & _).
      apply la_node. intros x Hx. apply replace_child_in in Hx.
      destruct Hx as [-> | Hx].
      * rewrite Hn', Hn, Hkey. exact L'.
      * apply leaves_at_more, Hsub, Hx.
    + destruct (IH (S i) (mkFolder f (JS.join (JS.slice0 (i + 1) parts)))
                  (at_ ++ [f])) as (c' & Hw & L');
        [ apply la_node; intros ? [] | exact Hclear' | ].
      rewrite Hw. eexists. split; [ reflexivity | ].
      destruct (walk_name _ _ _ _ _ _ _ Hw) as (Hn' & _). cbn [name mkFolder] in Hn'.
      apply la_node. intros x Hx. apply in_app_or in Hx.
      destruct Hx as [Hx | [<- | []]].
      * apply leaves_at_more, Hsub, Hx.
      * rewrite Hn', Hkey. exact L'.
Qed.

Lemma proper_prefixb_firstn l x : forall k,
    proper_prefixb (firstn k l) (l ++ [x]) = true.
Proof.
  induction l as [| y l IH]; intros [| k]; cbn; try reflexivity.
  rewrite String.eqb_refl. apply IH.
Qed.

Lemma insertAll_clear contents : forall seen h,
    clear_from seen contents = true ->
    leaves_at (map JS.split seen) [] h ->
    exists h', insertAll contents h = Resolved h'
               /\ leaves_at (map JS.split (rev contents ++ seen)) [] h'.
Proof.
  induction contents as [| key rest IH]; intros seen h; cbn.
  - intros _ L. eauto.
  - intros Hclear L. apply andb_prop in Hclear. destruct Hclear as [Hkey Hrest].
    destruct (walk_clear (JS.split key) key (last (JS.split key) "")
                (map JS.split seen) (removelast (JS.split key)) 0 h [] L)
      as (h1 & E & L1).
    { intros k _ Hin. cbn [app] in Hin. apply in_map_iff in Hin.
      destruct Hin as (earlier & Hsplit & Hseen).
      unfold clear_of in Hkey. rewrite forallb_forall in Hkey.
      specialize (Hkey _ Hseen).
      pose proof (proper_prefixb_firstn (removelast (JS.split key))
                    (last (JS.split key) "") k) as Hp.
      rewrite <- split_parts in Hp. rewrite Hsplit, Hp in Hkey. discriminate. }
    unfold insertKey. rewrite E.
    cbn [app] in L1. rewrite <- split_parts in L1.
    rewrite <- app_assoc. cbn [app]. apply (IH (key :: seen) h1 Hrest L1).
Qed.

End BucketTotal.

(** X6. When the response of the store carries [Contents], the builder
    resolves on every listing in which no key lies below an earlier one
    (the segments of no key continue those of an earlier key).  When it
    carries none, as the response for a bucket without objects does, the
    loop over [contents] throws and the builder is rejected. *)
Theorem getBucketHierarchy_resolves friendlyName :
  (forall contents,
      no_key_below_a_file contents = true ->
      exists hierarchy,
        Bucket.getBucketHierarchy friendlyName (Some contents) = Resolved hierarchy)
  /\ Bucket.getBucketHierarchy friendlyName None
     = Rejected (TypeError "contents is not iterable").
Proof.
  split; [ | reflexivity ].
  intros contents Hclear.
  destruct (insertAll_clear contents [] (Bucket.root friendlyName) Hclear)
    as (h & E & _).
  - apply la_node. intros ? [].
  - exists h. exact E.
Qed.

Section BucketPaths.

Import Bucket.

Lemma paths_spelled_children at_ h cs :
  paths_spelled at_ h -> children h = Some cs ->
  forall c, In c cs ->
            path c = JS.join (at_ ++ [name c]) /\ paths_spelled (at_ ++ [name c]) c.
Proof.
  intros P. inversion P; subst; cbn; [ discriminate | ].
  intros [= <-]. auto.
Qed.

Lemma ps_both at_ n p t m cs :
  (forall c, In c cs ->
             path c = JS.join (at_ ++ [name c])
             /\ paths_spelled (at_ ++ [name c]) c) ->
  paths_spelled at_ (HNode n p t m (Some cs)).
Proof. intros H. apply ps_node; intros c Hc; apply (H c Hc). Qed.

Lemma walk_paths parts key fileName folders : forall i cur cur' at_,
    paths_spelled at_ cur ->
    parts = at_ ++ folders ++ [fileName] ->
    i = length at_ ->
    JS.join parts = key ->
    walk parts key i folders fileName cur = Resolved cur' ->
    paths_spelled at_ cur'.
Proof.
  induction folders as [| f rest IH]; intros i cur cur' at_ P Hparts Hi Hjoin;
    rewrite walk_unfold; destruct (children cur) as [cs |] eqn:Hcs;
    try discriminate;
    pose proof (paths_spelled_children _ _ _ P Hcs) as Hsub.
  - intros [= <-]. apply ps_both. intros c Hc. apply in_app_or in Hc.
    destruct Hc as [Hc | [<- | []]]; [ apply Hsub, Hc | ].
    cbn [name path mkFile]. split; [ | apply ps_leaf ].
    rewrite <- Hjoin, Hparts. reflexivity.
  - assert (Hkey : parts = (at_ ++ [f]) ++ rest ++ [fileName])
      by (rewrite Hparts, <- app_assoc; reflexivity).
    assert (Hi' : S i = length (at_ ++ [f]))
      by (rewrite length_app, Hi; cbn; lia).
    destruct (find_child f cs) as [c |] eqn:Hf.
    + destruct (find_child_some _ _ _ Hf) as [Hin Hn].
      destruct (walk parts key (S i) rest fileName c) as [c' | |] eqn:Hw;
        try discriminate.
      intros [= <-].
      destruct (walk_name _ _ _ _ _ _ _ Hw) as (Hn' & Hp' & _).
      destruct (Hsub c Hin) as [Hpc Hc].
      apply ps_both. intros x Hx. apply replace_child_in in Hx.
      destruct Hx as [-> | Hx]; [ | apply Hsub, Hx ].
      rewrite Hn', Hp'. split; [ exact Hpc | ].
      rewrite Hn. rewrite Hn in Hc. eapply IH; [ exact Hc | | | | exact Hw ]; auto.
    + destruct (walk parts key (S i) rest fileName _) as [c' | |] eqn:Hw;
        try discriminate.
      intros [= <-].
      destruct (walk_name _ _ _ _ _ _ _ Hw) as (Hn' & Hp' & _).
      cbn [name path mkFolder] in Hn', Hp'.
      apply ps_both. intros x Hx. apply in_app_or in Hx.
      destruct Hx as [Hx | [<- | []]]; [ apply Hsub, Hx | ].
      rewrite Hn', Hp'. split.
      * unfold JS.slice0. rewrite Hparts, Hi, firstn_app_2. reflexivity.
      * eapply IH; [ | | | | exact Hw ]; auto. apply ps_both. intros ? [].
Qed.

Lemma insertAll_paths contents : forall h h',
    paths_spelled [] h -> insertAll contents h = Resolved h' ->
    paths_spelled [] h'.
Proof.
  induction contents as [| key rest IH]; intros h h' P; cbn.
  - intros [= <-]. exact P.
  - destruct (insertKey key h) as [h1 | |] eqn:E; try discriminate.
    apply IH. unfold insertKey in E.
    eapply walk_paths with (at_ := []); [ exact P | | | | exact E ].
    + cbn [app]. apply split_parts.
    + reflexivity.
    + apply join_split.
Qed.

Lemma paths_spelled_leads names : forall at_ h s n,
    paths_spelled at_ h -> leads_to (s :: names) h n ->
    path n = JS.join (at_ ++ s :: names).
Proof.
  induction names as [| s' names IH]; intros at_ h s n P Hlead;
    inversion Hlead as [ | s0 rest0 h0 cs c n0 Ht Hch Hin Hname Hrest ]; subst;
    destruct (paths_spelled_children _ _ _ P Hch c Hin) as [Hp Hc].
  - inversion Hrest; subst. exact Hp.
  - rewrite (IH _ _ _ _ Hc Hrest), <- app_assoc. reflexivity.
Qed.

End BucketPaths.

(** X7. In a hierarchy the builder returns, the [path] of every node spells
    the way to it: it is the names from below the root down to the node,
    joined by the separator (the empty string at the root). *)
Theorem getBucketHierarchy_paths friendlyName contents hierarchy names n :
  Bucket.getBucketHierarchy friendlyName (Some contents) = Resolved hierarchy ->
  leads_to names hierarchy n ->
  path n = JS.join names.
Proof.
  intros H Hlead.
  destruct names as [| s names].
  - inversion Hlead; subst. apply (getBucketHierarchy_root _ _ _ H).
  - apply (paths_spelled_leads names [] hierarchy s n); [ | exact Hlead ].
    eapply insertAll_paths; [ | exact H ]. apply ps_both. intros ? [].
Qed.

(** * Further properties of the local builder *)

Section Mirror.

Import Folder.

Lemma assoc_NoDup es : forall k v,
    NoDup (map fst es) -> In (k, v) es -> FS.assoc k es = Some v.
Proof.
  induction es as [| [k0 v0] es IH]; intros k v Hnd Hin; [ destruct Hin | ].
  cbn [map fst] in Hnd. inversion Hnd as [| x l Hnotin Hnd']; subst.
  cbn [FS.assoc]. destruct Hin as [[= -> ->] | Hin].
  - rewrite String.eqb_refl. reflexivity.
  - destruct (String.eqb_spec k0 k) as [-> | _].
    + exfalso. apply Hnotin. change k with (fst (k, v)). apply in_map, Hin.
    + apply IH; assumption.
Qed.

Lemma height_entry es k v : In (k, v) es -> height v < height (FDir es).
Proof.
  intros Hin. cbn [height]. apply Nat.lt_succ_r.
  induction es as [| [k0 v0] es IH]; [ destruct Hin | ].
  cbn [map list_max fold_right snd]. destruct Hin as [[= -> ->] | Hin].
  - apply Nat.le_max_l.
  - etransitivity; [ apply IH, Hin | apply Nat.le_max_r ].
Qed.

Lemma sequence_all (f : string * fsnode -> option (outcome hnode))
    (g : string * fsnode -> hnode) es :
  (forall entry, In entry es -> f entry = Some (Resolved (g entry))) ->
  sequence (map f es) = Some (Resolved (map g es)).
Proof.
  induction es as [| e es IH]; intros H; cbn [map sequence]; [ reflexivity | ].
  rewrite (H e (or_introl eq_refl)), IH; [ reflexivity | ].
  intros entry Hin. apply H. right. exact Hin.
Qed.

Lemma getFolderHierarchy_mirrors disk :
  FS.wf disk ->
  forall fuel folderPath n,
    JS.starts_with_slash folderPath = true ->
    FS.find (Path.segments folderPath) disk = Some n ->
    height n < fuel ->
    getFolderHierarchy fuel disk folderPath
    = Some (Resolved (mirror folderPath n)).
Proof.
  intros W. induction fuel as [| fuel IH]; intros folderPath n Habs Hfind Hfuel;
    [ lia | ].
  cbn [getFolderHierarchy]. rewrite Hfind.
  destruct n as [data | es]; [ reflexivity | ].
  pose proof (find_wf _ _ _ W Hfind) as Wd.
  inversion Wd as [ | es' Hnd Hvalid _ ]; subst.
  rewrite map_map.
  rewrite (sequence_all
             (fun entry => getFolderHierarchy fuel disk
                             (Path.join folderPath (fst entry)))
             (fun entry => mirror (Path.join folderPath (fst entry)) (snd entry))).
  - reflexivity.
  - intros [k v] Hin. cbn [fst snd].
    assert (Hk : Path.valid_name k = true).
    { apply Hvalid. change k with (fst (k, v)). apply in_map, Hin. }
    destruct (segments_join _ _ Habs Hk) as [Hsegs Habs'].
    apply IH.
    + exact Habs'.
    + rewrite Hsegs, find_app, Hfind. cbn [FS.find].
      rewrite (assoc_NoDup _ _ _ Hnd Hin). reflexivity.
    + pose proof (height_entry _ _ _ Hin). lia.
Qed.

End Mirror.

(** X8. On a disk whose entries have proper, pairwise different names, the
    local builder given an absolute path that exists and fuel beyond the
    depth of what stands there resolves, and to the mirror of it: a file
    node without [children] for a regular file, a folder node for a
    directory with one child per entry, in enumeration order, each carrying
    the joined path and its last segment as name. *)
Theorem getFolderHierarchy_mirror fuel disk folderPath n :
  FS.wf disk ->
  JS.starts_with_slash folderPath = true ->
  FS.find (Path.segments folderPath) disk = Some n ->
  height n < fuel ->
  Folder.getFolderHierarchy fuel disk folderPath
  = Some (Resolved (mirror folderPath n)).
Proof. intros W. apply getFolderHierarchy_mirrors, W. Qed.

(** * Further properties of a pull *)

Section PullFile.

Context {sha : Sha256}.
Variable s3 : object_store.
Variable bucketName : string.

Lemma isFileModified_file filePath localFilePath w R L :
  s3 bucketName filePath = S3Body R true ->
  FS.find (Path.segments localFilePath) (fs w) = Some (FFile L) ->
  isFileModified s3 bucketName filePath localFilePath w
  = (Resolved (strict_neq (Some (stream_digest R)) (stream_digest (readChunks L))),
     World (fs w)
           (log w ++ [EvGetObject bucketName filePath; EvCreateHash; EvCreateHash])).
Proof.
  intros Hbody Hfile.
  unfold isFileModified, bind at 1, existsSync. rewrite Hfile. cbn [negb].
  unfold bind at 1. rewrite (calculateCloudFileHash_body _ _ _ _ w Hbody).
  unfold bind at 1. erewrite calculateLocalFileHash_file by (cbn [fs]; eassumption).
  unfold ret. cbn [fs log]. rewrite <- !app_assoc. reflexivity.
Qed.

Lemma isFileModified_directory filePath localFilePath w es :
  (s3 bucketName filePath = S3Fails
   \/ exists R, s3 bucketName filePath = S3Body R true) ->
  FS.find (Path.segments localFilePath) (fs w) = Some (FDir es) ->
  exists w',
    isFileModified s3 bucketName filePath localFilePath w
    = (Rejected (FsError EISDIR localFilePath), w')
    /\ fs w' = fs w.
Proof.
  intros Hs3 Hdir.
  unfold isFileModified, bind at 1, existsSync. rewrite Hdir. cbn [negb].
  unfold bind at 1.
  destruct Hs3 as [Hfail | (R & Hbody)];
    [ rewrite (calculateCloudFileHash_refused _ _ _ w Hfail)
    | rewrite (calculateCloudFileHash_body _ _ _ _ w Hbody) ];
    unfold bind at 1, calculateLocalFileHash, bind, emit; cbn [fs log];
    rewrite Hdir; eexists; split; reflexivity.
Qed.

Lemma write_over at_ s data : forall n es,
    FS.find at_ n = Some (FDir es) ->
    (forall es', FS.find (at_ ++ [s]) n <> Some (FDir es')) ->
    exists n', FS.write (at_ ++ [s]) data n = inr n'.
Proof.
  induction at_ as [| a at_ IH]; intros n es Hdir Hfree.
  - cbn in Hdir. injection Hdir as ->. cbn in *.
    destruct (FS.assoc s es) as [[old | es'] |]; eauto.
    exfalso. apply (Hfree es'). reflexivity.
  - destruct n as [old | es0]; [ discriminate | ].
    cbn [FS.find] in Hdir. cbn [app FS.find] in Hfree.
    destruct (FS.assoc a es0) as [c |] eqn:Ha; [ | discriminate ].
    destruct (IH c es Hdir Hfree) as (c' & Hc').
    cbn [app FS.write]. rewrite Ha, Hc'.
    destruct (at_ ++ [s]) eqn:E; [ destruct at_; discriminate | eauto ].
Qed.

(** The run of a pull at a file node that [isFileModified] reports. *)
Lemma pull_modified_file n p m cs folderPath w w0 R es :
  s3 bucketName p = S3Body R true ->
  JS.starts_with_slash folderPath = true ->
  Path.valid_name n = true ->
  isFileModified s3 bucketName p (Path.join folderPath n) w = (Resolved true, w0) ->
  fs w0 = fs w ->
  FS.find (Path.segments folderPath) (fs w) = Some (FDir es) ->
  (forall es', FS.find (Path.segments folderPath ++ [n]) (fs w) <> Some (FDir es')) ->
  exists w',
    pullCloudRepo s3 (HNode n p TFile m cs) folderPath bucketName w
    = (Resolved tt, w')
    /\ FS.find (Path.segments folderPath ++ [n]) (fs w') = Some (FFile (concat R)).
Proof.
  intros Hbody Habs Hn Hmod Hsame Hdir Hfree.
  destruct (segments_join _ _ Habs Hn) as [Hres _].
  destruct (write_over (Path.segments folderPath) n (concat R) (fs w) es Hdir Hfree)
    as (disk' & Hwrite).
  cbn [pullCloudRepo type name path]. unfold bind at 1. rewrite Hmod.
  cbn [path_dirname]. unfold bind at 1, ret at 1.
  unfold mkdir_recursive, bind at 1 2, emit. cbn [fs log].
  rewrite (segments_dirname_join _ _ Habs Hn), Hsame.
  rewrite (mkdirp_existing _ _ _ Hdir).
  unfold bind at 1, getFileContentFromS3, try_catch, bind at 1, s3_send_GetObject,
    bind at 1, emit.
  rewrite Hbody. unfold ret at 1. unfold bind at 1, pipeToFile, bind at 1, emit.
  cbn [fs log fst snd]. rewrite Hres, Hwrite. cbn.
  eexists. split; [ reflexivity | ]. cbn [fs].
  apply (write_find _ _ _ _ Hwrite).
Qed.

Lemma pull_file_same n p m cs folderPath w R L :
  s3 bucketName p = S3Body R true ->
  FS.find (Path.segments (Path.join folderPath n)) (fs w) = Some (FFile L) ->
  stream_digest R = stream_digest (readChunks L) ->
  pullCloudRepo s3 (HNode n p TFile m cs) folderPath bucketName w
  = (Resolved tt,
     World (fs w) (log w ++ [EvGetObject bucketName p; EvCreateHash; EvCreateHash])).
Proof.
  intros Hbody Hfile Hsame.
  cbn [pullCloudRepo type name path]. unfold bind at 1.
  rewrite (isFileModified_file _ _ _ _ _ Hbody Hfile).
  cbn [strict_neq]. rewrite Hsame, String.eqb_refl. reflexivity.
Qed.

(** X9. At a file node whose object arrives in full and whose destination
    holds a regular file of the same digest, a pull resolves having asked
    for the object once, to hash it: nothing is written and no directory is
    made. *)
Theorem pullCloudRepo_unchanged_file hierarchy folderPath w R L :
  type hierarchy = TFile ->
  s3 bucketName (path hierarchy) = S3Body R true ->
  FS.find (Path.segments (Path.join folderPath (name hierarchy))) (fs w)
  = Some (FFile L) ->
  stream_digest R = stream_digest (readChunks L) ->
  pullCloudRepo s3 hierarchy folderPath bucketName w
  = (Resolved tt,
     World (fs w)
           (log w ++ [EvGetObject bucketName (path hierarchy);
                      EvCreateHash; EvCreateHash])).
Proof.
  destruct hierarchy as [n p t m cs]. cbn [type name path].
  intros ->. apply pull_file_same.
Qed.

(** X10. At a file node whose object arrives in full, below an absolute
    [folderPath] that is a directory, a pull onto a free place or onto a
    regular file of another digest resolves and leaves the bytes of the
    object at the destination. *)
Theorem pullCloudRepo_replaces_file hierarchy folderPath w R es :
  type hierarchy = TFile ->
  s3 bucketName (path hierarchy) = S3Body R true ->
  JS.starts_with_slash folderPath = true ->
  Path.valid_name (name hierarchy) = true ->
  FS.find (Path.segments folderPath) (fs w) = Some (FDir es) ->
  (FS.find (Path.segments folderPath ++ [name hierarchy]) (fs w) = None
   \/ exists L,
       FS.find (Path.segments folderPath ++ [name hierarchy]) (fs w) = Some (FFile L)
       /\ stream_digest R <> stream_digest (readChunks L)) ->
  exists w',
    pullCloudRepo s3 hierarchy folderPath bucketName w = (Resolved tt, w')
    /\ FS.find (Path.segments folderPath ++ [name hierarchy]) (fs w')
       = Some (FFile (concat R)).
Proof.
  destruct hierarchy as [n p t m cs]. cbn [type name path].
  intros -> Hbody Habs Hn Hdir Hcase.
  destruct (segments_join _ _ Habs Hn) as [Hres _].
  destruct Hcase as [Hnone | (L & Hfile & Hdiff)].
  - eapply pull_modified_file; try eassumption.
    + apply isFileModified_absent. rewrite Hres. exact Hnone.
    + reflexivity.
    + intros es'. rewrite Hnone. discriminate.
  - eapply pull_modified_file; try eassumption.
    + rewrite <- Hres in Hfile. rewrite (isFileModified_file _ _ _ _ _ Hbody Hfile).
      cbn [strict_neq]. apply String.eqb_neq in Hdiff. rewrite Hdiff. reflexivity.
    + reflexivity.
    + intros es'. rewrite Hfile. discriminate.
Qed.

(** X11. A directory at the destination of a file node stops a pull: with
    the request for the object granted in full or refused, hashing the
    local side fails with [EISDIR] and the pull is rejected, the disk as it
    was; a clone of the same node resolves without a step. *)
Theorem pullCloudRepo_directory_in_the_way hierarchy folderPath w es :
  type hierarchy = TFile ->
  (s3 bucketName (path hierarchy) = S3Fails
   \/ exists R, s3 bucketName (path hierarchy) = S3Body R true) ->
  FS.find (Path.segments (Path.join folderPath (name hierarchy))) (fs w)
  = Some (FDir es) ->
  (exists w',
      pullCloudRepo s3 hierarchy folderPath bucketName w
      = (Rejected (FsError EISDIR (Path.join folderPath (name hierarchy))), w')
      /\ fs w' = fs w)
  /\ cloneCloudRepo s3 hierarchy folderPath bucketName w = (Resolved tt, w).
Proof.
  destruct hierarchy as [n p t m cs]. cbn [type name path].
  intros -> Hs3 Hdir. split.
  - destruct (isFileModified_directory _ _ _ _ Hs3 Hdir) as (w' & Hrun & Hfs).
    exists w'. split; [ | exact Hfs ].
    cbn [pullCloudRepo type name path]. unfold bind at 1. rewrite Hrun. reflexivity.
  - cbn [cloneCloudRepo type name path]. unfold bind at 1, existsSync.
    rewrite Hdir. reflexivity.
Qed.

End PullFile.

Section PullAfterClone.

Context {sha : Sha256}.
Variable s3 : object_store.
Variable bucketName : string.
Hypothesis digest_of_bytes : chunking_invariant.

Lemma undisturbed_refl w : undisturbed w w.
Proof.
  split; [ reflexivity | ]. exists []. rewrite app_nil_r. split; reflexivity.
Qed.

Lemma undisturbed_trans a b c : undisturbed a b -> undisturbed b c -> undisturbed a c.
Proof.
  intros [Hfs1 (e1 & Hl1 & Hq1)] [Hfs2 (e2 & Hl2 & Hq2)]. split; [ congruence | ].
  exists (e1 ++ e2). rewrite Hl2, Hl1, app_assoc, forallb_app, Hq1, Hq2.
  split; reflexivity.
Qed.

(** Where every node stands materialized, a pull finds nothing to do. *)
Lemma pull_materialized hierarchy : forall folderPath w,
    cloneable s3 bucketName hierarchy ->
    JS.starts_with_slash folderPath = true ->
    Path.valid_name (name hierarchy) = true ->
    (forall names n,
        leads_to names hierarchy n ->
        exists x,
          FS.find (Path.segments folderPath ++ name hierarchy :: names) (fs w) = Some x
          /\ materialized s3 bucketName n x) ->
    exists w',
      pullCloudRepo s3 hierarchy folderPath bucketName w = (Resolved tt, w')
      /\ undisturbed w w'.
Proof.
  induction hierarchy as [n p t m | n p t m cs IH] using hnode_ind';
    intros folderPath w C Habs Hn Hmat; cbn [name] in *;
    destruct (segments_join _ _ Habs Hn) as [Hres Habs'];
    inversion C as [ ? ? ? chunks Hbody | ? ? ? ? Hnd Hvalid Hsub ]; subst.
  - destruct (Hmat [] _ (leads_here _)) as (x & Hx & Hm).
    unfold materialized in Hm. cbn [type path] in Hm.
    destruct Hm as (R & HR & ->).
    rewrite <- Hres in Hx.
    rewrite (pull_file_same s3 bucketName n p m None folderPath w R (concat R) HR Hx).
    + eexists. split; [ reflexivity | ]. split; [ reflexivity | ].
      eexists. split; reflexivity.
    + apply digest_of_bytes. symmetry. apply concat_readChunks.
  - destruct (Hmat [] _ (leads_here _)) as (x & Hx & _).
    rewrite <- Hres in Hx.
    cbn [pullCloudRepo type name path children].
    unfold bind at 1, existsSync. rewrite Hx. cbn [negb].
    unfold bind at 1, ret at 1.
    assert (Hloop : forall l w0,
               (forall c, In c l -> In c cs) ->
               fs w0 = fs w ->
               exists w',
                 forEach (fun child =>
                            pullCloudRepo s3 child (Path.join folderPath n) bucketName)
                         l w0 = (Resolved tt, w')
                 /\ undisturbed w0 w').
    { rewrite Forall_forall in IH.
      induction l as [| c l IHl]; intros w0 Hincl Hfs; cbn [forEach].
      - exists w0. split; [ reflexivity | apply undisturbed_refl ].
      - assert (Hc : In c cs) by (apply Hincl; left; reflexivity).
        destruct (IH c Hc (Path.join folderPath n) w0 (Hsub c Hc) Habs'
                    (Hvalid c Hc)) as (w1 & Hrun & U1).
        { intros names n0 Hlead. rewrite Hfs, Hres, <- app_assoc. cbn [app].
          apply Hmat.
          apply leads_down with (cs := cs) (c := c); auto. }
        unfold bind at 1. rewrite Hrun.
        destruct (IHl w1) as (w2 & Hrest & U2).
        + intros c' Hc'. apply Hincl. right. exact Hc'.
        + rewrite (proj1 U1). exact Hfs.
        + exists w2. split; [ exact Hrest | ].
          eapply undisturbed_trans; eassumption. }
    apply Hloop; [ auto | reflexivity ].
Qed.

End PullAfterClone.

(** X12. A pull right after a clone into a free place finds nothing to do:
    for a hierarchy the store serves in full, with a digest that depends on
    the bytes only, the clone resolves, the pull after it resolves, and the
    pull leaves the disk as the clone left it, having written no file and
    made no directory. *)
Theorem pullCloudRepo_after_clone {sha : Sha256} (s3 : object_store)
    bucketName hierarchy folderPath w es :
  chunking_invariant ->
  cloneable s3 bucketName hierarchy ->
  JS.starts_with_slash folderPath = true ->
  Path.valid_name (name hierarchy) = true ->
  FS.find (Path.segments folderPath) (fs w) = Some (FDir es) ->
  FS.find (Path.segments folderPath ++ [name hierarchy]) (fs w) = None ->
  exists w1 w2,
    cloneCloudRepo s3 hierarchy folderPath bucketName w = (Resolved tt, w1)
    /\ pullCloudRepo s3 hierarchy folderPath bucketName w1 = (Resolved tt, w2)
    /\ fs w2 = fs w1
    /\ exists evs,
        log w2 = log w1 ++ evs
        /\ forallb (fun e => negb (changes_disk e)) evs = true.
Proof.
  intros Hinv C Habs Hn Hdir Hfree.
  destruct (cloneable_clones s3 bucketName hierarchy C folderPath w es
              Habs Hn Hdir Hfree) as (w1 & Hclone & _ & Hmat).
  destruct (pull_materialized s3 bucketName Hinv hierarchy folderPath w1 C Habs Hn Hmat)
    as (w2 & Hpull & Hfs & Hlog).
  exists w1, w2. auto.
Qed.

(** X16. The handler of ['get-folder-hierarchy'] always answers.  On a
    disk with proper, pairwise different entry names, for the empty
    [folderPath] or an absolute one, and with fuel for the depth of what
    stands there, it resolves: with the empty array when no folder is
    selected; with the empty array, the error logged, when nothing is found
    at [folderPath]; with the mirror of what stands at [folderPath]
    otherwise. *)
Theorem get_folder_hierarchy_never_rejects disk folderPath :
  FS.wf disk ->
  folderPath = "" \/ JS.starts_with_slash folderPath = true ->
  exists fuel0 answer evs,
    (forall fuel,
        fuel0 <= fuel ->
        get_folder_hierarchy fuel disk folderPath = Some (Resolved answer, evs))
    /\ (folderPath = "" -> answer = EmptyArray /\ evs = [])
    /\ (folderPath <> "" ->
        FS.find (Path.segments folderPath) disk = None ->
        answer = EmptyArray
        /\ evs = [EvConsoleError "Error reading folder hierarchy:"])
    /\ (forall n,
           folderPath <> "" ->
           FS.find (Path.segments folderPath) disk = Some n ->
           answer = Hierarchy (mirror folderPath n) /\ evs = []).
Proof.
  intros W [-> | Habs].
  - exists 0, EmptyArray, []. split; [ reflexivity | ].
    split; [ auto | ]. split; [ intros H; contradiction | intros n H; contradiction ].
  - destruct folderPath as [| c rest]; [ discriminate | ].
    destruct (FS.find (Path.segments (String c rest)) disk) as [n |] eqn:Hfind.
    + exists (S (height n)), (Hierarchy (mirror (String c rest) n)), [].
      split.
      * intros fuel Hfuel. unfold get_folder_hierarchy.
        rewrite (getFolderHierarchy_mirrors disk W fuel (String c rest) n Habs Hfind);
          [ reflexivity | lia ].
      * split; [ discriminate | ]. split; [ discriminate | ].
        intros n' _ [= <-]. auto.
    + exists 1, EmptyArray, [EvConsoleError "Error reading folder hierarchy:"].
      split.
      * intros [| fuel] Hfuel; [ lia | ].
        unfold get_folder_hierarchy. cbn [Folder.getFolderHierarchy].
        rewrite Hfind. reflexivity.
      * split; [ discriminate | ]. split; [ auto | discriminate ].
Qed.

(** * Properties of an upload *)

Section UploadRuns.

Import Upload.

Variable accepts : put -> bool.
Variable disk : fsnode.
Variable uniqueName : string.
Hypothesis disk_wf : FS.wf disk.

Lemma attempt_app a : forall b,
    attempt accepts (a ++ b)
    = match fst (attempt accepts a) with
      | Resolved _ =>
          (fst (attempt accepts b),
           snd (attempt accepts a) ++ snd (attempt accepts b))
      | _ => attempt accepts a
      end.
Proof.
  induction a as [| r a IH]; intros b; cbn [app attempt fst snd].
  - destruct (attempt accepts b). reflexivity.
  - destruct (accepts r); cbn [fst snd]; [ | reflexivity ].
    rewrite IH. destruct (attempt accepts a) as [[[] | e | e] s]; reflexivity.
Qed.

Lemma cloneLocalRepo_runs : forall fuel folderPath es sent,
    JS.starts_with_slash folderPath = true ->
    FS.find (Path.segments folderPath) disk = Some (FDir es) ->
    height (FDir es) <= fuel ->
    cloneLocalRepo accepts disk uniqueName fuel folderPath sent
    = Some (fst (attempt accepts (uploads uniqueName folderPath (FDir es))),
            sent ++ snd (attempt accepts (uploads uniqueName folderPath (FDir es)))).
Proof.
  induction fuel as [| fuel IH]; intros folderPath es sent Habs Hfind Hfuel;
    [ cbn [height] in Hfuel; lia | ].
  cbn [cloneLocalRepo]. rewrite Hfind.
  pose proof (find_wf _ _ _ disk_wf Hfind) as Wd.
  inversion Wd as [ | es' Hnd Hvalid _ ]; subst.
  change (uploads uniqueName folderPath (FDir es))
    with (flat_map (entry_uploads uniqueName folderPath) es).
  assert (Hloop : forall l sent0,
             (forall entry, In entry l -> In entry es) ->
             forEachFile accepts uniqueName
               (cloneLocalRepo accepts disk uniqueName fuel) folderPath l sent0
             = Some (fst (attempt accepts (flat_map (entry_uploads uniqueName folderPath) l)),
                     sent0 ++ snd (attempt accepts
                                     (flat_map (entry_uploads uniqueName folderPath) l)))).
  { induction l as [| [k v] l IHl]; intros sent0 Hincl.
    - cbn. rewrite app_nil_r. reflexivity.
    - assert (Hin : In (k, v) es) by (apply Hincl; left; reflexivity).
      assert (Hrest : forall entry, In entry l -> In entry es)
        by (intros entry He; apply Hincl; right; exact He).
      assert (Hk : Path.valid_name k = true).
      { apply Hvalid. change k with (fst (k, v)). apply in_map, Hin. }
      destruct (segments_join _ _ Habs Hk) as [Hsegs Habs'].
      cbn [forEachFile flat_map]. unfold s3_send_PutObject.
      destruct v as [data | sub]; unfold entry_uploads at 1 3; cbn [fst snd].
      + cbn [app attempt]. destruct (accepts _); cbn [fst snd]; [ | reflexivity ].
        rewrite (IHl _ Hrest), <- app_assoc. reflexivity.
      + cbn [app attempt]. destruct (accepts _); cbn [fst snd]; [ | reflexivity ].
        rewrite (IH (Path.join folderPath k) sub _ Habs').
        * rewrite attempt_app.
          destruct (attempt accepts (uploads uniqueName (Path.join folderPath k)
                                       (FDir sub))) as [[[] | e | e] s];
            cbn [fst snd]; rewrite <- ?app_assoc; try reflexivity.
          rewrite (IHl _ Hrest), <- !app_assoc. reflexivity.
        * rewrite Hsegs, find_app, Hfind. cbn [FS.find].
          rewrite (assoc_NoDup _ _ _ Hnd Hin). reflexivity.
        * pose proof (height_entry _ _ _ Hin). lia. }
  apply Hloop. auto.
Qed.

(** What every request for a tree with proper entry names looks like. *)
Lemma uploads_keys p n :
  FS.wf n ->
  Forall (fun request =>
            put_bucket request = uniqueName
            /\ exists k,
                Path.valid_name k = true
                /\ ((put_key request = k
                     /\ exists q, put_body request = Some q /\ Path.basename q = k)
                    \/ (put_key request = (k ++ "/")%string
                        /\ put_body request = None)))
         (uploads uniqueName p n).
Proof.
  revert p.
  assert (Hall : forall fuel n p, height n <= fuel -> FS.wf n ->
                   Forall (fun request =>
                     put_bucket request = uniqueName
                     /\ exists k,
                         Path.valid_name k = true
                         /\ ((put_key request = k
                              /\ exists q, put_body request = Some q
                                           /\ Path.basename q = k)
                             \/ (put_key request = (k ++ "/")%string
                                 /\ put_body request = None)))
                          (uploads uniqueName p n)).
  { induction fuel as [| fuel IH]; intros [data | es] p Hh W; cbn [uploads];
      try constructor; [ cbn [height] in Hh; lia | ].
    inversion W as [ | es' Hnd Hvalid Hsub ]; subst.
    apply Forall_flat_map, Forall_forall. intros [k v] Hin. cbn [fst snd].
    assert (Hk : Path.valid_name k = true).
    { apply Hvalid. change k with (fst (k, v)). apply in_map, Hin. }
    destruct v as [data | sub].
    - constructor; [ | constructor ]. cbn. split; [ reflexivity | ].
      exists k. split; [ exact Hk | left ]. split; [ reflexivity | ].
      eexists. split; [ reflexivity | apply basename_join, Hk ].
    - constructor.
      + cbn. split; [ reflexivity | ]. exists k. split; [ exact Hk | right ].
        split; reflexivity.
      + apply IH; [ | eapply Hsub, Hin ].
        pose proof (height_entry _ _ _ Hin). lia. }
  intros p. apply (Hall (height n)), Nat.le_refl.
Qed.

Lemma attempt_sent requests :
  forall request, In request (snd (attempt accepts requests)) -> In request requests.
Proof.
  induction requests as [| r rest IH]; intros request; cbn [attempt];
    [ intros [] | ].
  destruct (accepts r); cbn [snd]; intros [<- | Hin]; auto.
  - left. reflexivity.
  - right. apply IH, Hin.
  - left. reflexivity.
  - destruct Hin.
Qed.

End UploadRuns.

(** X13. On a disk with proper, pairwise different entry names, the upload
    of an absolute path that is a directory, given fuel for its depth,
    settles, and it has sent the requests of the tree in the order of the
    enumeration (a marker [name/] before the contents of a directory, a
    regular file under its name), up to and including the first request the
    store refuses: it resolves when none is refused and is rejected with the
    refusal otherwise. *)
Theorem cloneLocalRepo_uploads accepts disk uniqueName fuel folderPath es sent :
  FS.wf disk ->
  JS.starts_with_slash folderPath = true ->
  FS.find (Path.segments folderPath) disk = Some (FDir es) ->
  height (FDir es) <= fuel ->
  Upload.cloneLocalRepo accepts disk uniqueName fuel folderPath sent
  = Some (fst (attempt accepts (uploads uniqueName folderPath (FDir es))),
          sent ++ snd (attempt accepts (uploads uniqueName folderPath (FDir es)))).
Proof. intros W. apply cloneLocalRepo_runs, W. Qed.

(** X14. The key of an upload carries no directory: whatever the depth at
    which an entry was found, a regular file is sent under its own name,
    the last segment of the path its body is read from, and a directory
    under its own name followed by the separator, with no body. *)
Theorem cloneLocalRepo_keys_are_names accepts disk uniqueName fuel folderPath es
    outcome_ sent :
  FS.wf disk ->
  JS.starts_with_slash folderPath = true ->
  FS.find (Path.segments folderPath) disk = Some (FDir es) ->
  height (FDir es) <= fuel ->
  Upload.cloneLocalRepo accepts disk uniqueName fuel folderPath [] = Some (outcome_, sent) ->
  forall request,
    In request sent ->
    put_bucket request = uniqueName
    /\ exists k,
        Path.valid_name k = true
        /\ ((put_key request = k
             /\ exists q, put_body request = Some q /\ Path.basename q = k)
            \/ (put_key request = (k ++ "/")%string /\ put_body request = None)).
Proof.
  intros W Habs Hfind Hfuel Hrun request Hin.
  rewrite (cloneLocalRepo_runs accepts disk uniqueName W fuel folderPath es []
             Habs Hfind Hfuel) in Hrun.
  injection Hrun as _ <-. cbn [app] in Hin. apply attempt_sent in Hin.
  pose proof (uploads_keys uniqueName folderPath (FDir es)
                (find_wf _ _ _ W Hfind)) as Hall.
  rewrite Forall_forall in Hall. apply Hall, Hin.
Qed.

Section PullSyncs.

Context {sha : Sha256}.
Variable s3 : object_store.
Variable bucketName : string.

Lemma cloneable_proper_names c :
  cloneable s3 bucketName c -> Path.valid_name (name c) = true -> proper_names c.
Proof.
  induction c as [n p t m | n p t m cs IH] using hnode_ind'; intros C Hn;
    inversion C; subst; cbn [name] in Hn.
  - apply proper_leaf, Hn.
  - apply proper_node; [ exact Hn | ].
    rewrite Forall_forall in IH. auto.
Qed.

Lemma pull_file_into_place n p m R :
  s3 bucketName p = S3Body R true ->
  pulls_into_place s3 bucketName (HNode n p TFile m None).
Proof.
  intros Hbody folderPath w es Habs Hname Hparent Hfits. cbn [name] in *.
  destruct (segments_join _ _ Habs Hname) as [Hres _].
  assert (Hleaf : forall w',
             (exists F, FS.find (Path.segments folderPath ++ [n]) (fs w') = Some (FFile F)
                        /\ (F = concat R
                            \/ stream_digest R = stream_digest (readChunks F))) ->
             forall names leaf,
               leads_to names (HNode n p TFile m None) leaf ->
               exists x,
                 FS.find (Path.segments folderPath ++ n :: names) (fs w') = Some x
                 /\ synced s3 bucketName leaf x).
  { intros w' (F & HF & Hsame) names leaf Hlead.
    inversion Hlead as [ h0 | s rest h0 cs c n0 Ht Hch ]; subst; [ | discriminate ].
    exists (FFile F). split; [ exact HF | ]. exists R, F. auto. }
  destruct (FS.find (Path.segments folderPath ++ [n]) (fs w)) as [x |] eqn:Hat.
  - pose proof (Hfits [] _ x (leads_here _) Hat) as Hfit.
    destruct x as [L | es0]; [ clear Hfit | destruct Hfit ].
    destruct (String.eqb_spec (stream_digest R) (stream_digest (readChunks L)))
      as [Hsame | Hdiff].
    + rewrite <- Hres in Hat.
      rewrite (pull_file_same s3 bucketName n p m None folderPath w R L Hbody Hat Hsame).
      eexists. split; [ reflexivity | ]. apply Hleaf. cbn [fs].
      exists L. rewrite <- Hres. auto.
    + destruct (pull_modified_file s3 bucketName n p m None folderPath w
                  (World (fs w) (log w ++ [EvGetObject bucketName p;
                                           EvCreateHash; EvCreateHash]))
                  R es Hbody Habs Hname) as (w' & Hrun & Hnew).
      * rewrite <- Hres in Hat.
        rewrite (isFileModified_file _ _ _ _ _ _ _ Hbody Hat).
        cbn [strict_neq]. apply String.eqb_neq in Hdiff. rewrite Hdiff. reflexivity.
      * reflexivity.
      * exact Hparent.
      * intros es'. rewrite Hat. discriminate.
      * exists w'. split; [ exact Hrun | ]. apply Hleaf. eauto.
  - destruct (pull_modified_file s3 bucketName n p m None folderPath w w
                R es Hbody Habs Hname) as (w' & Hrun & Hnew).
    + apply isFileModified_absent. rewrite Hres. exact Hat.
    + reflexivity.
    + exact Hparent.
    + intros es'. rewrite Hat. discriminate.
    + exists w'. split; [ exact Hrun | ]. apply Hleaf. eauto.
Qed.

(** The children of a folder, one after the other. *)
Lemma pull_children_into_place destinationPath cs :
  Forall (pulls_into_place s3 bucketName) cs ->
  Forall (cloneable s3 bucketName) cs ->
  NoDup (map name cs) ->
  (forall c, In c cs -> Path.valid_name (name c) = true) ->
  JS.starts_with_slash destinationPath = true ->
  forall w es,
    FS.find (Path.segments destinationPath) (fs w) = Some (FDir es) ->
    (forall c names n x,
        In c cs -> leads_to names c n ->
        FS.find (Path.segments destinationPath ++ name c :: names) (fs w) = Some x ->
        fits n x) ->
    exists w',
      forEach (fun child => pullCloudRepo s3 child destinationPath bucketName) cs w
      = (Resolved tt, w')
      /\ (forall s q, ~ In s (map name cs) ->
                      FS.find (Path.segments destinationPath ++ s :: q) (fs w')
                      = FS.find (Path.segments destinationPath ++ s :: q) (fs w))
      /\ (forall c names n,
             In c cs -> leads_to names c n ->
             exists x,
               FS.find (Path.segments destinationPath ++ name c :: names) (fs w')
               = Some x
               /\ synced s3 bucketName n x).
Proof.
  intros Hall. induction Hall as [| c cs Hc _ IH];
    intros Hcl Hnd Hvalid Habs w es Hdir Hfits.
  - exists w. cbn. repeat split; auto. intros c names n [].
  - cbn [map] in Hnd. inversion Hnd as [ | ? ? Hfirst Hrest ]; subst.
    inversion Hcl as [ | ? ? Hclc Hclrest ]; subst.
    pose proof (Hvalid c (or_introl eq_refl)) as Hnc.
    destruct (Hc destinationPath w es Habs Hnc Hdir) as (w1 & Hrun1 & Himage1).
    { intros names n x. apply Hfits. left. reflexivity. }
    assert (Hother : forall s q, s <> name c ->
                       FS.find (Path.segments destinationPath ++ s :: q) (fs w1)
                       = FS.find (Path.segments destinationPath ++ s :: q) (fs w)).
    { intros s q Hs.
      apply (pullCloudRepo_outside s3 bucketName c destinationPath
               (cloneable_proper_names c Hclc Hnc) Habs _ _ _ Hrun1).
      apply apart_siblings, Hs. }
    destruct (keeps_dir _ _ _ _ (pullCloudRepo_grows s3 c _ _ _ _ _ Hrun1) Hdir)
      as (es1 & Hdir1).
    destruct (IH Hclrest Hrest (fun x Hx => Hvalid x (or_intror Hx)) Habs w1 es1 Hdir1)
      as (w' & Hrun & Hnames & Himage).
    { intros x names n y Hx Hlead. rewrite Hother.
      - apply Hfits; [ right; exact Hx | exact Hlead ].
      - intros E. apply Hfirst. rewrite <- E. apply in_map, Hx. }
    exists w'. split; [ | split ].
    + cbn [forEach]. unfold bind. rewrite Hrun1. exact Hrun.
    + intros s q Hs. cbn [map] in Hs.
      rewrite Hnames by (intros Hin; apply Hs; right; exact Hin).
      apply Hother. intros E. apply Hs. left. symmetry. exact E.
    + intros x names n [<- | Hx] Hlead.
      * destruct (Himage1 _ _ Hlead) as (y & Hy & Hm). exists y.
        split; [ | exact Hm ]. rewrite Hnames; assumption.
      * eapply Himage; eassumption.
Qed.

Lemma pull_folder_into_place n p m cs :
  Forall (pulls_into_place s3 bucketName) cs ->
  Forall (cloneable s3 bucketName) cs ->
  NoDup (map name cs) ->
  (forall c, In c cs -> Path.valid_name (name c) = true) ->
  pulls_into_place s3 bucketName (HNode n p TFolder m (Some cs)).
Proof.
  intros Hall Hcl Hnd Hvalid folderPath w es Habs Hname Hparent Hfits.
  cbn [name] in *.
  destruct (segments_join _ _ Habs Hname) as [Hres Habs'].
  assert (Hmade : exists w1 es1,
             (present <- existsSync (Path.join folderPath n) ;;
              if negb present then mkdir_recursive (Path.join folderPath n)
              else ret tt) w = (Resolved tt, w1)
             /\ FS.find (Path.segments folderPath ++ [n]) (fs w1) = Some (FDir es1)
             /\ forall q x,
                 FS.find (Path.segments folderPath ++ n :: q) (fs w1) = Some x ->
                 q = [] \/ FS.find (Path.segments folderPath ++ n :: q) (fs w) = Some x).
  { unfold bind at 1. rewrite existsSync_unchanged. unfold exists_at. rewrite Hres.
    destruct (FS.find (Path.segments folderPath ++ [n]) (fs w)) as [x |] eqn:Hat;
      cbn [negb].
    - pose proof (Hfits [] _ x (leads_here _) Hat) as Hfit.
      destruct x as [L | es0]; [ destruct Hfit | ].
      exists w, es0. split; [ reflexivity | ]. split; [ exact Hat | auto ].
    - destruct (mkdirp_child _ n _ _ Hparent Hat) as (disk1 & Hmk).
      pose proof (mkdirp_new _ _ _ Hat Hmk) as Hempty.
      exists (World disk1 (log w ++ [EvMkdir (Path.join folderPath n)])), [].
      split; [ | split ].
      + unfold mkdir_recursive, bind at 1, emit. cbn [fs log].
        rewrite Hres, Hmk. reflexivity.
      + exact Hempty.
      + cbn [fs]. intros q x.
        change (n :: q) with ([n] ++ q). rewrite app_assoc, find_app, Hempty.
        destruct q as [| s q]; [ auto | discriminate ]. }
  destruct Hmade as (w1 & es1 & Hrun1 & Hdir1 & Hbelow).
  destruct (pull_children_into_place (Path.join folderPath n) cs Hall Hcl Hnd
              Hvalid Habs' w1 es1)
    as (w' & Hrun & _ & Himage).
  { rewrite Hres. exact Hdir1. }
  { intros c names leaf x Hc Hlead. rewrite Hres, <- app_assoc. cbn [app].
    intros Hx. destruct (Hbelow _ _ Hx) as [Hnil | Hold]; [ discriminate | ].
    eapply (Hfits (name c :: names)); [ | exact Hold ].
    apply leads_down with (cs := cs) (c := c); auto. }
  exists w'. split.
  - cbn [pullCloudRepo type name path children].
    change (((present <- existsSync (Path.join folderPath n) ;;
              if negb present then mkdir_recursive (Path.join folderPath n)
              else ret tt) ;;
             forEach (fun child =>
                        pullCloudRepo s3 child (Path.join folderPath n) bucketName)
                     cs) w = (Resolved tt, w')).
    unfold bind at 1. rewrite Hrun1. exact Hrun.
  - intros names leaf Hlead.
    inversion Hlead as [ h0 | s rest h0 cs0 c n0 Ht Hch Hin Hn Hrest ]; subst.
    + destruct (keeps_dir (fs w1) (fs w') (Path.segments folderPath ++ [n]) es1)
        as (es' & Hdir').
      * change (grows w1 w').
        eapply (preserves_forEach grows grows_refl grows_trans); [ | exact Hrun ].
        intros c _. apply pullCloudRepo_grows.
      * exact Hdir1.
      * exists (FDir es'). split; [ exact Hdir' | ]. exists es'. reflexivity.
    + cbn [children] in Hch. injection Hch as <-.
      destruct (Himage _ _ _ Hin Hrest) as (x & Hx & Hm).
      exists x. split; [ | exact Hm ].
      rewrite Hres, <- app_assoc in Hx. exact Hx.
Qed.

Lemma cloneable_pulls c :
  cloneable s3 bucketName c -> pulls_into_place s3 bucketName c.
Proof.
  induction c as [n p t m | n p t m cs IH] using hnode_ind'; intros C;
    inversion C; subst.
  - eapply pull_file_into_place; eassumption.
  - apply pull_folder_into_place; auto; rewrite Forall_forall in *; auto.
Qed.

End PullSyncs.

(** X15. A pull brings the disk in line with the hierarchy.  For a
    hierarchy the store serves in full, with proper and pairwise different
    sibling names, pulled into a directory where nothing of another kind
    stands in the way of a node, the pull resolves, and afterwards every
    folder node is a directory and every file node a regular file that
    holds the bytes of its object, or, left as it was, has the digest of
    the object. *)
Theorem pullCloudRepo_syncs {sha : Sha256} (s3 : object_store) bucketName
    hierarchy folderPath w es :
  cloneable s3 bucketName hierarchy ->
  JS.starts_with_slash folderPath = true ->
  Path.valid_name (name hierarchy) = true ->
  FS.find (Path.segments folderPath) (fs w) = Some (FDir es) ->
  (forall names n x,
      leads_to names hierarchy n ->
      FS.find (Path.segments folderPath ++ name hierarchy :: names) (fs w) = Some x ->
      fits n x) ->
  exists w',
    pullCloudRepo s3 hierarchy folderPath bucketName w = (Resolved tt, w')
    /\ forall names n,
        leads_to names hierarchy n ->
        exists x,
          FS.find (Path.segments folderPath ++ name hierarchy :: names) (fs w')
          = Some x
          /\ synced s3 bucketName n x.
Proof.
  intros C. apply (cloneable_pulls s3 bucketName hierarchy C).
Qed.

(** * Properties of the local store *)

Section StoreLookups.

Import Store.

Lemma getLocalRepos_from_acc config : forall acc,
    getLocalRepos_from config acc
    = match getLocalRepos_from config [] with
      | Resolved more => Resolved (acc ++ more)
      | Rejected e => Rejected e
      | Uncaught e => Uncaught e
      end.
Proof.
  induction config as [| [key value] rest IH]; intros acc; cbn [getLocalRepos_from].
  - rewrite app_nil_r. reflexivity.
  - destruct (negb (String.eqb key "activeRepo")); [ | apply IH ].
    destruct (readRepo key value) as [obj | |]; try reflexivity.
    rewrite (IH (acc ++ [obj])), (IH ([] ++ [obj])).
    destruct (getLocalRepos_from rest []); try reflexivity.
    rewrite <- app_assoc. reflexivity.
Qed.

(** One object per key other than ['activeRepo'], in the order of the
    enumeration. *)
Lemma getLocalRepos_entries config : forall repos,
    getLocalRepos config = Resolved repos ->
    Forall2 (fun entry r => readRepo (fst entry) (snd entry) = Resolved r)
            (filter is_repo_key config) repos.
Proof.
  unfold getLocalRepos.
  induction config as [| [key value] rest IH]; intros repos;
    cbn [getLocalRepos_from filter].
  - intros [= <-]. constructor.
  - unfold is_repo_key at 1. cbn [fst].
    destruct (negb (String.eqb key "activeRepo")); [ | apply IH ].
    destruct (readRepo key value) as [obj | |] eqn:E; try discriminate.
    rewrite getLocalRepos_from_acc.
    destruct (getLocalRepos_from rest []) as [more | |]; try discriminate.
    intros [= <-]. constructor; [ exact E | apply IH; reflexivity ].
Qed.

Lemma getLocalRepos_resolves config :
  (forall k, In (k, JNull) config -> k = "activeRepo") ->
  exists repos, getLocalRepos config = Resolved repos.
Proof.
  unfold getLocalRepos.
  induction config as [| [key value] rest IH]; intros Hnull; cbn [getLocalRepos_from].
  - eauto.
  - destruct IH as (repos & Hrest);
      [ intros k Hk; apply Hnull; right; exact Hk | ].
    destruct (String.eqb_spec key "activeRepo") as [-> | Hne]; cbn [negb];
      [ eauto | ].
    assert (Hread : exists obj, readRepo key value = Resolved obj).
    { destruct value; try (eexists; reflexivity).
      exfalso. apply Hne, Hnull. left. reflexivity. }
    destruct Hread as (obj & ->).
    rewrite getLocalRepos_from_acc, Hrest. eauto.
Qed.

Lemma readRepo_name key value r :
  readRepo key value = Resolved r -> repo_uniqueName r = key.
Proof.
  unfold readRepo.
  destruct (member value "friendlyName"); try discriminate.
  destruct (member value "organization"); try discriminate.
  destruct (member value "folderPath"); try discriminate.
  intros [= <-]. reflexivity.
Qed.

Lemma readRepo_members key value r :
  readRepo key value = Resolved r ->
  member value "friendlyName" = Resolved (repo_friendlyName r)
  /\ member value "organization" = Resolved (repo_organization r)
  /\ member value "folderPath" = Resolved (repo_folderPath r).
Proof.
  unfold readRepo.
  destruct (member value "friendlyName"); try discriminate.
  destruct (member value "organization"); try discriminate.
  destruct (member value "folderPath"); try discriminate.
  intros [= <-]. auto.
Qed.

Lemma lookup_NoDup config : forall k v,
    NoDup (map fst config) -> In (k, v) config -> lookup k config = Some v.
Proof.
  induction config as [| [k0 v0] config IH]; intros k v Hnd Hin; [ destruct Hin | ].
  cbn [map fst] in Hnd. inversion Hnd as [| x l Hnotin Hnd']; subst.
  cbn [lookup]. destruct Hin as [[= -> ->] | Hin].
  - rewrite String.eqb_refl. reflexivity.
  - destruct (String.eqb_spec k0 k) as [-> | _].
    + exfalso. apply Hnotin. change k with (fst (k, v)). apply in_map, Hin.
    + apply IH; assumption.
Qed.

(** Among entries of pairwise different keys, the search by name finds the
    object of the entry with that key. *)
Lemma find_active entries : forall repos u value r,
    Forall2 (fun entry r => readRepo (fst entry) (snd entry) = Resolved r)
            entries repos ->
    NoDup (map fst entries) ->
    In (u, value) entries ->
    readRepo u value = Resolved r ->
    find (fun r => strict_eq (repo_uniqueName r) (Some (JString u))) repos = Some r.
Proof.
  intros repos u value r Hall.
  induction Hall as [| [k v] r0 entries repos Hr0 _ IH]; intros Hnd Hin Hr;
    [ destruct Hin | ].
  cbn [map fst] in Hnd. inversion Hnd as [| x l Hnotin Hnd']; subst.
  cbn [find strict_eq fst snd] in *.
  rewrite (readRepo_name _ _ _ Hr0).
  destruct Hin as [[= -> ->] | Hin].
  - rewrite String.eqb_refl. congruence.
  - destruct (String.eqb_spec k u) as [-> | _].
    + exfalso. apply Hnotin. change u with (fst (u, value)). apply in_map, Hin.
    + apply IH; assumption.
Qed.

Lemma Forall2_in_r A B (R : A -> B -> Prop) l l' y :
  Forall2 R l l' -> In y l' -> exists x, In x l /\ R x y.
Proof.
  induction 1 as [| x0 y0 l l' Hxy _ IH]; intros Hin; [ destruct Hin | ].
  destruct Hin as [<- | Hin].
  - exists x0. split; [ left; reflexivity | exact Hxy ].
  - destruct (IH Hin) as (x & Hx & Hr). exists x. split; [ right | ]; assumption.
Qed.

Lemma NoDup_keys_filter (f : string * json -> bool) config :
  NoDup (map fst config) -> NoDup (map fst (filter f config)).
Proof.
  induction config as [| e config IH]; intros Hnd; cbn [filter map]; [ constructor | ].
  cbn [map] in Hnd. inversion Hnd as [| x l Hnotin Hnd']; subst.
  destruct (f e); [ | apply IH, Hnd' ].
  cbn [map]. constructor; [ | apply IH, Hnd' ].
  intros Hin. apply Hnotin. apply in_map_iff in Hin.
  destruct Hin as (e' & He' & Hin). apply filter_In in Hin.
  rewrite <- He'. apply in_map, Hin.
Qed.

End StoreLookups.

(** X17. The repository [getActiveRepoLocal] resolves with is the one the
    store names: the store holds its unique name, a string, under
    ['activeRepo'], that name is a key of the store other than
    ['activeRepo'] itself, and the three fields of the result are the
    members of the value under this key. *)
Theorem getActiveRepoLocal_sound config r :
  Store.getActiveRepoLocal config = Resolved (Some r) ->
  Store.lookup "activeRepo" config = Some (JString (Store.repo_uniqueName r))
  /\ Store.repo_uniqueName r <> "activeRepo"
  /\ exists value,
      In (Store.repo_uniqueName r, value) config
      /\ Store.member value "friendlyName" = Resolved (Store.repo_friendlyName r)
      /\ Store.member value "organization" = Resolved (Store.repo_organization r)
      /\ Store.member value "folderPath" = Resolved (Store.repo_folderPath r).
Proof.
  unfold Store.getActiveRepoLocal.
  destruct (Store.getLocalRepos config) as [repos | |] eqn:E; try discriminate.
  intros [= Hfind]. apply find_some in Hfind. destruct Hfind as [Hin Heq].
  pose proof (getLocalRepos_entries _ _ E) as Hall.
  destruct (Forall2_in_r _ _ _ _ _ _ Hall Hin) as ([k v] & Hentry & Hread).
  apply filter_In in Hentry. destruct Hentry as [Hconfig Hkey].
  cbn [fst snd] in Hread. pose proof (readRepo_name _ _ _ Hread) as Hname.
  split; [ | split ].
  - unfold Store.strict_eq in Heq.
    destruct (Store.lookup "activeRepo" config) as [[| | | s | |] |];
      try discriminate.
    apply String.eqb_eq in Heq. congruence.
  - rewrite Hname. unfold is_repo_key in Hkey. cbn [fst] in Hkey.
    apply negb_true_iff, String.eqb_neq in Hkey. exact Hkey.
  - exists v. rewrite Hname. split; [ exact Hconfig | ].
    apply (readRepo_members _ _ _ Hread).
Qed.

(** X18. In a store of pairwise different keys that holds no [null] beside
    ['activeRepo'], [getActiveRepoLocal] finds the repository the store
    names: with a string other than ['activeRepo'] under ['activeRepo'],
    and an object under that string, it resolves with the unique name and
    the three members of the object. *)
Theorem getActiveRepoLocal_complete config u members :
  NoDup (map fst config) ->
  (forall k, In (k, JNull) config -> k = "activeRepo") ->
  Store.lookup "activeRepo" config = Some (JString u) ->
  u <> "activeRepo" ->
  In (u, JObject members) config ->
  Store.getActiveRepoLocal config
  = Resolved (Some (Store.Repo u (Store.lookup "friendlyName" members)
                               (Store.lookup "organization" members)
                               (Store.lookup "folderPath" members))).
Proof.
  intros Hnd Hnull Hactive Hu Hin.
  destruct (getLocalRepos_resolves config Hnull) as (repos & E).
  unfold Store.getActiveRepoLocal. rewrite E, Hactive. f_equal. f_equal.
  apply (find_active (filter is_repo_key config) repos u (JObject members)).
  - apply getLocalRepos_entries, E.
  - apply NoDup_keys_filter, Hnd.
  - apply filter_In. split; [ exact Hin | ].
    unfold is_repo_key. cbn [fst]. apply negb_true_iff, String.eqb_neq, Hu.
  - reflexivity.
Qed.

(** * Properties of the folder paths the handlers keep *)

Section HandlerPaths.

Import JSString.

Lemma lastIndexOf_from_free c s : forall i found,
    free_of c s = true -> lastIndexOf_from s c i found = found.
Proof.
  induction s as [| x s IH]; intros i found; cbn; [ reflexivity | ].
  destruct (Ascii.eqb x c); cbn; [ discriminate | apply IH ].
Qed.

Lemma lastIndexOf_from_app c a : forall s i found,
    lastIndexOf_from (a ++ s) c i found
    = lastIndexOf_from s c (i + Z.of_nat (String.length a))
        (lastIndexOf_from a c i found).
Proof.
  induction a as [| x a IH]; intros s i found; cbn [append lastIndexOf_from String.length].
  - rewrite Z.add_0_r. reflexivity.
  - rewrite IH. f_equal. lia.
Qed.

Lemma lastIndexOf_last a b :
  free_of backslash b = true ->
  lastIndexOf (a ++ String backslash b) backslash = Z.of_nat (String.length a).
Proof.
  intros Hb. unfold lastIndexOf. rewrite lastIndexOf_from_app.
  cbn [lastIndexOf_from]. rewrite Ascii.eqb_refl.
  rewrite (lastIndexOf_from_free _ _ _ _ Hb). reflexivity.
Qed.

Lemma length_append a b :
  String.length (a ++ b) = String.length a + String.length b.
Proof. induction a as [| x a IH]; cbn; [ reflexivity | rewrite IH; reflexivity ]. Qed.

Lemma substring_whole a : substring 0 (String.length a) a = a.
Proof. induction a as [| x a IH]; cbn; [ reflexivity | rewrite IH; reflexivity ]. Qed.

Lemma substring_app a r : forall n,
    substring 0 (String.length a + n) (a ++ r) = (a ++ substring 0 n r)%string.
Proof.
  induction a as [| x a IH]; intros n; cbn [String.length append Nat.add substring].
  - reflexivity.
  - rewrite IH. reflexivity.
Qed.

Lemma substring_nothing r : substring 0 0 r = "".
Proof. destruct r; reflexivity. Qed.

Lemma free_of_app c a b :
  free_of c a = true -> free_of c b = true -> free_of c (a ++ b) = true.
Proof.
  induction a as [| x a IH]; cbn; [ auto | ].
  intros Ha Hb. apply andb_prop in Ha. destruct Ha as [-> Ha]. cbn. auto.
Qed.

Lemma pull_repo_folderPath_backslash a b :
  free_of backslash b = true -> pull_repo_folderPath (a ++ String backslash b) = a.
Proof.
  intros Hb. unfold pull_repo_folderPath, slice, clamp.
  rewrite (lastIndexOf_last a b Hb), length_append. cbn [String.length Z.ltb].
  replace (0 <? 0)%Z with false by reflexivity.
  replace (Z.of_nat (String.length a) <? 0)%Z with false by (symmetry; apply Z.ltb_ge; lia).
  replace (Z.to_nat (Z.min 0 _)) with 0 by lia.
  replace (Z.to_nat (Z.max _ 0)) with (String.length a + 0) by lia.
  rewrite substring_app, substring_nothing.
  clear. induction a as [| x a IH]; cbn; [ reflexivity | rewrite IH; reflexivity ].
Qed.

Lemma pull_repo_folderPath_free s :
  free_of backslash s = true ->
  pull_repo_folderPath s = substring 0 (String.length s - 1) s.
Proof.
  intros Hs. unfold pull_repo_folderPath, slice, clamp, lastIndexOf.
  rewrite (lastIndexOf_from_free _ _ _ _ Hs).
  replace (0 <? 0)%Z with false by reflexivity.
  replace (-1 <? 0)%Z with true by reflexivity.
  replace (Z.to_nat (Z.min 0 _)) with 0 by lia.
  replace (Z.to_nat (Z.max _ 0)) with (String.length s - 1) by lia.
  reflexivity.
Qed.

End HandlerPaths.

(** X19. The folder ['pull-repo'] pulls into is the stored folder up to its
    last backslash; a stored folder without a backslash loses its last
    character instead, the index [-1] of the search counting from the
    end. *)
Theorem pull_repo_folderPath_cut :
  (forall a b,
      JSString.free_of JSString.backslash b = true ->
      pull_repo_folderPath (a ++ String JSString.backslash b) = a)
  /\ (forall s,
         JSString.free_of JSString.backslash s = true ->
         pull_repo_folderPath s = substring 0 (String.length s - 1) s).
Proof.
  split; [ apply pull_repo_folderPath_backslash | apply pull_repo_folderPath_free ].
Qed.

(** X20. What ['pull-repo'] makes of the folder ['clone-repo'] stored, for
    a friendly name without a backslash: when the folder cloned into ends
    in a backslash and a last name, that name is cut off with the friendly
    name; when it holds no backslash, the folder is kept, followed by the
    separator and the friendly name short of its last character. *)
Theorem pull_repo_after_clone_repo friendlyName :
  JSString.free_of JSString.backslash friendlyName = true ->
  friendlyName <> "" ->
  (forall a b,
      JSString.free_of JSString.backslash b = true ->
      pull_repo_folderPath
        (clone_repo_folderPath (a ++ String JSString.backslash b) friendlyName)
      = a)
  /\ (forall folderPathWithoutFName,
         JSString.free_of JSString.backslash folderPathWithoutFName = true ->
         pull_repo_folderPath
           (clone_repo_folderPath folderPathWithoutFName friendlyName)
         = (folderPathWithoutFName ++ "/"
              ++ substring 0 (String.length friendlyName - 1) friendlyName)%string).
Proof.
  intros Hf Hne. unfold clone_repo_folderPath. split.
  - intros a b Hb. rewrite append_assoc.
    apply (pull_repo_folderPath_backslash a (b ++ "/" ++ friendlyName)).
    apply free_of_app; [ exact Hb | ].
    apply (free_of_app _ "/"); [ reflexivity | exact Hf ].
  - intros p Hp. rewrite pull_repo_folderPath_free.
    + rewrite <- append_assoc, length_append.
      replace (String.length (p ++ "/") + String.length friendlyName - 1)
        with (String.length (p ++ "/") + (String.length friendlyName - 1))
        by (destruct friendlyName; [ contradiction | cbn; lia ]).
      rewrite substring_app. apply append_assoc.
    + apply free_of_app; [ exact Hp | ].
      apply (free_of_app _ "/"); [ reflexivity | exact Hf ].
Qed.


(** X21. On paths without a backslash the pull of ['pull-repo'] goes
    beside the clone of ['clone-repo'].  The clone of a repository named
    [friendlyName] into the absolute [folderPathWithoutFName] puts its root
    at the folder's segments followed by the name; the pull puts it one
    directory deeper, below the name short of its last character (where
    that is a proper name). *)
Theorem pull_repo_beside_clone_repo folderPathWithoutFName friendlyName :
  JS.starts_with_slash folderPathWithoutFName = true ->
  JSString.free_of JSString.backslash folderPathWithoutFName = true ->
  JSString.free_of JSString.backslash friendlyName = true ->
  Path.valid_name friendlyName = true ->
  Path.valid_name (substring 0 (String.length friendlyName - 1) friendlyName) = true ->
  Path.segments (Path.join folderPathWithoutFName friendlyName)
  = Path.segments folderPathWithoutFName ++ [friendlyName]
  /\ Path.segments
       (Path.join (pull_repo_folderPath
                     (clone_repo_folderPath folderPathWithoutFName friendlyName))
                  friendlyName)
     = Path.segments folderPathWithoutFName
         ++ [substring 0 (String.length friendlyName - 1) friendlyName; friendlyName].
Proof.
  intros Habs Hp Hf Hname Hcut.
  split; [ apply (segments_join _ _ Habs Hname) | ].
  assert (Hne : friendlyName <> "") by (intros ->; discriminate).
  rewrite (pull_repo_folderPath_free
             (clone_repo_folderPath folderPathWithoutFName friendlyName)).
  - unfold clone_repo_folderPath.
    rewrite <- append_assoc, length_append.
    replace (String.length (folderPathWithoutFName ++ "/")
             + String.length friendlyName - 1)
      with (String.length (folderPathWithoutFName ++ "/")
            + (String.length friendlyName - 1))
      by (destruct friendlyName; [ contradiction | cbn; lia ]).
    rewrite substring_app, append_assoc.
    set (cut := substring 0 (String.length friendlyName - 1) friendlyName) in *.
    assert (Hsegs : Path.segments (folderPathWithoutFName ++ "/" ++ cut)
                    = Path.segments folderPathWithoutFName ++ [cut]).
    { unfold Path.segments.
      change (folderPathWithoutFName ++ "/" ++ cut)%string
        with (folderPathWithoutFName ++ String JS.slash cut)%string.
      rewrite split_app.
      destruct (valid_name_inv _ Hcut) as (_ & Hfree & _).
      rewrite (split_slash_free _ Hfree). apply normalizeSegments_snoc, Hcut. }
    assert (Habs' : JS.starts_with_slash (folderPathWithoutFName ++ "/" ++ cut) = true).
    { destruct folderPathWithoutFName; [ discriminate | exact Habs ]. }
    destruct (segments_join _ _ Habs' Hname) as [-> _].
    rewrite Hsegs, <- app_assoc. reflexivity.
  - unfold clone_repo_folderPath.
    apply free_of_app; [ exact Hp | ].
    apply (free_of_app _ "/"); [ reflexivity | exact Hf ].
Qed.

(** ** The further properties on the samples *)

Lemma concat_hash_chunking : @chunking_invariant Sample.concat_hash.
Proof.
  assert (Hfold : forall (chunks : list bytes) (acc : bytes),
             fold_left (fun h chunk => h ++ chunk) chunks acc = acc ++ concat chunks).
  { induction chunks as [| c chunks IH]; intros acc; cbn [fold_left concat].
    - rewrite app_nil_r. reflexivity.
    - rewrite IH, <- app_assoc. reflexivity. }
  intros a b Hab. unfold stream_digest. cbn [Sample.concat_hash update createHash digest_hex].
  rewrite !Hfold, Hab. reflexivity.
Qed.

Lemma repo_tree_cloneable : cloneable Sample.one_object "bucket" Sample.repo_tree.
Proof.
  apply cloneable_folder.
  - repeat constructor. intros [].
  - intros c [<- | []]. reflexivity.
  - intros c [<- | []]. apply (cloneable_file _ _ _ _ _ [Sample.hello]). reflexivity.
Qed.

Lemma repo_tree_proper_names : proper_names Sample.repo_tree.
Proof.
  apply proper_node; [ reflexivity | ].
  intros c [<- | []]. apply proper_leaf. reflexivity.
Qed.

Lemma cloneCloudRepo_twice_witness :
  cloneCloudRepo Sample.empty_store Sample.repo_tree "/home/user" "bucket"
    (snd (cloneCloudRepo Sample.one_object Sample.repo_tree "/home/user" "bucket"
            Sample.fresh_world))
  = (Resolved tt,
     snd (cloneCloudRepo Sample.one_object Sample.repo_tree "/home/user" "bucket"
            Sample.fresh_world)).
Proof.
  apply (cloneCloudRepo_twice Sample.one_object Sample.empty_store "bucket"
           Sample.repo_tree "/home/user" Sample.fresh_world).
  vm_compute. reflexivity.
Defined.

Lemma cloneCloudRepo_keeps_partial_file_witness :
  exists w1,
    cloneCloudRepo Sample.broken_store Sample.readme "/home/user" "bucket"
      Sample.fresh_world
    = (Rejected (TypeError "The path argument must be of type string. Received null"),
       w1)
    /\ FS.find (Path.segments (Path.join "/home/user" (name Sample.readme))) (fs w1)
       = Some (FFile (concat [Sample.hello]))
    /\ cloneCloudRepo Sample.one_object Sample.readme "/home/user" "bucket" w1
       = (Resolved tt, w1).
Proof.
  apply (cloneCloudRepo_keeps_partial_file Sample.broken_store Sample.one_object
           "bucket" Sample.readme "/home/user" Sample.fresh_world [Sample.hello] []);
    reflexivity.
Defined.

Lemma materializers_request_listed_keys_witness :
  asks_only (fun b k => b = "bucket" /\ In k ["readme.txt"]) Sample.fresh_world
    (snd (cloneCloudRepo Sample.one_object Sample.repo_tree "/home/user" "bucket"
            Sample.fresh_world))
  /\ asks_only (fun b k => b = "bucket" /\ In k ["readme.txt"]) Sample.fresh_world
       (snd (pullCloudRepo (sha := Sample.concat_hash) Sample.one_object
               Sample.repo_tree "/home/user" "bucket" Sample.fresh_world)).
Proof.
  apply (@materializers_request_listed_keys Sample.concat_hash Sample.one_object
           "repo" ["readme.txt"] Sample.repo_tree "/home/user" "bucket"
           Sample.fresh_world).
  reflexivity.
Defined.

Lemma materializers_stay_inside_witness :
  FS.find ["home"; "user"; "notes.txt"]
    (fs (snd (cloneCloudRepo Sample.one_object Sample.repo_tree "/home/user"
                "bucket" Sample.notes_world)))
  = FS.find ["home"; "user"; "notes.txt"] (fs Sample.notes_world)
  /\ FS.find ["home"; "user"; "notes.txt"]
       (fs (snd (pullCloudRepo (sha := Sample.concat_hash) Sample.one_object
                   Sample.repo_tree "/home/user" "bucket" Sample.notes_world)))
     = FS.find ["home"; "user"; "notes.txt"] (fs Sample.notes_world).
Proof.
  apply (@materializers_stay_inside Sample.concat_hash Sample.one_object
           Sample.repo_tree "/home/user" "bucket" Sample.notes_world
           ["home"; "user"; "notes.txt"]).
  - exact repo_tree_proper_names.
  - reflexivity.
  - split; reflexivity.
Defined.

Lemma getBucketHierarchy_key_below_file_witness :
  Bucket.getBucketHierarchy "repo" (Some (["a"] ++ "a/b" :: ["c"]))
  = Rejected Bucket.undefined_children.
Proof.
  apply (getBucketHierarchy_key_below_file "repo" ["a"] "a" "a/b" ["c"]).
  - reflexivity.
  - left. reflexivity.
  - exists ["b"]. split; [ discriminate | reflexivity ].
Defined.

Lemma getBucketHierarchy_resolves_witness :
  (exists hierarchy,
      Bucket.getBucketHierarchy "repo" (Some (Sample.ab_listing false))
      = Resolved hierarchy)
  /\ Bucket.getBucketHierarchy "repo" None
     = Rejected (TypeError "contents is not iterable").
Proof.
  split.
  - apply (proj1 (getBucketHierarchy_resolves "repo") (Sample.ab_listing false)).
    reflexivity.
  - apply (proj2 (getBucketHierarchy_resolves "repo")).
Defined.

Lemma getBucketHierarchy_paths_witness :
  path (Bucket.mkFile "c.txt" "b/c.txt") = JS.join ["b"; "c.txt"].
Proof.
  apply (getBucketHierarchy_paths "repo" (Sample.ab_listing false)
           Sample.ab_remote_tree ["b"; "c.txt"] (Bucket.mkFile "c.txt" "b/c.txt")).
  - reflexivity.
  - eapply leads_down;
      [ reflexivity | reflexivity | right; left; reflexivity | reflexivity | ].
    eapply leads_down;
      [ reflexivity | reflexivity | left; reflexivity | reflexivity | ].
    apply leads_here.
Defined.

Lemma getFolderHierarchy_mirror_witness :
  Folder.getFolderHierarchy 3 (Sample.ab_disk Sample.hello Sample.hello false)
    "/home/user/repo"
  = Some (Resolved (mirror "/home/user/repo" (FDir Sample2.ab_entries))).
Proof.
  apply (getFolderHierarchy_mirror 3 (Sample.ab_disk Sample.hello Sample.hello false)
           "/home/user/repo" (FDir Sample2.ab_entries)).
  - exact ab_disk_wf.
  - reflexivity.
  - reflexivity.
  - vm_compute. lia.
Defined.

Lemma pullCloudRepo_unchanged_file_witness :
  pullCloudRepo (sha := Sample.concat_hash) Sample.one_object Sample.readme
    "/home/user/repo" "bucket" Sample.cloned_world
  = (Resolved tt,
     World (fs Sample.cloned_world)
           (log Sample.cloned_world
              ++ [EvGetObject "bucket" (path Sample.readme);
                  EvCreateHash; EvCreateHash])).
Proof.
  apply (@pullCloudRepo_unchanged_file Sample.concat_hash Sample.one_object "bucket"
           Sample.readme "/home/user/repo" Sample.cloned_world
           [Sample.hello] Sample.hello);
    reflexivity.
Defined.

Lemma pullCloudRepo_replaces_file_witness :
  exists w',
    pullCloudRepo (sha := Sample.concat_hash) Sample.one_object Sample.readme
      "/home/user/repo" "bucket" Sample.stale_world = (Resolved tt, w')
    /\ FS.find (Path.segments "/home/user/repo" ++ [name Sample.readme]) (fs w')
       = Some (FFile (concat [Sample.hello])).
Proof.
  apply (@pullCloudRepo_replaces_file Sample.concat_hash Sample.one_object "bucket"
           Sample.readme "/home/user/repo" Sample.stale_world [Sample.hello]
           [("readme.txt", FFile [Byte.x68])]);
    try reflexivity.
  right. exists [Byte.x68]. split; [ reflexivity | ].
  intros H. vm_compute in H. discriminate H.
Defined.

Lemma pullCloudRepo_directory_in_the_way_witness :
  (exists w',
      pullCloudRepo (sha := Sample.concat_hash) Sample.empty_store
        (Bucket.mkFile "repo" "repo") "/home/user" "bucket" Sample.cloned_world
      = (Rejected (FsError EISDIR
                     (Path.join "/home/user" (name (Bucket.mkFile "repo" "repo")))),
         w')
      /\ fs w' = fs Sample.cloned_world)
  /\ cloneCloudRepo Sample.empty_store (Bucket.mkFile "repo" "repo") "/home/user"
       "bucket" Sample.cloned_world
     = (Resolved tt, Sample.cloned_world).
Proof.
  apply (@pullCloudRepo_directory_in_the_way Sample.concat_hash Sample.empty_store
           "bucket" (Bucket.mkFile "repo" "repo") "/home/user" Sample.cloned_world
           [("readme.txt", FFile Sample.hello)]).
  - reflexivity.
  - left. reflexivity.
  - reflexivity.
Defined.

Lemma pullCloudRepo_after_clone_witness :
  exists w1 w2,
    cloneCloudRepo Sample.one_object Sample.repo_tree "/home/user" "bucket"
      Sample.fresh_world = (Resolved tt, w1)
    /\ pullCloudRepo (sha := Sample.concat_hash) Sample.one_object Sample.repo_tree
         "/home/user" "bucket" w1 = (Resolved tt, w2)
    /\ fs w2 = fs w1
    /\ exists evs,
        log w2 = log w1 ++ evs
        /\ forallb (fun e => negb (changes_disk e)) evs = true.
Proof.
  apply (@pullCloudRepo_after_clone Sample.concat_hash Sample.one_object "bucket"
           Sample.repo_tree "/home/user" Sample.fresh_world []).
  - exact concat_hash_chunking.
  - exact repo_tree_cloneable.
  - reflexivity.
  - reflexivity.
  - reflexivity.
  - reflexivity.
Defined.

Lemma cloneLocalRepo_uploads_witness :
  Upload.cloneLocalRepo (fun _ => true)
    (Sample.ab_disk Sample.hello Sample.hello false) "bucket" 2 "/home/user/repo" []
  = Some (Resolved tt, Sample2.ab_uploads).
Proof.
  exact (cloneLocalRepo_uploads (fun _ => true)
           (Sample.ab_disk Sample.hello Sample.hello false) "bucket" 2
           "/home/user/repo" Sample2.ab_entries [] ab_disk_wf eq_refl eq_refl
           (le_n 2)).
Defined.

Lemma cloneLocalRepo_keys_are_names_witness :
  put_bucket (PutObject "bucket" "c.txt" (Some "/home/user/repo/b/c.txt")) = "bucket"
  /\ exists k,
      Path.valid_name k = true
      /\ ((put_key (PutObject "bucket" "c.txt" (Some "/home/user/repo/b/c.txt")) = k
           /\ exists q,
               put_body (PutObject "bucket" "c.txt" (Some "/home/user/repo/b/c.txt"))
               = Some q
               /\ Path.basename q = k)
          \/ (put_key (PutObject "bucket" "c.txt" (Some "/home/user/repo/b/c.txt"))
              = (k ++ "/")%string
              /\ put_body (PutObject "bucket" "c.txt" (Some "/home/user/repo/b/c.txt"))
                 = None)).
Proof.
  apply (cloneLocalRepo_keys_are_names (fun _ => true)
           (Sample.ab_disk Sample.hello Sample.hello false) "bucket" 2
           "/home/user/repo" Sample2.ab_entries (Resolved tt) Sample2.ab_uploads).
  - exact ab_disk_wf.
  - reflexivity.
  - reflexivity.
  - apply le_n.
  - reflexivity.
  - right. right. left. reflexivity.
Defined.

Lemma pullCloudRepo_syncs_witness :
  exists w',
    pullCloudRepo (sha := Sample.concat_hash) Sample.one_object Sample.repo_tree
      "/home/user" "bucket" Sample.stale_world = (Resolved tt, w')
    /\ forall names n,
        leads_to names Sample.repo_tree n ->
        exists x,
          FS.find (Path.segments "/home/user" ++ name Sample.repo_tree :: names)
                  (fs w') = Some x
          /\ synced (sha := Sample.concat_hash) Sample.one_object "bucket" n x.
Proof.
  apply (@pullCloudRepo_syncs Sample.concat_hash Sample.one_object "bucket"
           Sample.repo_tree "/home/user" Sample.stale_world
           [("repo", FDir [("readme.txt", FFile [Byte.x68])])]).
  - exact repo_tree_cloneable.
  - reflexivity.
  - reflexivity.
  - reflexivity.
  - intros names n x Hlead.
    inversion Hlead as [ h0 | s rest h0 cs c n0 Ht Hch Hin Hname Hrest ]; subst.
    + intros [= <-]. exact I.
    + injection Hch as <-. destruct Hin as [<- | []].
      inversion Hrest as [ h1 | s1 rest1 h1 cs1 c1 n1 Ht1 Hch1 ]; subst;
        [ | discriminate ].
      intros [= <-]. exact I.
Defined.

Lemma get_folder_hierarchy_never_rejects_witness :
  exists fuel0 answer evs,
    (forall fuel,
        fuel0 <= fuel ->
        get_folder_hierarchy fuel (Sample.ab_disk Sample.hello Sample.hello false)
          "/home/user/repo/a.txt/x"
        = Some (Resolved answer, evs))
    /\ ("/home/user/repo/a.txt/x" = "" -> answer = EmptyArray /\ evs = [])
    /\ ("/home/user/repo/a.txt/x" <> "" ->
        FS.find (Path.segments "/home/user/repo/a.txt/x")
                (Sample.ab_disk Sample.hello Sample.hello false) = None ->
        answer = EmptyArray
        /\ evs = [EvConsoleError "Error reading folder hierarchy:"])
    /\ (forall n,
           "/home/user/repo/a.txt/x" <> "" ->
           FS.find (Path.segments "/home/user/repo/a.txt/x")
                   (Sample.ab_disk Sample.hello Sample.hello false) = Some n ->
           answer = Hierarchy (mirror "/home/user/repo/a.txt/x" n) /\ evs = []).
Proof.
  apply (get_folder_hierarchy_never_rejects
           (Sample.ab_disk Sample.hello Sample.hello false)
           "/home/user/repo/a.txt/x").
  - exact ab_disk_wf.
  - right. reflexivity.
Defined.

(** The two ways the local builder fails to find a path. *)
Lemma lstat_failures :
  Folder.getFolderHierarchy 1 (Sample.ab_disk Sample.hello Sample.hello false)
    "/home/user/repo/a.txt/x"
  = Some (Rejected (FsError ENOTDIR "/home/user/repo/a.txt/x"))
  /\ Folder.getFolderHierarchy 1 (Sample.ab_disk Sample.hello Sample.hello false)
       "/home/user/repo/missing"
     = Some (Rejected (FsError ENOENT "/home/user/repo/missing")).
Proof. split; reflexivity. Qed.

Lemma getActiveRepoLocal_sound_witness :
  Store.lookup "activeRepo" Sample2.config
  = Some (JString (Store.repo_uniqueName Sample2.u1))
  /\ Store.repo_uniqueName Sample2.u1 <> "activeRepo"
  /\ exists value,
      In (Store.repo_uniqueName Sample2.u1, value) Sample2.config
      /\ Store.member value "friendlyName"
         = Resolved (Store.repo_friendlyName Sample2.u1)
      /\ Store.member value "organization"
         = Resolved (Store.repo_organization Sample2.u1)
      /\ Store.member value "folderPath"
         = Resolved (Store.repo_folderPath Sample2.u1).
Proof.
  apply (getActiveRepoLocal_sound Sample2.config Sample2.u1). reflexivity.
Defined.

Lemma getActiveRepoLocal_complete_witness :
  Store.getActiveRepoLocal Sample2.config = Resolved (Some Sample2.u1).
Proof.
  apply (getActiveRepoLocal_complete Sample2.config "u1"
           [("friendlyName", JString "repo"); ("organization", JString "org");
            ("folderPath", JString "/home/user/repo")]).
  - repeat constructor; cbn; intuition discriminate.
  - intros k [H | [H | []]]; discriminate H.
  - reflexivity.
  - discriminate.
  - left. reflexivity.
Defined.

Lemma pull_repo_folderPath_cut_witness :
  pull_repo_folderPath ("C:" ++ String JSString.backslash "repo") = "C:"
  /\ pull_repo_folderPath "/home/user/repo"
     = substring 0 (String.length "/home/user/repo" - 1) "/home/user/repo".
Proof.
  split.
  - apply (proj1 pull_repo_folderPath_cut "C:" "repo"). reflexivity.
  - apply (proj2 pull_repo_folderPath_cut "/home/user/repo"). reflexivity.
Defined.

Lemma pull_repo_after_clone_repo_witness :
  pull_repo_folderPath
    (clone_repo_folderPath ("C:" ++ String JSString.backslash "me") "repo")
  = "C:"
  /\ pull_repo_folderPath (clone_repo_folderPath "/home/user" "repo")
     = "/home/user/rep".
Proof.
  pose proof (pull_repo_after_clone_repo "repo" eq_refl) as [Hcut Hfree];
    [ discriminate | ].
  split.
  - apply (Hcut "C:" "me"). reflexivity.
  - apply (Hfree "/home/user"). reflexivity.
Defined.

Lemma pull_repo_beside_clone_repo_witness :
  Path.segments (Path.join "/home/user" "repo") = ["home"; "user"; "repo"]
  /\ Path.segments
       (Path.join (pull_repo_folderPath (clone_repo_folderPath "/home/user" "repo"))
                  "repo")
     = ["home"; "user"; "rep"; "repo"].
Proof.
  exact (pull_repo_beside_clone_repo "/home/user" "repo"
           eq_refl eq_refl eq_refl eq_refl eq_refl).
Defined.
